(** * envire_core: labeled transform graph and tree views

    A shallow embedding of [LabeledTransformTree.hpp], [graph/TreeView.hpp],
    [graph/TransformGraphTypes.hpp] and [Frame.hpp].

    The C++ classes are thin layers over the Boost Graph Library
    ([boost::directed_graph] wrapped in [boost::labeled_graph]).  The BGL
    operations the sources call are modelled by the definitions whose names
    start with [boost_]; the methods of the repository are then transcribed
    statement by statement on top of them.  A call in C++ either returns,
    raises an exception, stops at a failed assertion or has undefined
    behaviour (a null or dangling descriptor is dereferenced); the outcomes
    are kept apart by the [outcome] monad.  What the language leaves open
    is a parameter of the development: the addresses [new] hands out
    ([Allocator]) and whether [assert] is compiled in ([Build]). *)

From stdpp Require Import gmap strings list fin_maps.

Set Default Proof Using "Type".
#[local] Set Warnings "-clear-no-such-hyp".

(** ** Outcomes of a C++ call *)

(** [std_out_of_range] is what [std::unordered_map::at] raises.  The other
    four are the failure kinds the design document names; no function of the
    sources raises them. *)
Inductive exception : Set :=
  | std_out_of_range
  | DuplicateFrame
  | UnknownFrame
  | UnknownEdge
  | InvalidRoot.

(** [Aborts]: an [assert] failed.  [Undefined]: the call dereferenced a null
    or dangling pointer, or broke a precondition of the library. *)
Inductive outcome (A : Type) : Type :=
  | Returns (a : A)
  | Throws (e : exception)
  | Aborts
  | Undefined.
Arguments Returns {A} a.
Arguments Throws {A} e.
Arguments Aborts {A}.
Arguments Undefined {A}.

#[global] Instance outcome_ret : MRet outcome := @Returns.
#[global] Instance outcome_bind : MBind outcome := fun A B f m =>
  match m with
  | Returns a => f a
  | Throws e => Throws e
  | Aborts => Aborts
  | Undefined => Undefined
  end.

(** The call did not return normally. *)
Definition fails {A} (o : outcome A) : Prop :=
  match o with Returns _ => False | _ => True end.

(** ** Descriptors *)

(** A vertex descriptor of [boost::directed_graph] is the address of the
    heap node that stores the vertex; [null_vertex()] is the null pointer. *)
Abbreviation vertex_descriptor := N (only parsing).
Definition null_vertex : vertex_descriptor := 0%N.

(** An edge descriptor carries both endpoints and the address of the stored
    edge property; two descriptors denote the same edge when that address
    agrees. *)
Record edge_descriptor : Set := EdgeDesc {
  ed_source : vertex_descriptor;
  ed_target : vertex_descriptor;
  ed_id : N
}.

#[global] Instance edge_descriptor_eq_dec : EqDecision edge_descriptor.
Proof. solve_decision. Defined.

(** [typedef std::string VertexLabel] *)
Abbreviation VertexLabel := string (only parsing).

(** ** What the language leaves open *)

(** The allocator behind [new].  [new_address n l] is the address returned
    by the allocation with serial number [n] while the objects at the
    addresses [l] are alive.  The language promises only that the address
    is not null and is that of no live object: the address of a freed
    object may be handed out again.  Any run of a program draws its
    addresses from some such function, the serial number standing for the
    history the choice may depend on. *)
Class Allocator : Type := {
  new_address : N → list N → N;
  new_address_fresh : ∀ n l, new_address n l ∉ l;
  new_address_not_null : ∀ n l, new_address n l ≠ 0%N
}.

(** The build: with [NDEBUG] defined, [assert] expands to nothing. *)
Class Build : Set := { NDEBUG : bool }.

(** ** Frame.hpp *)

Record Frame : Set := mkFrame {
  name : string;            (* Frame name *)
  uuid : N;                 (* Unique Identifier *)
  items : list N            (* handles of the items in the node *)
}.

Definition setName (n : string) (f : Frame) : Frame :=
  {| name := n; uuid := uuid f; items := items f |}.

Definition getName (f : Frame) : string := name f.

Section Graph.

(** The edge payload [envire::core::Transform] is defined outside the
    sources at hand and is never inspected by them. *)
Context {Transform : Type}.

(** The generator of frame identifiers. *)
Context (new_uuid : string → N).

Context {allocator : Allocator}.

(** Modelled from the spec: the constructor [Frame(const std::string&)] is
    declared in [Frame.hpp] and defined elsewhere; a frame is created with
    its name, an identifier drawn from a generator, and no items. *)
Definition Frame_of_name (n : string) : Frame :=
  {| name := n; uuid := new_uuid n; items := [] |}.

(** ** The Boost graph the class is built on *)

Record stored_vertex : Set := StoredVertex {
  sv_desc : vertex_descriptor;
  sv_frame : Frame
}.

Record stored_edge : Type := StoredEdge {
  se_id : N;
  se_source : vertex_descriptor;
  se_target : vertex_descriptor;
  se_transform : Transform
}.

(** [boost::directed_graph]: the vertex list and the global edge list, both
    in insertion order, and the serial numbers of the next allocation of a
    vertex node and of an edge property. *)
Record directed_graph : Type := DirectedGraph {
  m_vertices : list stored_vertex;
  m_edges : list stored_edge;
  m_next_vertex : N;
  m_next_edge : N
}.

(** [boost::labeled_graph<TransformGraph, VertexLabel>]: the graph and the
    label index [_map], a [std::map<std::string, vertex_descriptor>]. *)
Record LabeledTransformTree : Type := Labeled {
  _graph : directed_graph;
  _map : gmap string N
}.

Definition descriptor_of (e : stored_edge) : edge_descriptor :=
  EdgeDesc (se_source e) (se_target e) (se_id e).

Definition vertex_set (g : directed_graph) : list vertex_descriptor :=
  sv_desc <$> m_vertices g.

Definition is_live (v : vertex_descriptor) (g : directed_graph) : bool :=
  bool_decide (v ∈ vertex_set g).

Definition stored_at (ed : edge_descriptor) (e : stored_edge) : bool :=
  bool_decide (descriptor_of e = ed).

Definition is_edge (ed : edge_descriptor) (g : directed_graph) : bool :=
  existsb (stored_at ed) (m_edges g).

Definition joins (u v : vertex_descriptor) (e : stored_edge) : bool :=
  bool_decide (se_source e = u) && bool_decide (se_target e = v).

Definition touches (v : vertex_descriptor) (e : stored_edge) : bool :=
  bool_decide (se_source e = v) || bool_decide (se_target e = v).

(** *** Operations of the library *)

Definition boost_empty_graph : directed_graph :=
  {| m_vertices := []; m_edges := []; m_next_vertex := 1; m_next_edge := 1 |}.

(** [add_vertex(g)] followed by [put(vertex_all, g, v, p)]: a new node is
    allocated and appended to the vertex list.  Its address differs from
    those of the vertices in the graph; it may be that of a vertex removed
    earlier. *)
Definition boost_add_vertex (p : Frame) (g : directed_graph)
  : vertex_descriptor * directed_graph :=
  let v := new_address (m_next_vertex g) (vertex_set g) in
  (v, {| m_vertices := m_vertices g ++ [StoredVertex v p];
         m_edges := m_edges g;
         m_next_vertex := N.succ (m_next_vertex g);
         m_next_edge := m_next_edge g |}).

(** [out_degree(v, g)] and [in_degree(v, g)] read the edge lists kept in
    the node [v] points to. *)
Definition boost_out_degree (v : vertex_descriptor) (g : directed_graph) : outcome nat :=
  if is_live v g
  then Returns (length (List.filter (fun e => bool_decide (se_source e = v)) (m_edges g)))
  else Undefined.

Definition boost_in_degree (v : vertex_descriptor) (g : directed_graph) : outcome nat :=
  if is_live v g
  then Returns (length (List.filter (fun e => bool_decide (se_target e = v)) (m_edges g)))
  else Undefined.

(** [edge(u, v, g)]: the first out-edge of [u] whose target is [v]; when
    there is none the descriptor has a null property and the flag is
    false.  Only [u] is dereferenced. *)
Definition boost_edge (u v : vertex_descriptor) (g : directed_graph)
  : outcome (edge_descriptor * bool) :=
  if is_live u g then
    match List.find (joins u v) (m_edges g) with
    | Some e => Returns (descriptor_of e, true)
    | None => Returns (EdgeDesc u v 0, false)
    end
  else Undefined.

(** [add_edge(u, v, p, g)]: the edge is appended to the global edge list
    and linked into the out-list of [u] and the in-list of [v]. *)
Definition boost_add_edge (u v : vertex_descriptor) (p : Transform) (g : directed_graph)
  : outcome ((edge_descriptor * bool) * directed_graph) :=
  if is_live u g && is_live v g then
    let i := new_address (m_next_edge g) (se_id <$> m_edges g) in
    Returns ((EdgeDesc u v i, true),
             {| m_vertices := m_vertices g;
                m_edges := m_edges g ++ [StoredEdge i u v p];
                m_next_vertex := m_next_vertex g;
                m_next_edge := N.succ (m_next_edge g) |})
  else Undefined.

Definition boost_set_transform (ed : edge_descriptor) (tf : Transform) (e : stored_edge)
  : stored_edge :=
  if stored_at ed e
  then StoredEdge (se_id e) (se_source e) (se_target e) tf
  else e.

(** [put(TransformPropertyTag(), g, e, tf)] writes through the property
    address held by the descriptor. *)
Definition boost_put (ed : edge_descriptor) (tf : Transform) (g : directed_graph)
  : outcome directed_graph :=
  if is_edge ed g then
    Returns {| m_vertices := m_vertices g;
               m_edges := boost_set_transform ed tf <$> m_edges g;
               m_next_vertex := m_next_vertex g;
               m_next_edge := m_next_edge g |}
  else Undefined.

(** [get(TransformPropertyTag(), g, e)] *)
Definition boost_get_transform (ed : edge_descriptor) (g : directed_graph) : outcome Transform :=
  match List.find (stored_at ed) (m_edges g) with
  | Some e => Returns (se_transform e)
  | None => Undefined
  end.

(** [get(FramePropertyTag(), g, v)] *)
Definition boost_get_frame (v : vertex_descriptor) (g : directed_graph) : outcome Frame :=
  match List.find (fun s => bool_decide (sv_desc s = v)) (m_vertices g) with
  | Some s => Returns (sv_frame s)
  | None => Undefined
  end.

Definition boost_with_edges (es : list stored_edge) (g : directed_graph) : directed_graph :=
  {| m_vertices := m_vertices g; m_edges := es;
     m_next_vertex := m_next_vertex g; m_next_edge := m_next_edge g |}.

(** [remove_edge(u, v, g)]: walks the out-edges of [u] and removes every
    edge whose target is [v]; it is not an error when there is none. *)
Definition boost_remove_edge (u v : vertex_descriptor) (g : directed_graph)
  : outcome directed_graph :=
  if is_live u g
  then Returns (boost_with_edges (List.filter (fun e => negb (joins u v e)) (m_edges g)) g)
  else Undefined.

(** [remove_edge(e, g)] *)
Definition boost_remove_edge_desc (ed : edge_descriptor) (g : directed_graph)
  : outcome directed_graph :=
  if is_edge ed g
  then Returns (boost_with_edges (List.filter (fun e => negb (stored_at ed e)) (m_edges g)) g)
  else Undefined.

(** [clear_vertex(v, g)]: removes all edges to and from [v]. *)
Definition boost_clear_vertex (v : vertex_descriptor) (g : directed_graph)
  : outcome directed_graph :=
  if is_live v g
  then Returns (boost_with_edges (List.filter (fun e => negb (touches v e)) (m_edges g)) g)
  else Undefined.

(** [remove_vertex(v, g)]: unlinks and frees the node.  The library
    requires that no edge is incident to [v] any more. *)
Definition boost_remove_vertex (v : vertex_descriptor) (g : directed_graph)
  : outcome directed_graph :=
  if is_live v g && negb (existsb (touches v) (m_edges g)) then
    Returns {| m_vertices := List.filter (fun s => negb (bool_decide (sv_desc s = v)))
                                         (m_vertices g);
               m_edges := m_edges g;
               m_next_vertex := m_next_vertex g;
               m_next_edge := m_next_edge g |}
  else Undefined.

(** [directed_graph::clear()] *)
Definition boost_clear (g : directed_graph) : directed_graph :=
  {| m_vertices := []; m_edges := [];
     m_next_vertex := m_next_vertex g; m_next_edge := m_next_edge g |}.

(** *** labeled_graph *)

Definition boost_on_graph (f : directed_graph → outcome directed_graph)
    (t : LabeledTransformTree) : outcome LabeledTransformTree :=
  g ← f (_graph t); mret (Labeled g (_map t)).

(** [find_labeled_vertex]: the indexed descriptor, or [null_vertex()]. *)
Definition boost_vertex_by_label (l : VertexLabel) (t : LabeledTransformTree)
  : vertex_descriptor :=
  default null_vertex (_map t !! l).

(** [labeled_graph::add_vertex(l, p)] through [insert_labeled_vertex]:
    the label is inserted into the index first, and a vertex is added
    only when the label was new; otherwise the descriptor already indexed
    is returned. *)
Definition boost_labeled_add_vertex (l : VertexLabel) (p : Frame) (t : LabeledTransformTree)
  : vertex_descriptor * LabeledTransformTree :=
  match _map t !! l with
  | Some v => (v, t)
  | None =>
      let '(v, g) := boost_add_vertex p (_graph t) in
      (v, Labeled g (<[l := v]> (_map t)))
  end.

(** [labeled_graph::remove_vertex(l)] is
    [boost::remove_vertex(vertex(l), _graph)]: the index keeps the label. *)
Definition boost_labeled_remove_vertex (l : VertexLabel) (t : LabeledTransformTree)
  : outcome LabeledTransformTree :=
  boost_on_graph (boost_remove_vertex (boost_vertex_by_label l t)) t.

Definition boost_clear_vertex_by_label (l : VertexLabel) (t : LabeledTransformTree)
  : outcome LabeledTransformTree :=
  boost_on_graph (boost_clear_vertex (boost_vertex_by_label l t)) t.

Definition boost_edge_by_label (u v : VertexLabel) (t : LabeledTransformTree)
  : outcome (edge_descriptor * bool) :=
  boost_edge (boost_vertex_by_label u t) (boost_vertex_by_label v t) (_graph t).

Definition boost_add_edge_by_label (u v : VertexLabel) (p : Transform)
    (t : LabeledTransformTree)
  : outcome ((edge_descriptor * bool) * LabeledTransformTree) :=
  '(r, g) ← boost_add_edge (boost_vertex_by_label u t) (boost_vertex_by_label v t) p (_graph t);
  mret (r, Labeled g (_map t)).

(** ** LabeledTransformTree.hpp *)

Definition empty_tree : LabeledTransformTree := Labeled boost_empty_graph ∅.

(** [add_vertex(const VertexLabel&)] *)
Definition add_vertex (node_label : VertexLabel) (t : LabeledTransformTree)
  : outcome (vertex_descriptor * LabeledTransformTree) :=
  let node := Frame_of_name node_label in
  Returns (boost_labeled_add_vertex node_label node t).

(** [add_vertex(const Frame&)] *)
Definition add_vertex_frame (node : Frame) (t : LabeledTransformTree)
  : outcome (vertex_descriptor * LabeledTransformTree) :=
  Returns (boost_labeled_add_vertex (name node) node t).

(** [vertex(const VertexLabel&)] *)
Definition vertex (node_label : VertexLabel) (t : LabeledTransformTree)
  : vertex_descriptor :=
  boost_vertex_by_label node_label t.

Definition vertices (t : LabeledTransformTree) : list vertex_descriptor :=
  vertex_set (_graph t).

(** [remove_vertex(const VertexLabel&)] *)
Definition remove_vertex (node_label : VertexLabel) (t : LabeledTransformTree)
  : outcome LabeledTransformTree :=
  t1 ← boost_clear_vertex_by_label node_label t;
  boost_labeled_remove_vertex node_label t1.

(** [remove_vertex(const vertex_descriptor)] *)
Definition remove_vertex_vd (vd : vertex_descriptor) (t : LabeledTransformTree)
  : outcome LabeledTransformTree :=
  t1 ← boost_on_graph (boost_clear_vertex vd) t;
  boost_on_graph (boost_remove_vertex vd) t1.

Definition num_vertices (t : LabeledTransformTree) : nat :=
  length (m_vertices (_graph t)).

(** [add_edge(const VertexLabel, const VertexLabel, const Transform&)] *)
Definition add_edge (node_from node_to : VertexLabel) (tf : Transform)
    (t : LabeledTransformTree)
  : outcome ((edge_descriptor * bool) * LabeledTransformTree) :=
  '(ed, found) ← boost_edge_by_label node_from node_to t;
  if (found : bool) then
    t1 ← boost_on_graph (boost_put ed tf) t;
    mret ((ed, found), t1)
  else
    boost_add_edge_by_label node_from node_to tf t.

(** [add_edge(const vertex_descriptor, const vertex_descriptor, const Transform&)] *)
Definition add_edge_vd (node_from node_to : vertex_descriptor) (tf : Transform)
    (t : LabeledTransformTree)
  : outcome ((edge_descriptor * bool) * LabeledTransformTree) :=
  '(ed, found) ← boost_edge node_from node_to (_graph t);
  if (found : bool) then
    t1 ← boost_on_graph (boost_put ed tf) t;
    mret ((ed, found), t1)
  else
    '(r, g) ← boost_add_edge node_from node_to tf (_graph t);
    mret (r, Labeled g (_map t)).

(** The block both destructive removals run for one endpoint: read the
    in- and out-degree and remove the vertex when their sum is zero. *)
Definition remove_if_isolated (v : vertex_descriptor) (t : LabeledTransformTree)
  : outcome LabeledTransformTree :=
  in_edges ← boost_in_degree v (_graph t);
  out_edges ← boost_out_degree v (_graph t);
  if (in_edges + out_edges =? 0)%nat
  then boost_on_graph (boost_remove_vertex v) t
  else mret t.

(** [remove_edge(const edge_descriptor, const bool destructive)] *)
Definition remove_edge_ed (ed : edge_descriptor) (destructive : bool)
    (t : LabeledTransformTree) : outcome LabeledTransformTree :=
  let svd := ed_source ed in
  let tvd := ed_target ed in
  t1 ← boost_on_graph (boost_remove_edge_desc ed) t;
  if destructive then
    t2 ← remove_if_isolated svd t1;
    remove_if_isolated tvd t2
  else mret t1.

(** [remove_edge(const vertex_descriptor, const vertex_descriptor, const bool)];
    the lines written to [std::cout] are left out. *)
Definition remove_edge_vd (node_from node_to : vertex_descriptor) (destructive : bool)
    (t : LabeledTransformTree) : outcome LabeledTransformTree :=
  t1 ← boost_on_graph (boost_remove_edge node_from node_to) t;
  if destructive then
    t2 ← remove_if_isolated node_from t1;
    remove_if_isolated node_to t2
  else mret t1.

(** [remove_edge(const VertexLabel&, const VertexLabel&, const bool)] *)
Definition remove_edge (node_from node_to : VertexLabel) (destructive : bool)
    (t : LabeledTransformTree) : outcome LabeledTransformTree :=
  let v_from := boost_vertex_by_label node_from t in
  let v_to := boost_vertex_by_label node_to t in
  remove_edge_vd v_from v_to destructive t.

Definition edges (t : LabeledTransformTree) : list edge_descriptor :=
  descriptor_of <$> m_edges (_graph t).

Definition source (ed : edge_descriptor) : vertex_descriptor := ed_source ed.
Definition target (ed : edge_descriptor) : vertex_descriptor := ed_target ed.

(** [boost::out_edges(node, *this)] reads the out-edge list kept in the
    node [node] points to. *)
Definition boost_out_edges (v : vertex_descriptor) (g : directed_graph)
  : outcome (list edge_descriptor) :=
  if is_live v g
  then Returns (descriptor_of <$>
                  List.filter (fun e => bool_decide (se_source e = v)) (m_edges g))
  else Undefined.

Definition out_edges (node : vertex_descriptor) (t : LabeledTransformTree)
  : outcome (list edge_descriptor) :=
  boost_out_edges node (_graph t).

Definition num_edges (t : LabeledTransformTree) : nat :=
  length (m_edges (_graph t)).

Definition getFrame (vd : vertex_descriptor) (t : LabeledTransformTree) : outcome Frame :=
  boost_get_frame vd (_graph t).

Definition getTransform (ed : edge_descriptor) (t : LabeledTransformTree)
  : outcome Transform :=
  boost_get_transform ed (_graph t).

(** [clear()] is [this->graph().clear()]. *)
Definition clear (t : LabeledTransformTree) : LabeledTransformTree :=
  Labeled (boost_clear (_graph t)) (_map t).

End Graph.

Arguments stored_edge : clear implicits.
Arguments directed_graph : clear implicits.
Arguments LabeledTransformTree : clear implicits.

(** ** graph/TreeView.hpp *)

(** Structure to store the parent and children relation for a vertex in a
    tree. *)
Record VertexRelation : Set := mkRelation {
  parent : vertex_descriptor;
  children : gset N
}.

(** [TreeView]: [treeUpdated] holds the slots connected to the signal,
    [publisher] is a pointer to a [TreeUpdatePublisher] ([None] for
    [nullptr]).  The struct of the same name in [TransformGraphTypes.hpp]
    has the fields [tree] and [crossEdges] only. *)
Record TreeView : Set := mkTreeView {
  treeUpdated : list N;
  tree : gmap N VertexRelation;
  crossEdges : list edge_descriptor;
  publisher : option N
}.

(** [TreeView() {}] with the default member initialisers. *)
Definition TreeView_default : TreeView :=
  {| treeUpdated := []; tree := ∅; crossEdges := []; publisher := None |}.

(** [isRoot]: [tree.at(vd)] raises [std::out_of_range] for a missing key. *)
Definition isRoot (vd : vertex_descriptor) (this : TreeView) : outcome bool :=
  match tree this !! vd with
  | Some r => if decide (parent r = null_vertex) then Returns true else Returns false
  | None => Throws std_out_of_range
  end.

(** The calls a [TreeUpdatePublisher] receives. *)
Inductive publisher_call : Set :=
  | unsubscribe_call (pub view : N)
  | subscribe_call (pub view : N).

(** The objects the TreeView code works on: the TreeViews alive, by
    address; for every publisher alive the views registered with it; and
    the calls the publishers have received, oldest first. *)
Record heap : Set := Heap {
  views : gmap N TreeView;
  subscribed : gmap N (gset N);
  calls : list publisher_call
}.

Definition set_view (a : N) (tv : TreeView) (h : heap) : heap :=
  {| views := <[a := tv]> (views h); subscribed := subscribed h; calls := calls h |}.

Definition with_publisher (p : option N) (tv : TreeView) : TreeView :=
  {| treeUpdated := treeUpdated tv; tree := tree tv;
     crossEdges := crossEdges tv; publisher := p |}.

(** [assert(e)]: the call stops when [e] is false and assertions are
    compiled in; with [NDEBUG] the expression is not even evaluated. *)
Definition assert {build : Build} (e : bool) : outcome unit :=
  if NDEBUG then Returns tt else if e then Returns tt else Aborts.

(** [setPublisher]: [assert(publisher == nullptr); publisher = pub;] *)
Definition setPublisher {build : Build} (pub : N) (this : N) (h : heap) : outcome heap :=
  match views h !! this with
  | Some tv =>
      _ ← assert (bool_decide (publisher tv = None));
      mret (set_view this (with_publisher (Some pub) tv) h)
  | None => Undefined
  end.

(** Modelled from the spec: [TreeUpdatePublisher] is an abstract interface
    in [TreeView.hpp] and the class implementing it is not part of the
    sources at hand.  A publisher keeps the set of views registered with it;
    [unsubscribeTreeView] takes the view out of the set. *)
Definition unsubscribeTreeView (pub view : N) (h : heap) : outcome heap :=
  match subscribed h !! pub with
  | Some s =>
      Returns {| views := views h;
                 subscribed := <[pub := s ∖ {[view]}]> (subscribed h);
                 calls := calls h ++ [unsubscribe_call pub view] |}
  | None => Undefined
  end.

(** Modelled from the spec: [subscribeTreeView] puts the view into the set
    and, as the move constructor of [TreeView] relies on, sets the
    publisher of the view through [setPublisher]. *)
Definition subscribeTreeView {build : Build} (pub view : N) (h : heap) : outcome heap :=
  match subscribed h !! pub with
  | Some s =>
      setPublisher pub view
        {| views := views h;
           subscribed := <[pub := s ∪ {[view]}]> (subscribed h);
           calls := calls h ++ [subscribe_call pub view] |}
  | None => Undefined
  end.

(** [operator=(const TreeView&)]: [publisher], [tree] and [crossEdges] are
    assigned; [treeUpdated] is left as it is. *)
Definition assign (this other : N) (h : heap) : outcome heap :=
  match views h !! this, views h !! other with
  | Some a, Some b =>
      Returns (set_view this
                 {| treeUpdated := treeUpdated a; tree := tree b;
                    crossEdges := crossEdges b; publisher := publisher b |} h)
  | _, _ => Undefined
  end.

(** [TreeView() {}] at the fresh address [this]. *)
Definition default_construct (this : N) (h : heap) : outcome heap :=
  match views h !! this with
  | Some _ => Undefined
  | None => Returns (set_view this TreeView_default h)
  end.

(** [TreeView(const TreeView& other) { *this = other; }] at the fresh
    address [this]. *)
Definition copy_construct (this other : N) (h : heap) : outcome heap :=
  h0 ← default_construct this h;
  assign this other h0.

(** [TreeView(TreeView&& other)] at the fresh address [this]: the two
    containers are moved out of [other], which leaves them empty. *)
Definition move_construct {build : Build} (this other : N) (h : heap) : outcome heap :=
  match views h !! this, views h !! other with
  | None, Some o =>
      let h0 :=
        set_view this
          {| treeUpdated := []; tree := tree o;
             crossEdges := crossEdges o; publisher := None |}
          (set_view other
             {| treeUpdated := treeUpdated o; tree := ∅;
                crossEdges := []; publisher := publisher o |} h) in
      h3 ← match publisher o with
           | Some pub =>
               h1 ← unsubscribeTreeView pub other h0;
               h2 ← subscribeTreeView pub this h1;
               match views h2 !! other with
               | Some o' => mret (set_view other (with_publisher None o') h2)
               | None => Undefined
               end
           | None => mret h0
           end;
      match views h3 !! this, views h3 !! other with
      | Some t', Some o' =>
          mret (set_view this
                  {| treeUpdated := treeUpdated o'; tree := tree t';
                     crossEdges := crossEdges t'; publisher := publisher t' |}
                  (set_view other
                     {| treeUpdated := treeUpdated t'; tree := tree o';
                        crossEdges := crossEdges o'; publisher := publisher o' |} h3))
      | _, _ => Undefined
      end
  | _, _ => Undefined
  end.

(** [~TreeView()]: unsubscribes when a publisher is set; the object is
    gone afterwards. *)
Definition destroy (this : N) (h : heap) : outcome heap :=
  match views h !! this with
  | Some tv =>
      h1 ← match publisher tv with
           | Some pub =>
               h' ← unsubscribeTreeView pub this h;
               mret (set_view this (with_publisher None tv) h')
           | None => mret h
           end;
      mret {| views := delete this (views h1);
              subscribed := subscribed h1; calls := calls h1 |}
  | None => Undefined
  end.

(** The views registered with publisher [pub]. *)
Definition registered (pub : N) (h : heap) : gset N :=
  default ∅ (subscribed h !! pub).

(** Every registration is that of a live view whose [publisher] field
    names the publisher it is registered with. *)
Definition registrations_backed (h : heap) : Prop :=
  ∀ pub view, view ∈ registered pub h →
    ∃ tv, views h !! view = Some tv ∧ publisher tv = Some pub.

(** ** Invariants of the graph *)

Section Invariants.
Context {Transform : Type} {allocator : Allocator}.
Implicit Types (g : directed_graph Transform) (t : LabeledTransformTree Transform).

(** Number of stored edges from [u] to [v]. *)
Definition edge_count (u v : vertex_descriptor) g : nat :=
  length (List.filter (joins u v) (m_edges g)).

(** Number of stored edges to or from [v]; a self-loop counts once. *)
Definition incident_count (v : vertex_descriptor) g : nat :=
  length (List.filter (touches v) (m_edges g)).

(** At most one edge per ordered pair of vertices. *)
Definition no_parallel_edges g : Prop :=
  ∀ u v, edge_count u v g ≤ 1.

(** No edge with a missing endpoint. *)
Definition no_dangling_edges g : Prop :=
  ∀ e, e ∈ m_edges g →
    se_source e ∈ vertex_set g ∧ se_target e ∈ vertex_set g.

(** What every graph built through the class satisfies: descriptors are
    distinct and not null, edges join live vertices and no ordered pair is
    joined twice. *)
Record graph_wf g : Prop := GraphWf {
  wf_vertices : NoDup (vertex_set g);
  wf_edge_ids : NoDup (se_id <$> m_edges g);
  wf_endpoints : no_dangling_edges g;
  wf_parallel : no_parallel_edges g;
  wf_vertex_not_null : ∀ v, v ∈ vertex_set g → v ≠ null_vertex;
  wf_edge_not_null : ∀ e, e ∈ m_edges g → se_id e ≠ 0%N
}.

(** The label [l] names the live vertex [v]. *)
Definition names l v t : Prop :=
  _map t !! l = Some v ∧ v ∈ vertices t.

(** What one call of [add_edge] on two live vertices leaves behind. *)
Definition sole_edge (u v : vertex_descriptor) (ed : edge_descriptor) (tf : Transform) g
  : Prop :=
  ∃ e, List.filter (joins u v) (m_edges g) = [e] ∧
       descriptor_of e = ed ∧ se_transform e = tf.

(** The graph after the node of [v] is unlinked, and after the stored
    edges selected by [drop] are unlinked. *)
Definition without_vertex (v : vertex_descriptor) t : LabeledTransformTree Transform :=
  Labeled
    {| m_vertices := List.filter (fun s => negb (bool_decide (sv_desc s = v)))
                                 (m_vertices (_graph t));
       m_edges := m_edges (_graph t);
       m_next_vertex := m_next_vertex (_graph t);
       m_next_edge := m_next_edge (_graph t) |}
    (_map t).

Definition without_edges (drop : stored_edge Transform → bool) t
  : LabeledTransformTree Transform :=
  Labeled
    (boost_with_edges (List.filter (fun e => negb (drop e)) (m_edges (_graph t)))
                      (_graph t))
    (_map t).

(** No edge starts or ends at [v]. *)
Definition isolated (v : vertex_descriptor) t : Prop :=
  incident_count v (_graph t) = 0.

#[global] Instance isolated_dec v t : Decision (isolated v t).
Proof. unfold isolated. apply _. Defined.

(** The outcome the destructive removals are meant to have for one
    endpoint: it goes when it is isolated and stays otherwise. *)
Definition pruned (v : vertex_descriptor) t : LabeledTransformTree Transform :=
  if decide (isolated v t) then without_vertex v t else t.

(** The graph is exactly the path [A → B → C]: three different frames
    and the two edges between them, stored in either order. *)
Definition two_edge_path (A B C : VertexLabel) (va vb vc : vertex_descriptor) t : Prop :=
  _map t !! A = Some va ∧ _map t !! B = Some vb ∧ _map t !! C = Some vc ∧
  va ≠ vb ∧ vb ≠ vc ∧ va ≠ vc ∧
  (∀ v, v ∈ vertices t ↔ v = va ∨ v = vb ∨ v = vc) ∧
  ∃ e1 e2, joins va vb e1 = true ∧ joins vb vc e2 = true ∧
           (m_edges (_graph t) = [e1; e2] ∨ m_edges (_graph t) = [e2; e1]).

(** The graph with no vertex and no edge left; the label index and the
    serial numbers are those of [t]. *)
Definition emptied t : LabeledTransformTree Transform :=
  Labeled
    {| m_vertices := []; m_edges := [];
       m_next_vertex := m_next_vertex (_graph t);
       m_next_edge := m_next_edge (_graph t) |}
    (_map t).

(** ** Construction of a TreeView *)

(** Modelled from the spec: the traversal that fills a [TreeView] is not
    part of the sources at hand, which only declare the type.  Following
    the design document: the root gets no parent and is marked visited;
    vertices are processed in FIFO order; all incident edges of a vertex
    are examined, in both directions and in the order they are stored
    in; an edge to an unvisited neighbour makes the neighbour a child and
    enqueues it; an edge to a visited neighbour is recorded in
    [crossEdges], unless it is the edge by which the current vertex was
    reached from its parent.  An edge is met from both of its ends and
    recorded by its identity: one that [crossEdges] holds already is not
    entered again, which is how the edge closing a cycle appears exactly
    once (section 8 of the design document). *)
Definition incident_edges (u : vertex_descriptor) g : list edge_descriptor :=
  descriptor_of <$> List.filter (touches u) (m_edges g).

(** Modelled from the spec: the end of [e] that is not [u]; an edge is
    followed whatever its stored direction. *)
Definition neighbour (u : vertex_descriptor) (e : edge_descriptor) : vertex_descriptor :=
  if decide (ed_source e = u) then ed_target e else ed_source e.

(** Modelled from the spec: the traversal state is the view under
    construction, the FIFO queue and, for every vertex but the root, the
    edge by which it was reached from its parent. *)
Record traversal : Set := Traversal {
  tr_view : TreeView;
  tr_queue : list vertex_descriptor;
  tr_reached_by : gmap N edge_descriptor
}.

(** Modelled from the spec: [w] is recorded as a child of [u] and gets
    [u] as its parent. *)
Definition add_child (u w : vertex_descriptor) (m : gmap N VertexRelation)
  : gmap N VertexRelation :=
  <[w := mkRelation u ∅]>
    (alter (fun r => mkRelation (parent r) (children r ∪ {[w]})) u m).

(** Modelled from the spec: steps 3 and 4 of the traversal for one
    incident edge [e] of the current vertex [u].  In step 4 the edge to
    the parent is passed over, and an edge [crossEdges] holds already is
    not entered a second time. *)
Definition examine (u : vertex_descriptor) (st : traversal) (e : edge_descriptor)
  : traversal :=
  let w := neighbour u e in
  let tv := tr_view st in
  match tree tv !! w with
  | None =>
      {| tr_view := {| treeUpdated := treeUpdated tv;
                       tree := add_child u w (tree tv);
                       crossEdges := crossEdges tv;
                       publisher := publisher tv |};
         tr_queue := tr_queue st ++ [w];
         tr_reached_by := <[w := e]> (tr_reached_by st) |}
  | Some _ =>
      if decide (tr_reached_by st !! u = Some e) then st
      else if decide (e ∈ crossEdges tv) then st
      else
        {| tr_view := {| treeUpdated := treeUpdated tv;
                         tree := tree tv;
                         crossEdges := crossEdges tv ++ [e];
                         publisher := publisher tv |};
           tr_queue := tr_queue st;
           tr_reached_by := tr_reached_by st |}
  end.

(** Modelled from the spec: step 2, all incident edges of [u] in turn. *)
Definition process g (u : vertex_descriptor) (st : traversal) : traversal :=
  foldl (examine u) st (incident_edges u g).

(** Modelled from the spec: the rounds of the FIFO loop, at most [fuel]
    of them. *)
Fixpoint traverse g (fuel : nat) (st : traversal) : traversal :=
  match fuel with
  | O => st
  | S n =>
      match tr_queue st with
      | [] => st
      | u :: q =>
          traverse g n
            (process g u {| tr_view := tr_view st; tr_queue := q;
                            tr_reached_by := tr_reached_by st |})
      end
  end.

(** Modelled from the spec: step 1, the root has no parent and is
    visited. *)
Definition start (root : vertex_descriptor) : traversal :=
  {| tr_view := {| treeUpdated := []; tree := {[root := mkRelation null_vertex ∅]};
                   crossEdges := []; publisher := None |};
     tr_queue := [root];
     tr_reached_by := ∅ |}.

(** Modelled from the spec: the whole construction; a root that is not in
    the graph fails with [UnknownFrame].  Every vertex enters the queue at
    most once, so as many rounds as there are vertices empty it. *)
Definition build (root : vertex_descriptor) g : outcome traversal :=
  if is_live root g
  then Returns (traverse g (length (m_vertices g)) (start root))
  else Throws UnknownFrame.

(** Modelled from the spec: the view the construction hands out. *)
Definition getTree (root : vertex_descriptor) g : outcome TreeView :=
  st ← build root g; mret (tr_view st).

(** [e] is the edge by which the tree reached some vertex. *)
Definition tree_edge (st : traversal) (e : edge_descriptor) : Prop :=
  ∃ w, tr_reached_by st !! w = Some e.

(** *** Invariants of the traversal *)

(** The tree is made of the edges in [tr_reached_by] and of nothing else:
    the root has no parent and was reached by no edge; every other vertex
    of the tree was reached by an edge, and a vertex is a child of [x]
    exactly when the edge it was reached by leads to [x]. *)
Record tree_shape (root : vertex_descriptor) (st : traversal) : Prop := TreeShape {
  ts_root : ∃ r, tree (tr_view st) !! root = Some r ∧ parent r = null_vertex;
  ts_root_edge : tr_reached_by st !! root = None;
  ts_reached : ∀ w, w ∈ dom (tree (tr_view st)) → w ≠ root →
                 is_Some (tr_reached_by st !! w);
  ts_children : ∀ x r w, tree (tr_view st) !! x = Some r →
                  (w ∈ children r ↔
                   ∃ e, tr_reached_by st !! w = Some e ∧ neighbour w e = x)
}.

(** Between two rounds: [P] lists the vertices processed so far.  The
    visited vertices are those processed or queued, each once; every edge
    at a processed vertex is a tree edge or a recorded cross edge; a
    recorded cross edge is recorded once, is no tree edge and joins
    visited vertices; and the edge by which a vertex was reached links it
    to its parent, which has been processed. *)
Record settled g (root : vertex_descriptor) (P : list vertex_descriptor)
    (st : traversal) : Prop := Settled {
  se_nodup : NoDup (P ++ tr_queue st);
  se_dom : dom (tree (tr_view st)) =@{gset N} list_to_set (P ++ tr_queue st);
  se_live : ∀ v, v ∈ P ++ tr_queue st → v ∈ vertex_set g;
  se_cover : ∀ u e, u ∈ P → e ∈ incident_edges u g →
               tree_edge st e ∨ e ∈ crossEdges (tr_view st);
  se_once : NoDup (crossEdges (tr_view st));
  se_cross : ∀ e, e ∈ crossEdges (tr_view st) →
               ¬ tree_edge st e ∧
               ed_source e ∈ dom (tree (tr_view st)) ∧
               ed_target e ∈ dom (tree (tr_view st));
  se_reached : ∀ x e, tr_reached_by st !! x = Some e →
               e ∈ incident_edges x g ∧
               (∃ r, tree (tr_view st) !! x = Some r ∧ parent r = neighbour x e) ∧
               neighbour x e ∈ P;
  se_shape : tree_shape root st
}.

(** Within the round of [u]: [seen] are the edges of [u] examined so
    far. *)
Record scanning g (root : vertex_descriptor) (P : list vertex_descriptor)
    (u : vertex_descriptor) (seen : list edge_descriptor) (st : traversal)
    : Prop := Scanning {
  sc_nodup : NoDup (P ++ u :: tr_queue st);
  sc_dom : dom (tree (tr_view st)) =@{gset N} list_to_set (P ++ u :: tr_queue st);
  sc_live : ∀ v, v ∈ P ++ u :: tr_queue st → v ∈ vertex_set g;
  sc_cover : ∀ u' e, u' ∈ P → e ∈ incident_edges u' g →
               tree_edge st e ∨ e ∈ crossEdges (tr_view st);
  sc_seen : ∀ e, e ∈ seen → tree_edge st e ∨ e ∈ crossEdges (tr_view st);
  sc_once : NoDup (crossEdges (tr_view st));
  sc_cross : ∀ e, e ∈ crossEdges (tr_view st) →
               ¬ tree_edge st e ∧
               ed_source e ∈ dom (tree (tr_view st)) ∧
               ed_target e ∈ dom (tree (tr_view st));
  sc_reached : ∀ x e, tr_reached_by st !! x = Some e →
               e ∈ incident_edges x g ∧
               (∃ r, tree (tr_view st) !! x = Some r ∧ parent r = neighbour x e) ∧
               (neighbour x e ∈ P ∨ (neighbour x e = u ∧ e ∈ seen));
  sc_shape : tree_shape root st
}.

(** *** Invariants of the label index *)

(** Every vertex of the graph is indexed under the name of its frame. *)
Definition frames_indexed t : Prop :=
  ∀ s, s ∈ m_vertices (_graph t) →
    _map t !! name (sv_frame s) = Some (sv_desc s).

(** The index and the frames agree: no descriptor is indexed under two
    labels, and every vertex of the graph is indexed under the name of its
    frame. *)
Record labels_wf t : Prop := LabelsWf {
  lw_inj : ∀ l l' v, _map t !! l = Some v → _map t !! l' = Some v → l = l';
  lw_indexed : ∀ s, s ∈ m_vertices (_graph t) →
                 _map t !! name (sv_frame s) = Some (sv_desc s)
}.


(** [t'] has no vertex that [t] has not, and the same index. *)
Definition shrinks t t' : Prop :=
  (∀ s, s ∈ m_vertices (_graph t') → s ∈ m_vertices (_graph t)) ∧
  _map t' = _map t.

(** The graphs a client of the class can get to: the empty graph, and what
    a call of a method of the class returns on such a graph. *)
Inductive built : LabeledTransformTree Transform → Prop :=
  | built_empty : built empty_tree
  | built_add_vertex nu n t v t' :
      built t → add_vertex nu n t = Returns (v, t') → built t'
  | built_add_vertex_frame f t v t' :
      built t → add_vertex_frame f t = Returns (v, t') → built t'
  | built_add_edge a b tf t r t' :
      built t → add_edge a b tf t = Returns (r, t') → built t'
  | built_add_edge_vd u v tf t r t' :
      built t → add_edge_vd u v tf t = Returns (r, t') → built t'
  | built_remove_vertex l t t' :
      built t → remove_vertex l t = Returns t' → built t'
  | built_remove_vertex_vd v t t' :
      built t → remove_vertex_vd v t = Returns t' → built t'
  | built_remove_edge_ed ed d t t' :
      built t → remove_edge_ed ed d t = Returns t' → built t'
  | built_remove_edge_vd u v d t t' :
      built t → remove_edge_vd u v d t = Returns t' → built t'
  | built_remove_edge a b d t t' :
      built t → remove_edge a b d t = Returns t' → built t'
  | built_clear t : built t → built (clear t).

End Invariants.

(** ** One allocator and one build *)

(** An allocator that hands out the address after the highest one in use;
    it reuses the address of a removed vertex when that was the highest. *)
Definition first_free_address (n : N) (l : list N) : N :=
  N.succ (foldr N.max 0%N l).

#[global] Instance first_free : Allocator.
Proof.
  refine {| new_address := first_free_address |}.
  - intros n l Hin.
    assert (∀ x, x ∈ l → (x ≤ foldr N.max 0 l)%N) as Habove.
    { clear Hin. induction l as [|a l IH]; simpl; intros x Hx.
      - by apply not_elem_of_nil in Hx.
      - apply elem_of_cons in Hx as [->|Hx]; [lia|]. specialize (IH x Hx). lia. }
    apply Habove in Hin. unfold first_free_address in Hin. lia.
  - intros n l. unfold first_free_address. lia.
Defined.

(** A build with assertions, and one without. *)
#[global] Instance debug_build : Build := {| NDEBUG := false |}.

Definition release_build : Build := {| NDEBUG := true |}.

(** ** Sample graphs *)

Definition no_uuid (_ : string) : N := 0%N.

(** Frames [a] and [b] and no edge. *)
Definition two_frames : LabeledTransformTree N :=
  Labeled
    {| m_vertices := [StoredVertex 1 (Frame_of_name no_uuid "a");
                      StoredVertex 2 (Frame_of_name no_uuid "b")];
       m_edges := [];
       m_next_vertex := 3; m_next_edge := 1 |}
    (<["b" := 2%N]> (<["a" := 1%N]> ∅)).

(** One frame [a] with an edge from [a] to itself. *)
Definition self_loop : LabeledTransformTree N :=
  Labeled
    {| m_vertices := [StoredVertex 1 (Frame_of_name no_uuid "a")];
       m_edges := [StoredEdge 1 1 1 10%N];
       m_next_vertex := 2; m_next_edge := 2 |}
    (<["a" := 1%N]> ∅).

(** The path [a → b → c]. *)
Definition path_abc : LabeledTransformTree N :=
  Labeled
    {| m_vertices := [StoredVertex 1 (Frame_of_name no_uuid "a");
                      StoredVertex 2 (Frame_of_name no_uuid "b");
                      StoredVertex 3 (Frame_of_name no_uuid "c")];
       m_edges := [StoredEdge 1 1 2 10%N; StoredEdge 2 2 3 20%N];
       m_next_vertex := 4; m_next_edge := 3 |}
    (<["c" := 3%N]> (<["b" := 2%N]> (<["a" := 1%N]> ∅))).

(** The cycle [a → b → c → a]. *)
Definition cycle_abc : LabeledTransformTree N :=
  Labeled
    {| m_vertices := [StoredVertex 1 (Frame_of_name no_uuid "a");
                      StoredVertex 2 (Frame_of_name no_uuid "b");
                      StoredVertex 3 (Frame_of_name no_uuid "c")];
       m_edges := [StoredEdge 1 1 2 10%N; StoredEdge 2 2 3 20%N;
                   StoredEdge 3 3 1 30%N];
       m_next_vertex := 4; m_next_edge := 4 |}
    (<["c" := 3%N]> (<["b" := 2%N]> (<["a" := 1%N]> ∅))).

(** Frames [a] and [b] joined in both directions. *)
Definition two_way : LabeledTransformTree N :=
  Labeled
    {| m_vertices := [StoredVertex 1 (Frame_of_name no_uuid "a");
                      StoredVertex 2 (Frame_of_name no_uuid "b")];
       m_edges := [StoredEdge 1 1 2 10%N; StoredEdge 2 2 1 20%N];
       m_next_vertex := 3; m_next_edge := 3 |}
    (<["b" := 2%N]> (<["a" := 1%N]> ∅)).

(** Frame [a] added and removed again: the graph is empty and the label
    is still in the index. *)
Definition stale_a : LabeledTransformTree N :=
  Labeled
    {| m_vertices := []; m_edges := []; m_next_vertex := 2; m_next_edge := 1 |}
    (<["a" := 1%N]> ∅).

(** ** Sample tree views *)

(** The tree [1 → 2] with one cross edge and one slot on the signal. *)
Definition sample_view : TreeView :=
  {| treeUpdated := [7%N];
     tree := <[2%N := mkRelation 1 ∅]> (<[1%N := mkRelation null_vertex {[2%N]}]> ∅);
     crossEdges := [EdgeDesc 2 1 5];
     publisher := None |}.

(** One view at address [10] and one publisher at address [100], not yet
    acquainted. *)
Definition idle_heap : heap :=
  {| views := <[10%N := sample_view]> ∅;
     subscribed := <[100%N := ∅]> ∅;
     calls := [] |}.

(** The same after [subscribeTreeView]. *)
Definition live_heap : heap :=
  {| views := <[10%N := with_publisher (Some 100%N) sample_view]> ∅;
     subscribed := <[100%N := {[10%N]}]> ∅;
     calls := [subscribe_call 100 10] |}.

(** The same with a second publisher at address [200]. *)
Definition rival_heap : heap :=
  {| views := views live_heap;
     subscribed := <[200%N := ∅]> (subscribed live_heap);
     calls := calls live_heap |}.

(** * Properties of the labeled graph *)

Section GraphFacts.
Context {Transform : Type} {allocator : Allocator}.
Implicit Types (g : directed_graph Transform) (t : LabeledTransformTree Transform).
Implicit Types (u v w : N) (e : stored_edge Transform) (ed : edge_descriptor).

Lemma is_live_true v g : is_live v g = true ↔ v ∈ vertex_set g.
Proof. unfold is_live. apply bool_decide_eq_true. Qed.

Lemma is_live_false v g : is_live v g = false ↔ v ∉ vertex_set g.
Proof. unfold is_live. apply bool_decide_eq_false. Qed.

Lemma null_vertex_dead g : graph_wf g → is_live null_vertex g = false.
Proof.
  intros Hwf. apply is_live_false. intros Hin.
  by apply (wf_vertex_not_null _ Hwf) in Hin.
Qed.

Lemma vertex_by_label_names l v t : names l v t → boost_vertex_by_label l t = v.
Proof. intros [Hl _]. unfold boost_vertex_by_label. by rewrite Hl. Qed.

Lemma find_frame_app_new (vs : list stored_vertex) v p :
  v ∉ sv_desc <$> vs →
  List.find (fun s => bool_decide (sv_desc s = v)) (vs ++ [StoredVertex v p])
  = Some (StoredVertex v p).
Proof.
  induction vs as [|s vs IH]; simpl; intros Hn.
  - by rewrite bool_decide_eq_true_2.
  - apply not_elem_of_cons in Hn as [Hne Hn].
    rewrite bool_decide_eq_false_2 by done. by apply IH.
Qed.

(** ** List facts used below *)

Lemma filter_true_id {A} (p : A → bool) (l : list A) :
  (∀ x, x ∈ l → p x = true) → List.filter p l = l.
Proof.
  induction l as [|a l IH]; simpl; intros H; [done|].
  rewrite (H a) by left. f_equal. apply IH. intros x Hx. apply H. by right.
Qed.

Lemma filter_none_length {A} (p : A → bool) (l : list A) :
  length (List.filter p l) = 0 ↔ ∀ x, x ∈ l → p x = false.
Proof.
  induction l as [|a l IH]; simpl.
  - split; [intros _ x Hx; by apply not_elem_of_nil in Hx | done].
  - destruct (p a) eqn:Hp; simpl.
    + split; [lia|]. intros H. specialize (H a (list_elem_of_here _ _)). congruence.
    + rewrite IH. split.
      * intros H x Hx. apply elem_of_cons in Hx as [->|Hx]; auto.
      * intros H x Hx. apply H. by right.
Qed.

Lemma filter_fmap_same {A} (p : A → bool) (f : A → A) (l : list A) :
  (∀ x, p (f x) = p x) → List.filter p (f <$> l) = f <$> List.filter p l.
Proof.
  intros H. induction l as [|a l IH]; simpl; [done|].
  rewrite H. destruct (p a); simpl; [f_equal|]; apply IH.
Qed.

Lemma elem_of_filter_bool {A} (p : A → bool) (l : list A) x :
  x ∈ List.filter p l ↔ x ∈ l ∧ p x = true.
Proof. rewrite !list_elem_of_In. apply filter_In. Qed.

Lemma find_none_bool {A} (p : A → bool) (l : list A) :
  List.find p l = None ↔ ∀ x, x ∈ l → p x = false.
Proof.
  split.
  - intros H x Hx. apply list_elem_of_In in Hx. by apply (find_none p l H).
  - induction l as [|a l IH]; simpl; [done|]. intros H.
    rewrite (H a) by left. apply IH. intros x Hx. apply H. by right.
Qed.

Lemma find_some_bool {A} (p : A → bool) (l : list A) x :
  List.find p l = Some x → x ∈ l ∧ p x = true.
Proof. intros H. apply find_some in H. by rewrite list_elem_of_In. Qed.

Lemma existsb_false_bool {A} (p : A → bool) (l : list A) :
  existsb p l = false ↔ ∀ x, x ∈ l → p x = false.
Proof.
  induction l as [|a l IH]; simpl.
  - split; [intros _ x Hx; by apply not_elem_of_nil in Hx | done].
  - rewrite orb_false_iff, IH. split.
    + intros [Ha H] x Hx. apply elem_of_cons in Hx as [->|Hx]; auto.
    + intros H. split; [apply H; left | intros x Hx; apply H; by right].
Qed.

Lemma existsb_true_bool {A} (p : A → bool) (l : list A) :
  existsb p l = true ↔ ∃ x, x ∈ l ∧ p x = true.
Proof.
  rewrite existsb_exists. split; intros (x & Hx & Hp); exists x;
    by rewrite ?list_elem_of_In in *.
Qed.

Lemma filter_length_le {A} (p : A → bool) (l : list A) :
  length (List.filter p l) ≤ length l.
Proof. induction l as [|a l IH]; simpl; [done|]. destruct (p a); simpl; lia. Qed.

Lemma filter_filter_length_le {A} (p q : A → bool) (l : list A) :
  length (List.filter p (List.filter q l)) ≤ length (List.filter p l).
Proof.
  induction l as [|a l IH]; simpl; [done|].
  destruct (q a), (p a) eqn:Hp; simpl; rewrite ?Hp; simpl; lia.
Qed.

Lemma NoDup_fmap_filter {A B} (f : A → B) (p : A → bool) (l : list A) :
  NoDup (f <$> l) → NoDup (f <$> List.filter p l).
Proof.
  induction l as [|a l IH]; simpl; [done|].
  rewrite NoDup_cons. intros [Hn Hd]. destruct (p a); simpl; [|by apply IH].
  apply NoDup_cons. split; [|by apply IH].
  rewrite list_elem_of_fmap in *. intros (y & Hy & Hin). apply Hn.
  exists y. split; [done|]. by apply elem_of_filter_bool in Hin as [? _].
Qed.

(** ** Outcomes *)

Lemma bind_returns {A B} (m : outcome A) (f : A → outcome B) b :
  m ≫= f = Returns b ↔ ∃ a, m = Returns a ∧ f a = Returns b.
Proof.
  destruct m; simpl; split; try done; try by intros (? & ? & ?).
  - intros H. by exists a.
  - by intros (a' & [= ->] & H).
Qed.

Lemma on_graph_returns (f : directed_graph Transform → outcome (directed_graph Transform))
    t t' :
  boost_on_graph f t = Returns t' ↔
  ∃ g', f (_graph t) = Returns g' ∧ t' = Labeled g' (_map t).
Proof.
  unfold boost_on_graph. rewrite bind_returns. split.
  - intros (g' & Hf & [= <-]). by exists g'.
  - intros (g' & Hf & ->). by exists g'.
Qed.

(** Reduces the record projections and nothing else. *)
Ltac fields :=
  cbn [m_edges m_vertices m_next_vertex m_next_edge _graph _map] in *.

(** ** Adding an edge *)

Lemma find_head_filter {A} (p : A → bool) (l : list A) :
  List.find p l = head (List.filter p l).
Proof. induction l as [|a l IH]; simpl; [done|]. by destruct (p a). Qed.

Lemma joins_descriptor u v e :
  joins u v e = true ↔ ed_source (descriptor_of e) = u ∧ ed_target (descriptor_of e) = v.
Proof.
  unfold joins. rewrite andb_true_iff, !bool_decide_eq_true. done.
Qed.

Lemma descriptor_set_transform ed tf e :
  descriptor_of (boost_set_transform ed tf e) = descriptor_of e.
Proof. unfold boost_set_transform. by destruct (stored_at ed e). Qed.

Lemma joins_set_transform u v ed tf e :
  joins u v (boost_set_transform ed tf e) = joins u v e.
Proof. unfold boost_set_transform. by destruct (stored_at ed e). Qed.

Lemma stored_at_descriptor e : stored_at (descriptor_of e) e = true.
Proof. unfold stored_at. by apply bool_decide_eq_true. Qed.

Lemma is_edge_elem e g : e ∈ m_edges g → is_edge (descriptor_of e) g = true.
Proof.
  intros He. unfold is_edge. apply existsb_true_bool.
  exists e. split; [done|apply stored_at_descriptor].
Qed.

Lemma add_edge_vd_sole t u v tf :
  u ∈ vertices t → v ∈ vertices t → no_parallel_edges (_graph t) →
  ∃ ed t',
    add_edge_vd u v tf t = Returns ((ed, true), t') ∧
    sole_edge u v ed tf (_graph t') ∧
    no_parallel_edges (_graph t') ∧
    m_vertices (_graph t') = m_vertices (_graph t) ∧
    _map t' = _map t ∧
    (∀ e0, List.find (joins u v) (m_edges (_graph t)) = Some e0 → ed = descriptor_of e0).
Proof.
  intros Hu Hv Hpar. destruct t as [g m]. simpl in *.
  apply is_live_true in Hu. apply is_live_true in Hv. simpl in Hu, Hv.
  unfold add_edge_vd, boost_edge. simpl. rewrite Hu.
  destruct (List.find (joins u v) (m_edges g)) as [e0|] eqn:Hfind; simpl.
  - pose proof (find_some_bool _ _ _ Hfind) as [Hin Hj].
    unfold boost_on_graph, boost_put. simpl. rewrite (is_edge_elem _ _ Hin). simpl.
    eexists _, _. split; [reflexivity|]. simpl.
    assert (List.filter (joins u v) (m_edges g) = [e0]) as Hone.
    { specialize (Hpar u v). unfold edge_count in Hpar.
      rewrite find_head_filter in Hfind.
      destruct (List.filter (joins u v) (m_edges g)) as [|x [|y l]]; simpl in *;
        [done| |lia]. by injection Hfind as ->. }
    repeat split; try done.
    + exists (boost_set_transform (descriptor_of e0) tf e0). fields.
      rewrite filter_fmap_same by (intros; apply joins_set_transform).
      rewrite Hone. simpl. split; [done|]. rewrite descriptor_set_transform.
      split; [done|]. unfold boost_set_transform.
      by rewrite stored_at_descriptor.
    + intros u' v'. unfold edge_count. fields.
      rewrite filter_fmap_same by (intros; apply joins_set_transform).
      rewrite length_fmap. apply Hpar.
    + by intros ? [= <-].
  - unfold boost_add_edge. rewrite Hu, Hv. simpl.
    eexists _, _. split; [reflexivity|]. simpl.
    assert (List.filter (joins u v) (m_edges g) = []) as Hnone.
    { apply length_zero_iff_nil, filter_none_length. by apply find_none_bool. }
    assert (∀ i, joins u v (StoredEdge i u v tf) = true) as Hnew.
    { intros i. unfold joins. simpl. by rewrite !bool_decide_eq_true_2. }
    repeat split; try done.
    + eexists. fields. rewrite List.filter_app, Hnone. simpl. rewrite Hnew. done.
    + intros u' v'. unfold edge_count. fields. rewrite List.filter_app, length_app.
      simpl. destruct (joins u' v' _) eqn:Hj; simpl.
      * apply joins_descriptor in Hj as [<- <-]. simpl. rewrite Hnone. simpl. lia.
      * specialize (Hpar u' v'). unfold edge_count in Hpar. lia.
Qed.

Lemma add_edge_as_vd a b tf t :
  add_edge a b tf t
  = add_edge_vd (boost_vertex_by_label a t) (boost_vertex_by_label b t) tf t.
Proof. reflexivity. Qed.

Lemma sole_edge_find u v ed tf g :
  sole_edge u v ed tf g →
  ∃ e, List.find (joins u v) (m_edges g) = Some e ∧ descriptor_of e = ed.
Proof.
  intros (e & Hf & Hd & _). exists e. rewrite find_head_filter, Hf. done.
Qed.

Lemma sole_edge_get u v ed tf t :
  sole_edge u v ed tf (_graph t) → getTransform ed t = Returns tf.
Proof.
  intros (e & Hf & Hd & Htf). unfold getTransform, boost_get_transform.
  assert (e ∈ List.filter (joins u v) (m_edges (_graph t))) as He
    by (rewrite Hf; left).
  apply elem_of_filter_bool in He as [Hin Hj].
  destruct (List.find (stored_at ed) (m_edges (_graph t))) as [e'|] eqn:Hfind.
  - apply find_some_bool in Hfind as [Hin' Hst].
    unfold stored_at in Hst. apply bool_decide_eq_true in Hst.
    assert (e' ∈ List.filter (joins u v) (m_edges (_graph t))) as He'.
    { apply elem_of_filter_bool. split; [done|].
      apply joins_descriptor. rewrite Hst, <- Hd. by apply joins_descriptor. }
    rewrite Hf in He'. apply list_elem_of_singleton in He' as ->. by rewrite Htf.
  - exfalso. rewrite find_none_bool in Hfind. specialize (Hfind e Hin).
    unfold stored_at in Hfind. apply bool_decide_eq_false in Hfind. done.
Qed.

(** C1: with frames [a] and [b] in the graph and no ordered pair joined
    twice, [add_edge(a,b,t1)] followed by [add_edge(a,b,t2)] both succeed on
    the same edge, leave exactly one edge from [a] to [b], and
    [getTransform] of that edge returns [t2]; vertices and label index are
    untouched. *)
Theorem add_edge_twice_replaces t a b va vb tf1 tf2 :
  names a va t → names b vb t → no_parallel_edges (_graph t) →
  ∃ ed t1 t2,
    add_edge a b tf1 t = Returns ((ed, true), t1) ∧
    add_edge a b tf2 t1 = Returns ((ed, true), t2) ∧
    source ed = va ∧ target ed = vb ∧
    edge_count va vb (_graph t2) = 1 ∧
    getTransform ed t2 = Returns tf2 ∧
    (∀ e, e ∈ m_edges (_graph t2) → joins va vb e = true → se_transform e = tf2) ∧
    vertices t2 = vertices t ∧ _map t2 = _map t.
Proof.
  intros Ha Hb Hpar.
  destruct (add_edge_vd_sole t va vb tf1 (proj2 Ha) (proj2 Hb) Hpar)
    as (ed & t1 & Hadd1 & Hsole1 & Hpar1 & Hv1 & Hm1 & _).
  assert (va ∈ vertices t1 ∧ vb ∈ vertices t1) as [Ha1 Hb1].
  { unfold vertices, vertex_set. rewrite Hv1. split; [apply Ha|apply Hb]. }
  destruct (add_edge_vd_sole t1 va vb tf2 Ha1 Hb1 Hpar1)
    as (ed2 & t2 & Hadd2 & Hsole2 & Hpar2 & Hv2 & Hm2 & Hsame).
  destruct (sole_edge_find _ _ _ _ _ Hsole1) as (e1 & Hfind1 & Hd1).
  rewrite (Hsame e1 Hfind1), Hd1 in *. clear Hsame.
  exists ed, t1, t2.
  rewrite !add_edge_as_vd.
  rewrite (vertex_by_label_names a va t Ha), (vertex_by_label_names b vb t Hb).
  unfold boost_vertex_by_label. rewrite Hm1.
  destruct Ha as [-> _], Hb as [-> _]. simpl.
  split; [done|]. split; [done|].
  destruct Hsole2 as (e2 & Hf2 & Hd2 & Htf2).
  assert (joins va vb e2 = true) as Hj2.
  { assert (e2 ∈ List.filter (joins va vb) (m_edges (_graph t2))) as He
      by (rewrite Hf2; left). by apply elem_of_filter_bool in He as [_ ?]. }
  apply joins_descriptor in Hj2 as [Hs Ht]. rewrite Hd2 in Hs, Ht.
  split; [done|]. split; [done|].
  split; [unfold edge_count; by rewrite Hf2|].
  split; [apply (sole_edge_get va vb); by exists e2|].
  split.
  - intros e He Hj.
    assert (e ∈ List.filter (joins va vb) (m_edges (_graph t2))) as He'
      by by apply elem_of_filter_bool.
    rewrite Hf2 in He'. by apply list_elem_of_singleton in He' as ->.
  - unfold vertices, vertex_set. by rewrite Hv2, Hv1, Hm2, Hm1.
Qed.

(** ** Removing vertices and edges *)

Lemma touches_iff v e : touches v e = true ↔ se_source e = v ∨ se_target e = v.
Proof. unfold touches. by rewrite orb_true_iff, !bool_decide_eq_true. Qed.

Lemma touches_false_iff v e : touches v e = false ↔ se_source e ≠ v ∧ se_target e ≠ v.
Proof. unfold touches. by rewrite orb_false_iff, !bool_decide_eq_false. Qed.

Lemma isolated_iff v t :
  isolated v t ↔ ∀ e, e ∈ m_edges (_graph t) → touches v e = false.
Proof. unfold isolated, incident_count. apply filter_none_length. Qed.

Lemma isolated_existsb v t :
  isolated v t ↔ existsb (touches v) (m_edges (_graph t)) = false.
Proof. by rewrite isolated_iff, existsb_false_bool. Qed.

Lemma degrees_zero v t :
  (length (List.filter (fun e => bool_decide (se_target e = v)) (m_edges (_graph t)))
   + length (List.filter (fun e => bool_decide (se_source e = v)) (m_edges (_graph t)))
   =? 0)%nat = true ↔ isolated v t.
Proof.
  rewrite Nat.eqb_eq, Nat.eq_add_0, !filter_none_length, isolated_iff.
  split.
  - intros [Hi Ho] e He. apply touches_false_iff.
    specialize (Hi e He). specialize (Ho e He).
    by rewrite bool_decide_eq_false in Hi, Ho.
  - intros H. split; intros e He; apply bool_decide_eq_false;
      specialize (H e He); by apply touches_false_iff in H as [? ?].
Qed.

Lemma on_graph_remove_edge u v t :
  u ∈ vertices t →
  boost_on_graph (boost_remove_edge u v) t = Returns (without_edges (joins u v) t).
Proof.
  intros Hu. unfold boost_on_graph, boost_remove_edge.
  by rewrite (proj2 (is_live_true u _) Hu).
Qed.

Lemma on_graph_clear_vertex v t :
  v ∈ vertices t →
  boost_on_graph (boost_clear_vertex v) t = Returns (without_edges (touches v) t).
Proof.
  intros Hv. unfold boost_on_graph, boost_clear_vertex.
  by rewrite (proj2 (is_live_true v _) Hv).
Qed.

Lemma on_graph_remove_vertex v t :
  v ∈ vertices t → isolated v t →
  boost_on_graph (boost_remove_vertex v) t = Returns (without_vertex v t).
Proof.
  intros Hv Hiso. unfold boost_on_graph, boost_remove_vertex.
  rewrite (proj2 (is_live_true v _) Hv).
  by rewrite (proj1 (isolated_existsb v t) Hiso).
Qed.

Lemma remove_if_isolated_live v t :
  v ∈ vertices t → remove_if_isolated v t = Returns (pruned v t).
Proof.
  intros Hv. apply is_live_true in Hv.
  unfold remove_if_isolated, boost_in_degree, boost_out_degree, pruned.
  rewrite Hv. simpl.
  destruct (decide (isolated v t)) as [Hiso|Hiso].
  - rewrite (proj2 (degrees_zero v t) Hiso).
    apply on_graph_remove_vertex; [by apply is_live_true|done].
  - destruct (_ =? 0)%nat eqn:Hz; [|done].
    by apply degrees_zero in Hz.
Qed.

Lemma remove_if_isolated_dead v t :
  v ∉ vertices t → remove_if_isolated v t = Undefined.
Proof.
  intros Hv. apply is_live_false in Hv.
  unfold remove_if_isolated, boost_in_degree. by rewrite Hv.
Qed.

Lemma vertices_without_vertex v w t :
  w ∈ vertices (without_vertex v t) ↔ w ∈ vertices t ∧ w ≠ v.
Proof.
  unfold vertices, vertex_set, without_vertex. fields.
  rewrite !list_elem_of_fmap. split.
  - intros (s & -> & Hs). apply elem_of_filter_bool in Hs as [Hs Hne].
    apply negb_true_iff, bool_decide_eq_false in Hne. split; [by exists s|done].
  - intros [(s & -> & Hs) Hne]. exists s. split; [done|].
    apply elem_of_filter_bool. split; [done|].
    by apply negb_true_iff, bool_decide_eq_false.
Qed.

Lemma vertices_pruned v w t :
  w ∈ vertices (pruned v t) ↔ w ∈ vertices t ∧ (w = v → ¬ isolated v t).
Proof.
  unfold pruned. destruct (decide (isolated v t)) as [Hiso|Hiso].
  - rewrite vertices_without_vertex. naive_solver.
  - naive_solver.
Qed.

Lemma edges_pruned v t : m_edges (_graph (pruned v t)) = m_edges (_graph t).
Proof. unfold pruned. by destruct (decide _). Qed.

Lemma isolated_pruned v w t : isolated w (pruned v t) ↔ isolated w t.
Proof. unfold isolated, incident_count. by rewrite edges_pruned. Qed.

Lemma vertices_without_edges drop t : vertices (without_edges drop t) = vertices t.
Proof. done. Qed.

Lemma edges_without_edges drop t e :
  e ∈ m_edges (_graph (without_edges drop t)) ↔ e ∈ m_edges (_graph t) ∧ drop e = false.
Proof.
  unfold without_edges, boost_with_edges. fields.
  by rewrite elem_of_filter_bool, negb_true_iff.
Qed.

Lemma elem_of_edges ed t :
  ed ∈ edges t ↔ ∃ e, e ∈ m_edges (_graph t) ∧ descriptor_of e = ed.
Proof. unfold edges. rewrite list_elem_of_fmap. naive_solver. Qed.

Lemma is_edge_true ed t : is_edge ed (_graph t) = true ↔ ed ∈ edges t.
Proof.
  unfold is_edge. rewrite existsb_true_bool, elem_of_edges.
  unfold stored_at. by setoid_rewrite bool_decide_eq_true.
Qed.

Lemma on_graph_remove_edge_desc ed t :
  ed ∈ edges t →
  boost_on_graph (boost_remove_edge_desc ed) t = Returns (without_edges (stored_at ed) t).
Proof.
  intros Hed. unfold boost_on_graph, boost_remove_edge_desc.
  by rewrite (proj2 (is_edge_true ed t) Hed).
Qed.

(** Both destructive removals, on an edge between two different vertices:
    the edge goes, then the source is pruned, then the target. *)
Lemma remove_edge_ed_distinct t ed :
  ed ∈ edges t → no_dangling_edges (_graph t) → source ed ≠ target ed →
  remove_edge_ed ed true t
  = Returns (pruned (target ed) (pruned (source ed) (without_edges (stored_at ed) t))).
Proof.
  intros Hed Hdang Hne.
  pose proof Hed as (e & He & Hd)%elem_of_edges.
  destruct (Hdang e He) as [Hs Ht].
  unfold remove_edge_ed. rewrite on_graph_remove_edge_desc by done. simpl.
  rewrite remove_if_isolated_live; simpl.
  - apply remove_if_isolated_live, vertices_pruned.
    rewrite vertices_without_edges. split; [|done].
    unfold vertices. by rewrite <- Hd.
  - rewrite vertices_without_edges. unfold vertices. by rewrite <- Hd.
Qed.

Lemma remove_edge_vd_distinct t u v :
  u ∈ vertices t → v ∈ vertices t → u ≠ v →
  remove_edge_vd u v true t
  = Returns (pruned v (pruned u (without_edges (joins u v) t))).
Proof.
  intros Hu Hv Hne.
  unfold remove_edge_vd. rewrite on_graph_remove_edge by done. simpl.
  rewrite remove_if_isolated_live; simpl.
  - apply remove_if_isolated_live, vertices_pruned.
    by rewrite vertices_without_edges.
  - by rewrite vertices_without_edges.
Qed.

(** A self-loop that is the only edge at its vertex: the source check
    frees the vertex and the target check then reads the freed node. *)
Lemma remove_edge_vd_self_loop t v :
  v ∈ vertices t → isolated v (without_edges (joins v v) t) →
  remove_edge_vd v v true t = Undefined.
Proof.
  intros Hv Hiso.
  unfold remove_edge_vd. rewrite on_graph_remove_edge by done. simpl.
  rewrite remove_if_isolated_live by by rewrite vertices_without_edges. simpl.
  apply remove_if_isolated_dead. rewrite vertices_pruned. naive_solver.
Qed.

Lemma remove_edge_ed_self_loop t ed :
  ed ∈ edges t → no_dangling_edges (_graph t) → source ed = target ed →
  isolated (source ed) (without_edges (stored_at ed) t) →
  remove_edge_ed ed true t = Undefined.
Proof.
  intros Hed Hdang Heq Hiso.
  pose proof Hed as (e & He & Hd)%elem_of_edges.
  destruct (Hdang e He) as [Hs Ht].
  unfold remove_edge_ed. rewrite on_graph_remove_edge_desc by done. simpl.
  rewrite remove_if_isolated_live; simpl.
  - apply remove_if_isolated_dead. rewrite vertices_pruned.
    unfold source, target in *. rewrite <- Heq. naive_solver.
  - rewrite vertices_without_edges. unfold vertices. by rewrite <- Hd.
Qed.

Lemma remove_vertex_vd_live t v :
  v ∈ vertices t →
  remove_vertex_vd v t = Returns (without_vertex v (without_edges (touches v) t)).
Proof.
  intros Hv. unfold remove_vertex_vd.
  rewrite on_graph_clear_vertex by done. simpl.
  apply on_graph_remove_vertex; [done|].
  apply isolated_iff. intros e He. by apply edges_without_edges in He as [_ ?].
Qed.

Lemma remove_vertex_as_vd t l :
  remove_vertex l t = remove_vertex_vd (vertex l t) t.
Proof.
  unfold remove_vertex, remove_vertex_vd, boost_clear_vertex_by_label,
    boost_labeled_remove_vertex, vertex.
  destruct (boost_on_graph _ t) as [t1| | |] eqn:H1; simpl; try done.
  apply on_graph_returns in H1 as (g1 & _ & ->). done.
Qed.

(** C7: removing a vertex of the graph, by label or by descriptor, removes
    the vertex together with every edge that starts or ends at it and no
    other edge; when no edge had a missing endpoint before, none has one
    afterwards. *)
Theorem remove_vertex_no_dangling t l v :
  names l v t → no_dangling_edges (_graph t) →
  ∃ t',
    remove_vertex l t = Returns t' ∧
    remove_vertex_vd v t = Returns t' ∧
    (∀ w, w ∈ vertices t' ↔ w ∈ vertices t ∧ w ≠ v) ∧
    (∀ e, e ∈ m_edges (_graph t') ↔ e ∈ m_edges (_graph t) ∧ touches v e = false) ∧
    no_dangling_edges (_graph t').
Proof.
  intros Hn Hdang. pose proof Hn as [_ Hv].
  exists (without_vertex v (without_edges (touches v) t)).
  assert (∀ e, e ∈ m_edges (_graph (without_vertex v (without_edges (touches v) t)))
               ↔ e ∈ m_edges (_graph t) ∧ touches v e = false) as Hedges.
  { intros e. apply (edges_without_edges (touches v) t e). }
  split; [|split; [|split; [|split]]].
  - rewrite remove_vertex_as_vd. unfold vertex.
    rewrite (vertex_by_label_names l v t Hn). by apply remove_vertex_vd_live.
  - by apply remove_vertex_vd_live.
  - intros w. by rewrite vertices_without_vertex, vertices_without_edges.
  - done.
  - intros e He. apply Hedges in He as [He Ht].
    apply touches_false_iff in Ht as [Hs Ht].
    destruct (Hdang e He) as [Hs' Ht'].
    change (vertex_set (_graph ?x)) with (vertices x).
    rewrite !vertices_without_vertex, !vertices_without_edges. done.
Qed.

Lemma remove_if_isolated_no_throw v t x : remove_if_isolated v t ≠ Throws x.
Proof.
  destruct (decide (v ∈ vertices t)) as [Hv|Hv].
  - by rewrite remove_if_isolated_live.
  - by rewrite remove_if_isolated_dead.
Qed.

Lemma remove_edge_vd_no_throw u v d t x : remove_edge_vd u v d t ≠ Throws x.
Proof.
  unfold remove_edge_vd, boost_on_graph, boost_remove_edge.
  destruct (is_live u (_graph t)); simpl; [|done].
  destruct d; [|done].
  destruct (remove_if_isolated u _) as [t2| | |] eqn:H2; simpl; try done.
  - apply remove_if_isolated_no_throw.
  - by apply remove_if_isolated_no_throw in H2.
Qed.

Lemma tree_ext t1 t2 :
  m_vertices (_graph t1) = m_vertices (_graph t2) →
  m_edges (_graph t1) = m_edges (_graph t2) →
  m_next_vertex (_graph t1) = m_next_vertex (_graph t2) →
  m_next_edge (_graph t1) = m_next_edge (_graph t2) →
  _map t1 = _map t2 → t1 = t2.
Proof.
  destruct t1 as [[] ?], t2 as [[] ?]. simpl. by intros -> -> -> -> ->.
Qed.

Lemma without_edges_none drop t :
  (∀ e, e ∈ m_edges (_graph t) → drop e = false) → without_edges drop t = t.
Proof.
  intros H. apply tree_ext; try done.
  unfold without_edges, boost_with_edges. fields.
  apply filter_true_id. intros e He. by rewrite (H e He).
Qed.

Lemma pruned_isolated v t : isolated v t → pruned v t = without_vertex v t.
Proof. intros H. unfold pruned. by rewrite decide_True. Qed.

Lemma pruned_connected v t : ¬ isolated v t → pruned v t = t.
Proof. intros H. unfold pruned. by rewrite decide_False. Qed.

(** C4, as the code has it: [remove_edge] by labels raises no exception on
    any input.  Between two frames of the graph that no edge joins it
    returns normally, unless both names denote one frame that has no edge
    at all.  With [destructive] off the graph is left exactly as it was.
    With [destructive] on, and the two frames different or not isolated,
    each of the two is removed when no edge is incident to it and stays
    otherwise; so the graph is left as it was when neither frame is
    isolated. *)
Theorem remove_edge_without_edge t a b va vb :
  (∀ d x, remove_edge a b d t ≠ Throws x) ∧
  (names a va t → names b vb t → edge_count va vb (_graph t) = 0 →
   remove_edge a b false t = Returns t ∧
   (va ≠ vb ∨ ¬ isolated va t →
    remove_edge a b true t = Returns (pruned vb (pruned va t))) ∧
   (¬ isolated va t → ¬ isolated vb t → remove_edge a b true t = Returns t)).
Proof.
  split; [intros d x; apply remove_edge_vd_no_throw|].
  intros Ha Hb Hcount. unfold remove_edge.
  rewrite (vertex_by_label_names a va t Ha), (vertex_by_label_names b vb t Hb).
  destruct Ha as [_ Ha], Hb as [_ Hb].
  assert (without_edges (joins va vb) t = t) as Hsame.
  { apply without_edges_none. by apply filter_none_length. }
  assert (boost_on_graph (boost_remove_edge va vb) t = Returns t) as Hrm.
  { by rewrite on_graph_remove_edge, Hsame. }
  split; [|split].
  - unfold remove_edge_vd. by rewrite Hrm.
  - intros [Hne|Hna].
    + rewrite remove_edge_vd_distinct by done. by rewrite Hsame.
    + unfold remove_edge_vd. rewrite Hrm. simpl.
      rewrite remove_if_isolated_live by done. simpl.
      apply remove_if_isolated_live. by rewrite (pruned_connected va t Hna).
  - intros Hna Hnb. unfold remove_edge_vd. rewrite Hrm. simpl.
    rewrite remove_if_isolated_live, pruned_connected by done. simpl.
    by rewrite remove_if_isolated_live, pruned_connected.
Qed.

(** ** Destructive removal along a path *)

Lemma nil_of_no_elem {A} (l : list A) : (∀ x, x ∉ l) → l = [].
Proof. destruct l as [|a l]; [done|]. intros H. destruct (H a). left. Qed.

Lemma emptied_intro t t' :
  (∀ v, v ∉ vertices t') →
  (∀ e, e ∉ m_edges (_graph t')) →
  m_next_vertex (_graph t') = m_next_vertex (_graph t) →
  m_next_edge (_graph t') = m_next_edge (_graph t) →
  _map t' = _map t →
  t' = emptied t.
Proof.
  intros Hv He Hnv Hne Hm. apply tree_ext; try done.
  - unfold emptied. fields. apply (fmap_nil_inv sv_desc).
    by apply nil_of_no_elem.
  - by apply nil_of_no_elem.
Qed.

Lemma marks_pruned v t :
  m_next_vertex (_graph (pruned v t)) = m_next_vertex (_graph t) ∧
  m_next_edge (_graph (pruned v t)) = m_next_edge (_graph t) ∧
  _map (pruned v t) = _map t.
Proof. unfold pruned. by destruct (decide _). Qed.

Lemma names_in_pruned l v w t :
  names l v t → (v = w → ¬ isolated w t) → names l v (pruned w t).
Proof.
  intros [Hl Hv] Hw. split.
  - by rewrite (proj2 (proj2 (marks_pruned w t))).
  - apply vertices_pruned. done.
Qed.

(** Two destructive removals of edges [u → v] and [v' → w'] in a row, when
    all four lookups succeed on live, pairwise different endpoints. *)
Lemma remove_edge_label_distinct t a b va vb :
  names a va t → names b vb t → va ≠ vb →
  remove_edge a b true t
  = Returns (pruned vb (pruned va (without_edges (joins va vb) t))).
Proof.
  intros Ha Hb Hne. unfold remove_edge.
  rewrite (vertex_by_label_names a va t Ha), (vertex_by_label_names b vb t Hb).
  apply remove_edge_vd_distinct; [apply Ha|apply Hb|done].
Qed.

(** C8: on the path [A → B → C], destructively removing the edge [A → B]
    and then [B → C] returns a graph with no vertex and no edge, and so
    does removing them in the opposite order; the two final graphs are the
    same. *)
Theorem destructive_removal_of_path t A B C va vb vc :
  two_edge_path A B C va vb vc t →
  (remove_edge A B true t ≫= remove_edge B C true) = Returns (emptied t) ∧
  (remove_edge B C true t ≫= remove_edge A B true) = Returns (emptied t) ∧
  num_vertices (emptied t) = 0 ∧ num_edges (emptied t) = 0.
Proof.
  intros (HA & HB & HC & Hab & Hbc & Hac & Hvs & e1 & e2 & Hj1 & Hj2 & Hes).
  assert (names A va t ∧ names B vb t ∧ names C vc t) as (Hna & Hnb & Hnc).
  { unfold names. rewrite !Hvs. naive_solver. }
  apply joins_descriptor in Hj1 as [Hs1 Ht1].
  apply joins_descriptor in Hj2 as [Hs2 Ht2].
  destruct e1 as [i1 s1 t1 p1], e2 as [i2 s2 t2 p2]. simpl in *. subst.
  assert (∀ u s x i p,
    touches u (StoredEdge i s x p : stored_edge Transform)
    = bool_decide (s = u) || bool_decide (x = u)) as Htouch by done.
  assert (∀ u v s x i p,
    joins u v (StoredEdge i s x p : stored_edge Transform)
    = bool_decide (s = u) && bool_decide (x = v)) as Hjoin by done.
  split; [|split; [|done]].
  - rewrite (remove_edge_label_distinct t A B va vb) by done. simpl.
    set (t1 := without_edges (joins va vb) t).
    assert (m_edges (_graph t1) = [StoredEdge i2 vb vc p2]) as He1.
    { unfold t1, without_edges, boost_with_edges. fields.
      destruct Hes as [-> | ->]; simpl; rewrite !Hjoin;
        repeat case_bool_decide; simplify_eq; done. }
    assert (isolated va t1) as Hia.
    { apply isolated_iff. rewrite He1. intros e ->%list_elem_of_singleton.
      rewrite Htouch. repeat case_bool_decide; simplify_eq; done. }
    assert (¬ isolated vb t1) as Hib.
    { rewrite isolated_iff, He1. intros H.
      specialize (H _ (list_elem_of_here _ _)). rewrite Htouch in H.
      repeat case_bool_decide; simplify_eq; done. }
    rewrite (pruned_isolated va t1 Hia).
    rewrite pruned_connected by done.
    set (t2 := without_vertex va t1).
    assert (names B vb t2 ∧ names C vc t2) as [Hnb2 Hnc2].
    { unfold names, t2. rewrite !vertices_without_vertex. unfold t1.
      rewrite vertices_without_edges. unfold names in *. naive_solver. }
    rewrite (remove_edge_label_distinct t2 B C vb vc) by done.
    f_equal. apply emptied_intro; rewrite ?(proj1 (marks_pruned _ _)),
      ?(proj1 (proj2 (marks_pruned _ _))), ?(proj2 (proj2 (marks_pruned _ _)));
      try done.
    + intros v. rewrite !vertices_pruned, vertices_without_edges.
      unfold t2. rewrite vertices_without_vertex. unfold t1.
      rewrite vertices_without_edges, Hvs.
      intros ([[Hv Hnva] H1] & H2).
      assert (∀ x, isolated x (without_edges (joins vb vc) (without_vertex va
                (without_edges (joins va vb) t)))) as Hall.
      { intros x. apply isolated_iff. intros e He.
        apply edges_without_edges in He as [He Hd].
        change (e ∈ m_edges (_graph t1)) in He. rewrite He1 in He.
        apply list_elem_of_singleton in He as ->. rewrite Hjoin in Hd.
        repeat case_bool_decide; simplify_eq; done. }
      destruct Hv as [-> | [-> | ->]]; [done| |].
      * by apply H1.
      * apply H2; [done|]. apply isolated_pruned, Hall.
    + intros e. rewrite !edges_pruned. intros He.
      apply edges_without_edges in He as [He Hd].
      change (e ∈ m_edges (_graph t1)) in He. rewrite He1 in He.
      apply list_elem_of_singleton in He as ->. rewrite Hjoin in Hd.
      repeat case_bool_decide; simplify_eq; done.
  - rewrite (remove_edge_label_distinct t B C vb vc) by done. simpl.
    set (t1 := without_edges (joins vb vc) t).
    assert (m_edges (_graph t1) = [StoredEdge i1 va vb p1]) as He1.
    { unfold t1, without_edges, boost_with_edges. fields.
      destruct Hes as [-> | ->]; simpl; rewrite !Hjoin;
        repeat case_bool_decide; simplify_eq; done. }
    assert (¬ isolated vb t1) as Hib.
    { rewrite isolated_iff, He1. intros H.
      specialize (H _ (list_elem_of_here _ _)). rewrite Htouch in H.
      repeat case_bool_decide; simplify_eq; done. }
    assert (isolated vc t1) as Hic.
    { apply isolated_iff. rewrite He1. intros e ->%list_elem_of_singleton.
      rewrite Htouch. repeat case_bool_decide; simplify_eq; done. }
    rewrite (pruned_connected vb t1 Hib).
    rewrite pruned_isolated by done.
    set (t2 := without_vertex vc t1).
    assert (names A va t2 ∧ names B vb t2) as [Hna2 Hnb2].
    { unfold names, t2. rewrite !vertices_without_vertex. unfold t1.
      rewrite vertices_without_edges. unfold names in *. naive_solver. }
    rewrite (remove_edge_label_distinct t2 A B va vb) by done.
    f_equal. apply emptied_intro; rewrite ?(proj1 (marks_pruned _ _)),
      ?(proj1 (proj2 (marks_pruned _ _))), ?(proj2 (proj2 (marks_pruned _ _)));
      try done.
    + intros v. rewrite !vertices_pruned, vertices_without_edges.
      unfold t2. rewrite vertices_without_vertex. unfold t1.
      rewrite vertices_without_edges, Hvs.
      intros ([[Hv Hnvc] H1] & H2).
      assert (∀ x, isolated x (without_edges (joins va vb) (without_vertex vc
                (without_edges (joins vb vc) t)))) as Hall.
      { intros x. apply isolated_iff. intros e He.
        apply edges_without_edges in He as [He Hd].
        change (e ∈ m_edges (_graph t1)) in He. rewrite He1 in He.
        apply list_elem_of_singleton in He as ->. rewrite Hjoin in Hd.
        repeat case_bool_decide; simplify_eq; done. }
      destruct Hv as [-> | [-> | ->]]; [|  |done].
      * by apply H1.
      * apply H2; [done|]. apply isolated_pruned, Hall.
    + intros e. rewrite !edges_pruned. intros He.
      apply edges_without_edges in He as [He Hd].
      change (e ∈ m_edges (_graph t1)) in He. rewrite He1 in He.
      apply list_elem_of_singleton in He as ->. rewrite Hjoin in Hd.
      repeat case_bool_decide; simplify_eq; done.
Qed.

(** ** The invariant is kept by every operation of the class *)

Lemma graph_wf_empty : graph_wf (_graph (@empty_tree Transform)).
Proof.
  split; unfold vertex_set, no_dangling_edges, no_parallel_edges, edge_count; simpl.
  - constructor.
  - constructor.
  - intros e Hin. by apply not_elem_of_nil in Hin.
  - intros _ _. lia.
  - intros v Hin. by apply not_elem_of_nil in Hin.
  - intros e Hin. by apply not_elem_of_nil in Hin.
Qed.

Lemma graph_wf_without_edges drop t :
  graph_wf (_graph t) → graph_wf (_graph (without_edges drop t)).
Proof.
  intros [Hv Hid Hend Hpar Hvm Hem]. split.
  - done.
  - unfold without_edges, boost_with_edges. fields. by apply NoDup_fmap_filter.
  - intros e He. apply edges_without_edges in He as [He _]. by apply Hend.
  - intros u v. specialize (Hpar u v). unfold edge_count in *.
    unfold without_edges, boost_with_edges. fields.
    etrans; [apply filter_filter_length_le|done].
  - done.
  - intros e He. apply edges_without_edges in He as [He _]. by apply Hem.
Qed.

Lemma graph_wf_without_vertex v t :
  graph_wf (_graph t) → isolated v t → graph_wf (_graph (without_vertex v t)).
Proof.
  intros [Hv Hid Hend Hpar Hvm Hem] Hiso. split; try done.
  - unfold without_vertex, vertex_set. fields. by apply NoDup_fmap_filter.
  - intros e He. change (vertex_set (_graph ?x)) with (vertices x).
    rewrite !vertices_without_vertex.
    destruct (Hend e He) as [Hs Ht].
    rewrite isolated_iff in Hiso. specialize (Hiso e He).
    apply touches_false_iff in Hiso as [? ?]. done.
  - intros w Hw. change (w ∈ vertices (without_vertex v t)) in Hw.
    apply vertices_without_vertex in Hw as [Hw _]. by apply Hvm.
Qed.

Lemma graph_wf_pruned v t : graph_wf (_graph t) → graph_wf (_graph (pruned v t)).
Proof.
  intros Hwf. unfold pruned. destruct (decide _); [|done].
  by apply graph_wf_without_vertex.
Qed.

Lemma remove_if_isolated_returns v t t' :
  remove_if_isolated v t = Returns t' → t' = pruned v t.
Proof.
  destruct (decide (v ∈ vertices t)) as [Hv|Hv].
  - rewrite remove_if_isolated_live by done. by intros [= <-].
  - by rewrite remove_if_isolated_dead.
Qed.

Lemma graph_wf_remove_edge_vd u v d t t' :
  graph_wf (_graph t) → remove_edge_vd u v d t = Returns t' → graph_wf (_graph t').
Proof.
  intros Hwf. unfold remove_edge_vd.
  destruct (decide (u ∈ vertices t)) as [Hu|Hu].
  - rewrite on_graph_remove_edge by done. simpl.
    pose proof (graph_wf_without_edges (joins u v) t Hwf) as Hwf1.
    destruct d; [|by intros [= <-]].
    intros (t2 & H2 & H3)%bind_returns.
    apply remove_if_isolated_returns in H2 as ->.
    apply remove_if_isolated_returns in H3 as ->.
    by do 2 apply graph_wf_pruned.
  - unfold boost_on_graph, boost_remove_edge.
    by rewrite (proj2 (is_live_false u _) Hu).
Qed.

Lemma graph_wf_remove_edge a b d t t' :
  graph_wf (_graph t) → remove_edge a b d t = Returns t' → graph_wf (_graph t').
Proof. apply graph_wf_remove_edge_vd. Qed.

Lemma graph_wf_remove_edge_ed ed d t t' :
  graph_wf (_graph t) → remove_edge_ed ed d t = Returns t' → graph_wf (_graph t').
Proof.
  intros Hwf. unfold remove_edge_ed.
  destruct (decide (ed ∈ edges t)) as [Hed|Hed].
  - rewrite on_graph_remove_edge_desc by done. simpl.
    pose proof (graph_wf_without_edges (stored_at ed) t Hwf) as Hwf1.
    destruct d; [|by intros [= <-]].
    intros (t2 & H2 & H3)%bind_returns.
    apply remove_if_isolated_returns in H2 as ->.
    apply remove_if_isolated_returns in H3 as ->.
    by do 2 apply graph_wf_pruned.
  - unfold boost_on_graph, boost_remove_edge_desc.
    destruct (is_edge ed (_graph t)) eqn:HE; [|done].
    by apply is_edge_true in HE.
Qed.

Lemma graph_wf_remove_vertex_vd v t t' :
  graph_wf (_graph t) → remove_vertex_vd v t = Returns t' → graph_wf (_graph t').
Proof.
  intros Hwf. destruct (decide (v ∈ vertices t)) as [Hv|Hv].
  - rewrite remove_vertex_vd_live by done. intros [= <-].
    apply graph_wf_without_vertex; [by apply graph_wf_without_edges|].
    apply isolated_iff. intros e He. by apply edges_without_edges in He as [_ ?].
  - unfold remove_vertex_vd, boost_on_graph, boost_clear_vertex.
    by rewrite (proj2 (is_live_false v _) Hv).
Qed.

Lemma graph_wf_remove_vertex l t t' :
  graph_wf (_graph t) → remove_vertex l t = Returns t' → graph_wf (_graph t').
Proof. rewrite remove_vertex_as_vd. apply graph_wf_remove_vertex_vd. Qed.

Lemma graph_wf_clear t : graph_wf (_graph t) → graph_wf (_graph (clear t)).
Proof.
  intros _.
  split; unfold vertex_set, no_dangling_edges, no_parallel_edges, edge_count; simpl.
  - constructor.
  - constructor.
  - intros e Hin. by apply not_elem_of_nil in Hin.
  - intros _ _. lia.
  - intros v Hin. by apply not_elem_of_nil in Hin.
  - intros e Hin. by apply not_elem_of_nil in Hin.
Qed.

Lemma graph_wf_add_edge_vd u v tf t r t' :
  graph_wf (_graph t) → add_edge_vd u v tf t = Returns (r, t') → graph_wf (_graph t').
Proof.
  intros Hwf. pose proof Hwf as [Hv Hid Hend Hpar Hvm Hem].
  unfold add_edge_vd, boost_edge.
  destruct (is_live u (_graph t)) eqn:Hu; [|done].
  destruct (List.find (joins u v) (m_edges (_graph t))) as [e0|] eqn:Hfind; simpl.
  - pose proof (find_some_bool _ _ _ Hfind) as [Hin Hj].
    unfold boost_on_graph, boost_put. rewrite (is_edge_elem _ _ Hin). simpl.
    intros [= <- <-]. split; fields; try done.
    + rewrite <- list_fmap_compose.
      erewrite (list_fmap_ext _ se_id); [done|].
      intros i e _. simpl. unfold boost_set_transform. by destruct (stored_at _ e).
    + intros e (e' & -> & He')%list_elem_of_fmap.
      pose proof (descriptor_set_transform (descriptor_of e0) tf e') as Hd.
      injection Hd as -> -> _. by apply Hend.
    + intros u' v'. unfold edge_count. fields.
      rewrite filter_fmap_same by (intros; apply joins_set_transform).
      rewrite length_fmap. apply Hpar.
    + intros e (e' & -> & He')%list_elem_of_fmap.
      pose proof (descriptor_set_transform (descriptor_of e0) tf e') as Hd.
      injection Hd as _ _ ->. by apply Hem.
  - unfold boost_add_edge. rewrite Hu.
    destruct (is_live v (_graph t)) eqn:Hlv; [|done]. simpl.
    intros [= <- <-]. apply is_live_true in Hu, Hlv.
    assert (List.filter (joins u v) (m_edges (_graph t)) = []) as Hnone.
    { apply length_zero_iff_nil, filter_none_length. by apply find_none_bool. }
    split; fields; try done.
    + rewrite fmap_app. apply NoDup_app. split; [done|]. split; [|apply NoDup_singleton].
      intros i Hin Hi. simpl in Hi. apply list_elem_of_singleton in Hi as ->.
      by apply new_address_fresh in Hin.
    + intros e [He| ->%list_elem_of_singleton]%elem_of_app; [by apply Hend|done].
    + intros u' v'. unfold edge_count. fields. rewrite List.filter_app, length_app.
      simpl. destruct (joins u' v' _) eqn:Hj; simpl.
      * apply joins_descriptor in Hj as [<- <-]. simpl. rewrite Hnone. simpl. lia.
      * specialize (Hpar u' v'). unfold edge_count in Hpar. lia.
    + intros e [He| ->%list_elem_of_singleton]%elem_of_app.
      * by apply Hem.
      * simpl. apply new_address_not_null.
Qed.

Lemma graph_wf_add_edge a b tf t r t' :
  graph_wf (_graph t) → add_edge a b tf t = Returns (r, t') → graph_wf (_graph t').
Proof. rewrite add_edge_as_vd. apply graph_wf_add_edge_vd. Qed.

(** Destructive removal of an edge between two different vertices, by edge
    descriptor and by vertex descriptors: the edge goes, an endpoint goes
    exactly when no edge is left at it, and every other vertex stays. *)
Lemma remove_edge_ed_destructive_distinct t ed :
  ed ∈ edges t → no_dangling_edges (_graph t) → source ed ≠ target ed →
  ∃ t',
    remove_edge_ed ed true t = Returns t' ∧
    m_edges (_graph t') = m_edges (_graph (without_edges (stored_at ed) t)) ∧
    (∀ w, w ∈ vertices t' ↔
          w ∈ vertices t ∧
          (w = source ed ∨ w = target ed →
           ¬ isolated w (without_edges (stored_at ed) t))).
Proof.
  intros Hed Hdang Hne. eexists.
  split; [by apply remove_edge_ed_distinct|]. split.
  - by rewrite !edges_pruned.
  - intros w. rewrite !vertices_pruned, vertices_without_edges.
    rewrite isolated_pruned. naive_solver.
Qed.

Lemma remove_edge_vd_destructive_distinct t u v :
  u ∈ vertices t → v ∈ vertices t → u ≠ v →
  ∃ t',
    remove_edge_vd u v true t = Returns t' ∧
    m_edges (_graph t') = m_edges (_graph (without_edges (joins u v) t)) ∧
    edge_count u v (_graph t') = 0 ∧
    (∀ w, w ∈ vertices t' ↔
          w ∈ vertices t ∧
          (w = u ∨ w = v → ¬ isolated w (without_edges (joins u v) t))).
Proof.
  intros Hu Hv Hne. eexists.
  split; [by apply remove_edge_vd_distinct|]. split; [|split].
  - by rewrite !edges_pruned.
  - unfold edge_count. rewrite !edges_pruned.
    apply filter_none_length. intros e He.
    by apply edges_without_edges in He as [_ ?].
  - intros w. rewrite !vertices_pruned, vertices_without_edges.
    rewrite isolated_pruned. naive_solver.
Qed.

End GraphFacts.

(** ** Adding a vertex *)

Section AddVertex.
Context {Transform : Type} (new_uuid : string → N) {allocator : Allocator}.
Implicit Types (t : LabeledTransformTree Transform).

(** C2, as the code has it: adding a frame under a name that already names
    a frame of the graph does not fail; it returns the identity of that
    frame and leaves the graph as it is, so no second vertex appears.
    Under a name the label index does not hold, a new vertex carrying
    [Frame(name)] is appended, indexed under the name, and its identity
    returned. *)
Theorem add_vertex_existing_or_new t n :
  graph_wf (_graph t) →
  (∀ vd, names n vd t → add_vertex new_uuid n t = Returns (vd, t)) ∧
  ((_map t !! n = None) →
   ∃ vd t',
     add_vertex new_uuid n t = Returns (vd, t') ∧
     (vd ∉ vertices t) ∧
     m_vertices (_graph t')
       = m_vertices (_graph t) ++ [StoredVertex vd (Frame_of_name new_uuid n)] ∧
     m_edges (_graph t') = m_edges (_graph t) ∧
     _map t' = <[n := vd]> (_map t) ∧
     num_vertices t' = S (num_vertices t) ∧
     getFrame vd t' = Returns (Frame_of_name new_uuid n)).
Proof.
  intros Hwf. split.
  - intros vd [Hl _]. unfold add_vertex, boost_labeled_add_vertex. by rewrite Hl.
  - intros Hnone. unfold add_vertex, boost_labeled_add_vertex. rewrite Hnone. simpl.
    eexists _, _. split; [reflexivity|]. simpl.
    pose proof (new_address_fresh (m_next_vertex (_graph t)) (vertex_set (_graph t)))
      as Hfresh.
    repeat split; try done.
    + unfold num_vertices. simpl. rewrite length_app. simpl. lia.
    + unfold getFrame, boost_get_frame. simpl.
      by rewrite find_frame_app_new.
Qed.

Lemma graph_wf_labeled_add_vertex l p t :
  graph_wf (_graph t) → graph_wf (_graph (boost_labeled_add_vertex l p t).2).
Proof.
  intros Hwf. pose proof Hwf as [Hv Hid Hend Hpar Hvm Hem].
  unfold boost_labeled_add_vertex. destruct (_map t !! l); [done|]. simpl.
  pose proof (new_address_fresh (m_next_vertex (_graph t)) (vertex_set (_graph t)))
    as Hfresh.
  split; unfold no_dangling_edges in *; unfold vertex_set in *; simpl; try done.
  - rewrite fmap_app. apply NoDup_app. split; [done|]. split; [|apply NoDup_singleton].
    intros v Hin Hs. simpl in Hs. by apply list_elem_of_singleton in Hs as ->.
  - intros e He. rewrite fmap_app, !elem_of_app.
    destruct (Hend e He). by split; left.
  - intros v. rewrite fmap_app, elem_of_app. simpl.
    intros [Hin|Hs]; [by apply Hvm|apply list_elem_of_singleton in Hs as ->].
    apply new_address_not_null.
Qed.

Lemma graph_wf_add_vertex n t v t' :
  graph_wf (_graph t) → add_vertex new_uuid n t = Returns (v, t') → graph_wf (_graph t').
Proof.
  intros Hwf [= Heq]. pose proof (graph_wf_labeled_add_vertex n (Frame_of_name new_uuid n) t Hwf) as H.
  by rewrite Heq in H.
Qed.

Lemma graph_wf_add_vertex_frame f t v t' :
  graph_wf (_graph t) → add_vertex_frame f t = Returns (v, t') → graph_wf (_graph t').
Proof.
  intros Hwf [= Heq]. pose proof (graph_wf_labeled_add_vertex (name f) f t Hwf) as H.
  by rewrite Heq in H.
Qed.

End AddVertex.

(** * The sample graphs *)

Lemma two_frames_built :
  ('(_, t) ← add_vertex no_uuid "a" empty_tree; add_vertex no_uuid "b" t)
  = Returns (2%N, two_frames).
Proof. vm_compute. reflexivity. Qed.

Lemma self_loop_built :
  ('(_, t) ← add_vertex no_uuid "a" empty_tree; add_edge "a" "a" 10%N t)
  = Returns ((EdgeDesc 1 1 1, true), self_loop).
Proof. vm_compute. reflexivity. Qed.

Lemma path_abc_built :
  ('(_, t) ← add_vertex no_uuid "a" empty_tree;
   '(_, t) ← add_vertex no_uuid "b" t;
   '(_, t) ← add_vertex no_uuid "c" t;
   '(_, t) ← add_edge "a" "b" 10%N t;
   add_edge "b" "c" 20%N t)
  = Returns ((EdgeDesc 2 3 2, true), path_abc).
Proof. vm_compute. reflexivity. Qed.

Lemma cycle_abc_built :
  ('(_, t) ← add_edge "c" "a" 30%N path_abc; mret t) = Returns cycle_abc.
Proof. vm_compute. reflexivity. Qed.

Tactic Notation "unchain" integer(n) hyp(H) :=
  do n (apply bind_returns in H as ([? ?] & ? & H)).

Lemma graph_wf_two_frames : graph_wf (_graph two_frames).
Proof.
  pose proof two_frames_built as H. unchain 1 H.
  pose proof (@graph_wf_empty N). eauto using graph_wf_add_vertex.
Qed.

Lemma graph_wf_self_loop : graph_wf (_graph self_loop).
Proof.
  pose proof self_loop_built as H. unchain 1 H.
  pose proof (@graph_wf_empty N). eauto using graph_wf_add_vertex, graph_wf_add_edge.
Qed.

Lemma graph_wf_path_abc : graph_wf (_graph path_abc).
Proof.
  pose proof path_abc_built as H. unchain 4 H.
  pose proof (@graph_wf_empty N).
  eauto 10 using graph_wf_add_vertex, graph_wf_add_edge.
Qed.

Lemma graph_wf_cycle_abc : graph_wf (_graph cycle_abc).
Proof.
  pose proof cycle_abc_built as H. unchain 1 H. injection H as <-.
  eauto using graph_wf_add_edge, graph_wf_path_abc.
Qed.

Lemma names_two_frames : names "a" 1%N two_frames ∧ names "b" 2%N two_frames.
Proof. split; (split; [reflexivity|]); vm_compute; set_solver. Qed.

Lemma add_edge_twice_replaces_witness :
  ∃ ed t1 t2,
    add_edge "a" "b" 10%N two_frames = Returns ((ed, true), t1) ∧
    add_edge "a" "b" 20%N t1 = Returns ((ed, true), t2) ∧
    source ed = 1%N ∧ target ed = 2%N ∧
    edge_count 1 2 (_graph t2) = 1 ∧
    getTransform ed t2 = Returns 20%N ∧
    (∀ e, e ∈ m_edges (_graph t2) → joins 1 2 e = true → se_transform e = 20%N) ∧
    vertices t2 = vertices two_frames ∧ _map t2 = _map two_frames.
Proof.
  apply (add_edge_twice_replaces two_frames "a" "b" 1 2 10 20)%N.
  - apply names_two_frames.
  - apply names_two_frames.
  - apply graph_wf_two_frames.
Defined.

Lemma add_vertex_existing_or_new_witness :
  add_vertex no_uuid "a" two_frames = Returns (1%N, two_frames) ∧
  ∃ vd t',
    add_vertex no_uuid "c" two_frames = Returns (vd, t') ∧
    (vd ∉ vertices two_frames) ∧
    m_vertices (_graph t')
      = m_vertices (_graph two_frames) ++ [StoredVertex vd (Frame_of_name no_uuid "c")] ∧
    m_edges (_graph t') = m_edges (_graph two_frames) ∧
    _map t' = <["c" := vd]> (_map two_frames) ∧
    num_vertices t' = S (num_vertices two_frames) ∧
    getFrame vd t' = Returns (Frame_of_name no_uuid "c").
Proof.
  split.
  - apply (add_vertex_existing_or_new no_uuid two_frames "a" graph_wf_two_frames).
    apply names_two_frames.
  - apply (add_vertex_existing_or_new no_uuid two_frames "c" graph_wf_two_frames).
    reflexivity.
Defined.

(** C2 fails as stated: the graph [two_frames] has a frame named [a], and
    adding [a] again returns normally with the identity of that frame. *)
Lemma add_vertex_duplicate_counterexample :
  names "a" 1%N two_frames ∧
  add_vertex no_uuid "a" two_frames = Returns (1%N, two_frames) ∧
  add_vertex no_uuid "a" two_frames ≠ Throws DuplicateFrame ∧
  ¬ fails (add_vertex no_uuid "a" two_frames).
Proof.
  split; [apply names_two_frames|].
  split; [reflexivity|]. split; [discriminate|]. simpl. tauto.
Qed.

(** A label outlives its frame: the destructive removal takes both frames
    of [two_frames] out of the graph and leaves their labels in the index,
    where [add_vertex] then finds the freed descriptor. *)
Lemma add_vertex_stale_label :
  remove_edge "a" "b" true two_frames = Returns (emptied two_frames) ∧
  vertices (emptied two_frames) = [] ∧
  add_vertex no_uuid "a" (emptied two_frames) = Returns (1%N, emptied two_frames) ∧
  getFrame 1 (emptied two_frames) = Undefined.
Proof. repeat split; vm_compute; reflexivity. Qed.

(** C3 fails on the code: a frame whose only edge is a self-loop.  Built
    through the class, the destructive removal of that edge, in each of
    the three overloads, removes the edge and the then isolated frame in
    the source check, and its target check reads the freed vertex. *)
Theorem remove_edge_destructive_self_loop :
  ('(_, t) ← add_vertex no_uuid "a" empty_tree; add_edge "a" "a" 10%N t)
    = Returns ((EdgeDesc 1 1 1, true), self_loop) ∧
  remove_edge "a" "a" true self_loop = Undefined ∧
  remove_edge_vd 1 1 true self_loop = Undefined ∧
  remove_edge_ed (EdgeDesc 1 1 1) true self_loop = Undefined ∧
  remove_if_isolated 1 (without_edges (joins 1 1) self_loop)
    = Returns (emptied self_loop) ∧
  remove_if_isolated 1 (emptied self_loop) = Undefined.
Proof. repeat split; vm_compute; reflexivity. Qed.

Lemma names_path_abc :
  names "a" 1%N path_abc ∧ names "b" 2%N path_abc ∧ names "c" 3%N path_abc.
Proof. repeat split; try reflexivity; vm_compute; set_solver. Qed.

Lemma remove_edge_without_edge_witness :
  (∀ d x, remove_edge "a" "b" d two_frames ≠ Throws x) ∧
  remove_edge "a" "b" false two_frames = Returns two_frames ∧
  remove_edge "a" "b" true two_frames = Returns (pruned 2 (pruned 1 two_frames)) ∧
  remove_edge "a" "c" false path_abc = Returns path_abc ∧
  remove_edge "a" "c" true path_abc = Returns path_abc ∧
  remove_edge "a" "a" true path_abc = Returns (pruned 1 (pruned 1 path_abc)).
Proof.
  destruct (remove_edge_without_edge two_frames "a" "b" 1 2) as [Hno Hab].
  destruct Hab as (Hplain & Hprune & _);
    [apply names_two_frames|apply names_two_frames|reflexivity|].
  destruct (remove_edge_without_edge path_abc "a" "c" 1 3) as [_ Hac].
  destruct Hac as (Hplain' & _ & Hkeep);
    [apply names_path_abc|apply names_path_abc|reflexivity|].
  destruct (remove_edge_without_edge path_abc "a" "a" 1 1) as [_ Haa].
  destruct Haa as (_ & Hloop & _);
    [apply names_path_abc|apply names_path_abc|reflexivity|].
  split; [exact Hno|]. split; [exact Hplain|].
  split; [apply Hprune; left; discriminate|].
  split; [exact Hplain'|].
  split; [apply Hkeep; vm_compute; discriminate|].
  apply Hloop. right. vm_compute. discriminate.
Defined.

(** C4 fails as stated: no edge joins [a] and [b] in [two_frames], yet the
    plain removal returns normally, raising nothing, and the destructive
    one returns a changed graph, both frames being isolated; with the
    unknown target [z] the plain removal returns normally as well, and
    with the unknown source [z] the call dereferences a null descriptor
    instead of raising [UnknownFrame]. *)
Lemma remove_edge_missing_counterexample :
  names "a" 1%N two_frames ∧ names "b" 2%N two_frames ∧
  edge_count 1 2 (_graph two_frames) = 0 ∧
  remove_edge "a" "b" false two_frames = Returns two_frames ∧
  remove_edge "a" "b" false two_frames ≠ Throws UnknownEdge ∧
  remove_edge "a" "b" true two_frames = Returns (emptied two_frames) ∧
  emptied two_frames ≠ two_frames ∧
  _map two_frames !! "z" = None ∧
  remove_edge "a" "z" false two_frames = Returns two_frames ∧
  remove_edge "z" "a" false two_frames = Undefined.
Proof.
  split; [apply names_two_frames|]. split; [apply names_two_frames|].
  repeat split; try (vm_compute; reflexivity); discriminate.
Qed.

Lemma remove_vertex_no_dangling_witness :
  ∃ t',
    remove_vertex "b" path_abc = Returns t' ∧
    remove_vertex_vd 2 path_abc = Returns t' ∧
    (∀ w, w ∈ vertices t' ↔ w ∈ vertices path_abc ∧ w ≠ 2%N) ∧
    (∀ e, e ∈ m_edges (_graph t') ↔ e ∈ m_edges (_graph path_abc) ∧ touches 2 e = false) ∧
    no_dangling_edges (_graph t').
Proof.
  apply (remove_vertex_no_dangling path_abc "b" 2%N).
  - apply names_path_abc.
  - apply graph_wf_path_abc.
Defined.

Lemma two_edge_path_abc : two_edge_path "a" "b" "c" 1%N 2%N 3%N path_abc.
Proof.
  repeat split; try done.
  - intros Hv. vm_compute in Hv. set_solver.
  - intros Hv. vm_compute. set_solver.
  - exists (StoredEdge 1 1 2 10%N), (StoredEdge 2 2 3 20%N). by repeat split; [..|left].
Qed.

Lemma destructive_removal_of_path_witness :
  (remove_edge "a" "b" true path_abc ≫= remove_edge "b" "c" true)
    = Returns (emptied path_abc) ∧
  (remove_edge "b" "c" true path_abc ≫= remove_edge "a" "b" true)
    = Returns (emptied path_abc) ∧
  num_vertices (emptied path_abc) = 0 ∧ num_edges (emptied path_abc) = 0.
Proof.
  apply (destructive_removal_of_path path_abc "a" "b" "c" 1 2 3)%N.
  apply two_edge_path_abc.
Defined.

(** * Properties of tree views *)

(** C10: [isRoot(vd)] returns true exactly when [vd] is a key of [tree]
    whose stored parent is the null vertex, returns false exactly when it
    is a key with another parent, and for a descriptor that is not a key
    it returns no boolean but raises [std::out_of_range]. *)
Theorem isRoot_spec (this : TreeView) (vd : N) :
  (isRoot vd this = Returns true ↔
     ∃ r, tree this !! vd = Some r ∧ parent r = null_vertex) ∧
  (isRoot vd this = Returns false ↔
     ∃ r, tree this !! vd = Some r ∧ parent r ≠ null_vertex) ∧
  (tree this !! vd = None ↔ isRoot vd this = Throws std_out_of_range) ∧
  (tree this !! vd = None → ∀ b, isRoot vd this ≠ Returns b).
Proof.
  unfold isRoot. destruct (tree this !! vd) as [r|] eqn:Hr.
  - destruct (decide (parent r = null_vertex)) as [Hp|Hp]; repeat split;
      try done; try (intros (r' & [= <-] & ?); done); try (by exists r).
  - repeat split; try done; by intros (r' & ? & ?).
Qed.

(** ** Copy, move and destruction *)

Section TreeViewFacts.
Context {build : Build}.

(** An assertion that holds lets the call go on, in either build. *)
Lemma assert_true : assert true = Returns tt.
Proof. unfold assert. by destruct NDEBUG. Qed.

Lemma setPublisher_unset (pub this : N) (tv : TreeView) (h : heap) :
  views h !! this = Some tv → publisher tv = None →
  setPublisher pub this h = Returns (set_view this (with_publisher (Some pub) tv) h).
Proof.
  intros Hv Hp. unfold setPublisher. rewrite Hv, Hp.
  rewrite bool_decide_eq_true_2 by done. by rewrite assert_true.
Qed.

Lemma registered_insert (pub q : N) (s : gset N) (vs : gmap N TreeView)
    (m : gmap N (gset N)) (cs : list publisher_call) :
  registered q {| views := vs; subscribed := <[pub := s]> m; calls := cs |}
  = if decide (q = pub) then s
    else registered q {| views := vs; subscribed := m; calls := cs |}.
Proof.
  unfold registered. simpl. destruct (decide (q = pub)) as [->|Hne].
  - by rewrite lookup_insert_eq.
  - by rewrite lookup_insert_ne.
Qed.

Lemma registered_set_view (q a : N) (tv : TreeView) (h : heap) :
  registered q (set_view a tv h) = registered q h.
Proof. done. Qed.

Lemma assign_returns (this other : N) (a b : TreeView) (h : heap) :
  views h !! this = Some a → views h !! other = Some b →
  assign this other h
  = Returns (set_view this
               {| treeUpdated := treeUpdated a; tree := tree b;
                  crossEdges := crossEdges b; publisher := publisher b |} h).
Proof. intros Ha Hb. unfold assign. by rewrite Ha, Hb. Qed.

Lemma copy_construct_returns (this other : N) (b : TreeView) (h : heap) :
  views h !! this = None → views h !! other = Some b →
  copy_construct this other h
  = Returns (set_view this
               {| treeUpdated := []; tree := tree b;
                  crossEdges := crossEdges b; publisher := publisher b |} h).
Proof.
  intros Ha Hb. unfold copy_construct, default_construct. rewrite Ha. simpl.
  assert (this ≠ other) as Hne by (intros ->; congruence).
  rewrite (assign_returns this other TreeView_default b).
  - unfold set_view. simpl. by rewrite insert_insert_eq.
  - apply lookup_insert_eq.
  - unfold set_view. simpl. by rewrite lookup_insert_ne.
Qed.

Lemma destroy_unsubscribed (this : N) (tv : TreeView) (h : heap) :
  views h !! this = Some tv → publisher tv = None →
  destroy this h
  = Returns {| views := delete this (views h);
               subscribed := subscribed h; calls := calls h |}.
Proof. intros Hv Hp. unfold destroy. by rewrite Hv, Hp. Qed.

Lemma destroy_with_publisher (this pub : N) (tv : TreeView) (s : gset N) (h : heap) :
  views h !! this = Some tv → publisher tv = Some pub →
  subscribed h !! pub = Some s →
  destroy this h
  = Returns {| views := delete this (views h);
               subscribed := <[pub := s ∖ {[this]}]> (subscribed h);
               calls := calls h ++ [unsubscribe_call pub this] |}.
Proof.
  intros Hv Hp Hs. unfold destroy, unsubscribeTreeView. rewrite Hv, Hp, Hs. simpl.
  by rewrite delete_insert_eq.
Qed.

(** C5, as the code has it: a copy, made by the copy constructor or by
    assignment, takes [tree], [crossEdges] and also the [publisher] pointer
    of the original, not the slots of [treeUpdated].  Copying calls no
    publisher, so the copy is registered nowhere; but a copy whose original
    had a publisher calls [unsubscribeTreeView] on that publisher for
    itself when it is destroyed, and only a copy of a view without a
    publisher is destroyed without any call. *)
Theorem copy_takes_publisher (h : heap) (this other : N) (b : TreeView) :
  views h !! other = Some b →
  (views h !! this = None →
   ∃ h', copy_construct this other h = Returns h' ∧
     views h' !! this
       = Some {| treeUpdated := []; tree := tree b;
                 crossEdges := crossEdges b; publisher := publisher b |} ∧
     subscribed h' = subscribed h ∧ calls h' = calls h ∧
     (publisher b = None →
      ∃ h'', destroy this h' = Returns h'' ∧
        subscribed h'' = subscribed h ∧ calls h'' = calls h) ∧
     (∀ pub s, publisher b = Some pub → subscribed h !! pub = Some s →
      ∃ h'', destroy this h' = Returns h'' ∧
        subscribed h'' = <[pub := s ∖ {[this]}]> (subscribed h) ∧
        calls h'' = calls h ++ [unsubscribe_call pub this])) ∧
  (∀ a, views h !! this = Some a →
   ∃ h', assign this other h = Returns h' ∧
     views h' !! this
       = Some {| treeUpdated := treeUpdated a; tree := tree b;
                 crossEdges := crossEdges b; publisher := publisher b |} ∧
     subscribed h' = subscribed h ∧ calls h' = calls h).
Proof.
  intros Hb. split.
  - intros Ha. eexists. split; [by apply copy_construct_returns|].
    split; [apply lookup_insert_eq|]. split; [done|]. split; [done|]. split.
    + intros Hp. eexists.
      split; [eapply destroy_unsubscribed; [apply lookup_insert_eq|done]|done].
    + intros pub s Hp Hs. eexists.
      split; [eapply destroy_with_publisher; [apply lookup_insert_eq|done|done]|done].
  - intros a Ha. eexists. split; [by apply assign_returns|].
    split; [apply lookup_insert_eq|done].
Qed.

Lemma move_construct_subscribed (this other pub : N) (o : TreeView) (s : gset N)
    (h : heap) :
  views h !! this = None → views h !! other = Some o →
  publisher o = Some pub → subscribed h !! pub = Some s →
  ∃ h',
    move_construct this other h = Returns h' ∧
    views h' !! this
      = Some {| treeUpdated := treeUpdated o; tree := tree o;
                crossEdges := crossEdges o; publisher := Some pub |} ∧
    views h' !! other
      = Some {| treeUpdated := []; tree := ∅; crossEdges := []; publisher := None |} ∧
    (∀ a, a ≠ this → a ≠ other → views h' !! a = views h !! a) ∧
    subscribed h' = <[pub := (s ∖ {[other]}) ∪ {[this]}]> (subscribed h) ∧
    calls h' = calls h ++ [unsubscribe_call pub other; subscribe_call pub this].
Proof.
  intros Ht Ho Hp Hs.
  assert (this ≠ other) as Hne by (intros ->; congruence).
  unfold move_construct. rewrite Ht, Ho, Hp.
  unfold unsubscribeTreeView, subscribeTreeView, setPublisher, set_view. simpl.
  rewrite Hs. simpl. rewrite lookup_insert_eq. simpl.
  rewrite lookup_insert_eq. simpl. rewrite assert_true. simpl.
  rewrite lookup_insert_ne, lookup_insert_ne, lookup_insert_eq by done. simpl.
  rewrite lookup_insert_ne, lookup_insert_eq by done.
  rewrite lookup_insert_eq. simpl.
  eexists. split; [reflexivity|]. simpl.
  split; [by rewrite lookup_insert_eq|].
  split; [by rewrite lookup_insert_ne, lookup_insert_eq|].
  split; [intros a Hat Hao; by rewrite !lookup_insert_ne|].
  split; [by rewrite insert_insert_eq|].
  by rewrite <- app_assoc.
Qed.

Lemma move_construct_unsubscribed (this other : N) (o : TreeView) (h : heap) :
  views h !! this = None → views h !! other = Some o → publisher o = None →
  ∃ h',
    move_construct this other h = Returns h' ∧
    views h' !! this
      = Some {| treeUpdated := treeUpdated o; tree := tree o;
                crossEdges := crossEdges o; publisher := None |} ∧
    subscribed h' = subscribed h ∧ calls h' = calls h.
Proof.
  intros Ht Ho Hp.
  assert (this ≠ other) as Hne by (intros ->; congruence).
  unfold move_construct. rewrite Ht, Ho, Hp. unfold set_view. simpl.
  rewrite lookup_insert_eq, lookup_insert_ne, lookup_insert_eq by done. simpl.
  eexists. split; [reflexivity|]. simpl. by rewrite lookup_insert_eq.
Qed.

Lemma registered_lookup (pub : N) (s : gset N) (h : heap) :
  subscribed h !! pub = Some s → registered pub h = s.
Proof. intros H. unfold registered. by rewrite H. Qed.

Lemma registered_after_insert (q pub : N) (s : gset N) (h h' : heap) :
  subscribed h' = <[pub := s]> (subscribed h) →
  registered q h' = if decide (q = pub) then s else registered q h.
Proof.
  intros H. unfold registered. rewrite H. destruct (decide (q = pub)) as [->|Hne].
  - by rewrite lookup_insert_eq.
  - by rewrite lookup_insert_ne.
Qed.

(** C6: in a state where every registration is backed by the [publisher]
    field of a live view, a view is registered with at most one publisher.
    Moving a subscribed view calls [unsubscribeTreeView] for the source and
    then [subscribeTreeView] for the destination: afterwards the
    destination stands in for the source in the publisher's set, the
    source is registered nowhere and its publisher is null.  Destroying a
    subscribed view unsubscribes it, so it is registered nowhere once it
    is gone.  Both steps keep every registration backed by a live view. *)
Theorem move_and_destroy_detach (h : heap) :
  registrations_backed h →
  (∀ view p q, view ∈ registered p h → view ∈ registered q h → p = q) ∧
  (∀ this other o pub,
     views h !! this = None → views h !! other = Some o →
     publisher o = Some pub → is_Some (subscribed h !! pub) →
     ∃ h',
       move_construct this other h = Returns h' ∧
       calls h' = calls h ++ [unsubscribe_call pub other; subscribe_call pub this] ∧
       registered pub h' = (registered pub h ∖ {[other]}) ∪ {[this]} ∧
       (∀ q, other ∉ registered q h') ∧
       (∀ q, this ∈ registered q h' → q = pub) ∧
       publisher <$> views h' !! other = Some None ∧
       publisher <$> views h' !! this = Some (Some pub) ∧
       registrations_backed h') ∧
  (∀ this tv pub,
     views h !! this = Some tv → publisher tv = Some pub →
     is_Some (subscribed h !! pub) →
     ∃ h',
       destroy this h = Returns h' ∧
       calls h' = calls h ++ [unsubscribe_call pub this] ∧
       views h' !! this = None ∧
       (∀ q, this ∉ registered q h') ∧
       registrations_backed h').
Proof.
  intros Hback. split; [|split].
  - intros view p q Hp Hq.
    destruct (Hback p view Hp) as (tv & Hv & Hpub).
    destruct (Hback q view Hq) as (tv' & Hv' & Hpub'). congruence.
  - intros this other o pub Ht Ho Hp [s Hs].
    assert (this ≠ other) as Hne by (intros ->; congruence).
    destruct (move_construct_subscribed this other pub o s h Ht Ho Hp Hs)
      as (h' & Hmove & Hvt & Hvo & Hrest & Hsub & Hcalls).
    pose proof (λ q, registered_after_insert q pub _ h h' Hsub) as Hreg.
    pose proof (registered_lookup pub s h Hs) as Hregs.
    assert (∀ q view, view ∈ registered q h → view ≠ this) as Hfresh.
    { intros q view Hin ->. destruct (Hback q this Hin) as (? & ? & _). congruence. }
    assert (∀ q, other ∈ registered q h → q = pub) as Hother.
    { intros q Hin. destruct (Hback q other Hin) as (? & ? & ?). congruence. }
    exists h'. split; [done|]. split; [done|]. split; [|split; [|split; [|split; [|split]]]].
    + rewrite Hreg, decide_True by done. by rewrite Hregs.
    + intros q. rewrite Hreg. destruct (decide (q = pub)) as [->|Hq].
      * set_solver.
      * intros Hin. by apply Hother in Hin.
    + intros q. rewrite Hreg. destruct (decide (q = pub)) as [->|Hq]; [done|].
      intros Hin. by apply Hfresh in Hin.
    + by rewrite Hvo.
    + by rewrite Hvt.
    + intros q view. rewrite Hreg. destruct (decide (q = pub)) as [->|Hq].
      * intros [[Hin Hno]%elem_of_difference| ->%elem_of_singleton]%elem_of_union.
        -- rewrite <- Hregs in Hin. pose proof (Hfresh _ _ Hin).
           rewrite Hrest by set_solver. by apply Hback.
        -- rewrite Hvt. by eexists.
      * intros Hin. pose proof (Hfresh _ _ Hin).
        assert (view ≠ other) by (intros ->; by apply Hother in Hin).
        rewrite Hrest by done. by apply Hback.
  - intros this tv pub Hv Hp [s Hs].
    eexists. split; [by eapply destroy_with_publisher|]. simpl.
    split; [done|]. split; [apply lookup_delete_eq|].
    pose proof (registered_lookup pub s h Hs) as Hregs.
    split.
    + intros q. rewrite registered_insert. destruct (decide (q = pub)) as [->|Hq].
      * set_solver.
      * intros Hin. change (this ∈ registered q h) in Hin.
        destruct (Hback q this Hin) as (? & ? & ?). congruence.
    + intros q view. rewrite registered_insert.
      destruct (decide (q = pub)) as [->|Hq].
      * intros [Hin Hno]%elem_of_difference. rewrite <- Hregs in Hin. simpl.
        rewrite lookup_delete_ne by set_solver. by apply Hback.
      * intros Hin. change (view ∈ registered q h) in Hin. simpl.
        destruct (Hback q view Hin) as (tv' & Hv' & Hp').
        rewrite lookup_delete_ne by (intros ->; congruence). by exists tv'.
Qed.

(** The hypothesis of the previous theorem holds before any subscription
    and is kept by subscribing a view without publisher, by unsubscribing
    and by copy construction. *)
Lemma registrations_backed_initial (vs : gmap N TreeView) (cs : list publisher_call) :
  registrations_backed {| views := vs; subscribed := ∅; calls := cs |}.
Proof. intros pub view Hin. unfold registered in Hin. simpl in Hin. set_solver. Qed.

Lemma registrations_backed_fresh_publisher (pub : N) (h : heap) :
  registrations_backed h →
  registrations_backed
    {| views := views h; subscribed := <[pub := ∅]> (subscribed h); calls := calls h |}.
Proof.
  intros Hback q view. rewrite registered_insert.
  destruct (decide (q = pub)); [set_solver|]. apply Hback.
Qed.

Lemma registrations_backed_subscribe (pub view : N) (h h' : heap) :
  registrations_backed h →
  (∀ tv, views h !! view = Some tv → publisher tv = None) →
  subscribeTreeView pub view h = Returns h' →
  registrations_backed h'.
Proof.
  intros Hback Hnone. unfold subscribeTreeView.
  destruct (subscribed h !! pub) as [s|] eqn:Hs; [|done].
  destruct (views h !! view) as [tv|] eqn:Hv; [|by unfold setPublisher; simpl; rewrite Hv].
  specialize (Hnone tv eq_refl) as Hp.
  rewrite (setPublisher_unset pub view tv) by done. intros [= <-].
  intros q w. rewrite registered_set_view, registered_insert. simpl.
  pose proof (registered_lookup pub s h Hs) as Hregs.
  destruct (decide (w = view)) as [->|Hw].
  - rewrite lookup_insert_eq. intros Hin.
    destruct (decide (q = pub)) as [->|Hq]; [by eexists|].
    destruct (Hback q view Hin) as (? & ? & ?). congruence.
  - rewrite lookup_insert_ne by done.
    destruct (decide (q = pub)) as [->|Hq]; [|apply Hback].
    intros [Hin|Hin%elem_of_singleton]%elem_of_union; [|done].
    rewrite <- Hregs in Hin. by apply Hback.
Qed.

Lemma registrations_backed_unsubscribe (pub view : N) (h h' : heap) :
  registrations_backed h → unsubscribeTreeView pub view h = Returns h' →
  registrations_backed h'.
Proof.
  intros Hback. unfold unsubscribeTreeView.
  destruct (subscribed h !! pub) as [s|] eqn:Hs; [|done]. intros [= <-].
  intros q w. rewrite registered_insert.
  pose proof (registered_lookup pub s h Hs) as Hregs.
  destruct (decide (q = pub)) as [->|Hq]; [|apply Hback].
  intros [Hin _]%elem_of_difference. rewrite <- Hregs in Hin. by apply Hback.
Qed.

Lemma registrations_backed_copy (this other : N) (h h' : heap) :
  registrations_backed h → copy_construct this other h = Returns h' →
  registrations_backed h'.
Proof.
  intros Hback. unfold copy_construct, default_construct.
  destruct (views h !! this) eqn:Ht; [done|]. simpl.
  destruct (views h !! other) as [b|] eqn:Ho.
  - rewrite (assign_returns this other TreeView_default b);
      [|apply lookup_insert_eq
       |unfold set_view; simpl; rewrite lookup_insert_ne; [done|congruence]].
    intros [= <-]. intros q w Hin. change (w ∈ registered q h) in Hin.
    destruct (Hback q w Hin) as (tv & Hv & Hp). exists tv. split; [|done].
    unfold set_view. simpl. rewrite !lookup_insert_ne by congruence. done.
  - unfold assign, set_view. simpl. rewrite lookup_insert_eq.
    destruct (decide (this = other)) as [<-|Hne].
    + rewrite lookup_insert_eq. intros [= <-]. intros q w Hin.
      change (w ∈ registered q h) in Hin.
      destruct (Hback q w Hin) as (tv & Hv & Hp). exists tv. split; [|done].
      simpl. rewrite !lookup_insert_ne by congruence. done.
    + rewrite lookup_insert_ne by done. by rewrite Ho.
Qed.

End TreeViewFacts.

Lemma live_heap_built : subscribeTreeView 100 10 idle_heap = Returns live_heap.
Proof. vm_compute. reflexivity. Qed.

Lemma registrations_backed_live_heap : registrations_backed live_heap.
Proof.
  apply (registrations_backed_subscribe 100 10 idle_heap);
    [|by intros tv [= <-]|apply live_heap_built].
  apply (registrations_backed_fresh_publisher 100
           {| views := views idle_heap; subscribed := ∅; calls := [] |}).
  apply registrations_backed_initial.
Qed.

Lemma isRoot_spec_witness :
  isRoot 1 sample_view = Returns true ∧
  isRoot 2 sample_view = Returns false ∧
  isRoot 3 sample_view = Throws std_out_of_range ∧
  (∀ b, isRoot 3 sample_view ≠ Returns b).
Proof.
  split; [|split; [|split]].
  - apply (isRoot_spec sample_view 1). eexists. split; [reflexivity|reflexivity].
  - apply (isRoot_spec sample_view 2). eexists. split; [reflexivity|discriminate].
  - apply (isRoot_spec sample_view 3). reflexivity.
  - apply (isRoot_spec sample_view 3). reflexivity.
Defined.

Lemma copy_takes_publisher_witness :
  ∃ h',
    copy_construct 11 10 live_heap = Returns h' ∧
    views h' !! 11%N
      = Some {| treeUpdated := []; tree := tree sample_view;
                crossEdges := crossEdges sample_view; publisher := Some 100%N |} ∧
    subscribed h' = subscribed live_heap ∧ calls h' = calls live_heap ∧
    ∃ h'', destroy 11 h' = Returns h'' ∧
      subscribed h'' = <[100%N := {[10%N]} ∖ {[11%N]}]> (subscribed live_heap) ∧
      calls h'' = calls live_heap ++ [unsubscribe_call 100 11].
Proof.
  destruct (copy_takes_publisher live_heap 11 10
              (with_publisher (Some 100%N) sample_view) eq_refl) as [Hcopy _].
  destruct (Hcopy eq_refl) as (h' & H1 & H2 & H3 & H4 & _ & H5).
  exists h'. split; [exact H1|]. split; [exact H2|]. split; [exact H3|].
  split; [exact H4|]. apply (H5 100%N {[10%N]} eq_refl eq_refl).
Defined.

(** C5 fails as stated: the copy of the subscribed view at address [10]
    holds the publisher of the original, and destroying the copy calls
    [unsubscribeTreeView] on that publisher. *)
Lemma copy_detached_counterexample :
  ∃ h1 h2 c,
    publisher <$> views live_heap !! 10%N = Some (Some 100%N) ∧
    copy_construct 11 10 live_heap = Returns h1 ∧
    views h1 !! 11%N = Some c ∧
    publisher c = Some 100%N ∧
    publisher c ≠ None ∧
    destroy 11 h1 = Returns h2 ∧
    calls h2 = calls h1 ++ [unsubscribe_call 100 11].
Proof.
  eexists _, _, _. split; [reflexivity|].
  split; [vm_compute; reflexivity|]. split; [vm_compute; reflexivity|].
  split; [reflexivity|]. split; [discriminate|].
  split; vm_compute; reflexivity.
Qed.

Lemma move_and_destroy_detach_witness :
  (∃ h',
     move_construct 11 10 live_heap = Returns h' ∧
     calls h' = calls live_heap ++ [unsubscribe_call 100 10; subscribe_call 100 11] ∧
     registered 100 h' = (registered 100 live_heap ∖ {[10%N]}) ∪ {[11%N]} ∧
     (∀ q, 10%N ∉ registered q h') ∧
     (∀ q, 11%N ∈ registered q h' → q = 100%N) ∧
     publisher <$> views h' !! 10%N = Some None ∧
     publisher <$> views h' !! 11%N = Some (Some 100%N) ∧
     registrations_backed h') ∧
  (∃ h',
     destroy 10 live_heap = Returns h' ∧
     calls h' = calls live_heap ++ [unsubscribe_call 100 10] ∧
     views h' !! 10%N = None ∧
     (∀ q, 10%N ∉ registered q h') ∧
     registrations_backed h').
Proof.
  destruct (move_and_destroy_detach live_heap registrations_backed_live_heap)
    as (_ & Hmove & Hdestroy).
  split.
  - apply (Hmove 11 10 (with_publisher (Some 100%N) sample_view) 100)%N;
      [reflexivity|reflexivity|reflexivity|by eexists].
  - apply (Hdestroy 10 (with_publisher (Some 100%N) sample_view) 100)%N;
      [reflexivity|reflexivity|by eexists].
Defined.

(** C6 fails on the code: the view at address [10] is subscribed to the
    publisher at [100]; a second view is default-constructed at [11] and
    assigned to the first.  The assignment overwrites the publisher of the
    first view with null and calls no publisher, so the destructor of the
    first view makes no call either: the view is gone and its address is
    still registered. *)
Theorem assignment_leaves_registration :
  ∃ h1 h2 h3,
    registrations_backed live_heap ∧
    10%N ∈ registered 100 live_heap ∧
    default_construct 11 live_heap = Returns h1 ∧
    assign 10 11 h1 = Returns h2 ∧
    publisher <$> views h2 !! 10%N = Some None ∧
    10%N ∈ registered 100 h2 ∧
    destroy 10 h2 = Returns h3 ∧
    views h3 !! 10%N = None ∧
    10%N ∈ registered 100 h3 ∧
    calls h3 = calls live_heap ∧
    ¬ registrations_backed h3.
Proof.
  eexists _, _, _. split; [apply registrations_backed_live_heap|].
  split; [vm_compute; reflexivity|].
  split; [vm_compute; reflexivity|].
  split; [vm_compute; reflexivity|].
  split; [vm_compute; reflexivity|].
  split; [vm_compute; reflexivity|].
  split; [vm_compute; reflexivity|].
  split; [vm_compute; reflexivity|].
  split; [vm_compute; reflexivity|].
  split; [vm_compute; reflexivity|].
  intros Hback.
  destruct (Hback 100%N 10%N) as (tv & Hv & _); [vm_compute; reflexivity|].
  vm_compute in Hv. discriminate.
Qed.

(** * Properties of the traversal *)

Section TraversalFacts.
Context {Transform : Type}.
Implicit Types (g : directed_graph Transform) (st : traversal).
Implicit Types (u v w x : N) (e : edge_descriptor) (P : list N).

Lemma elem_of_incident u e g :
  e ∈ incident_edges u g ↔
  ∃ se, se ∈ m_edges g ∧ descriptor_of se = e ∧ (ed_source e = u ∨ ed_target e = u).
Proof.
  unfold incident_edges. rewrite list_elem_of_fmap. split.
  - intros (se & -> & Hin). apply elem_of_filter_bool in Hin as [Hin Ht].
    exists se. split; [done|]. split; [done|].
    unfold touches in Ht. apply orb_true_iff in Ht.
    by rewrite !bool_decide_eq_true in Ht.
  - intros (se & Hin & <- & Hu). exists se. split; [done|].
    apply elem_of_filter_bool. split; [done|].
    unfold touches. apply orb_true_iff. by rewrite !bool_decide_eq_true.
Qed.

Lemma neighbour_other u x e :
  ed_source e = u ∨ ed_target e = u →
  ed_source e = x ∨ ed_target e = x →
  x ≠ u → neighbour x e = u ∧ neighbour u e = x.
Proof.
  unfold neighbour. intros Hu Hx Hne.
  repeat case_decide; naive_solver.
Qed.

Lemma neighbour_endpoint u e :
  neighbour u e = ed_source e ∨ neighbour u e = ed_target e.
Proof. unfold neighbour. case_decide; auto. Qed.

Lemma endpoints_of_incident u e :
  ed_source e = u ∨ ed_target e = u →
  (ed_source e = u ∨ ed_source e = neighbour u e) ∧
  (ed_target e = u ∨ ed_target e = neighbour u e).
Proof. unfold neighbour. intros Hu. case_decide; naive_solver. Qed.

Lemma incident_neighbour u e g :
  e ∈ incident_edges u g → e ∈ incident_edges (neighbour u e) g.
Proof.
  rewrite !elem_of_incident. intros (se & Hin & Hd & Hu).
  exists se. split; [done|]. split; [done|].
  destruct (neighbour_endpoint u e) as [-> | ->]; auto.
Qed.

Lemma incident_live u e g :
  no_dangling_edges g → e ∈ incident_edges u g →
  ed_source e ∈ vertex_set g ∧ ed_target e ∈ vertex_set g.
Proof.
  intros Hd (se & Hin & <- & _)%elem_of_incident. by apply Hd.
Qed.

Lemma incident_NoDup u g :
  NoDup (se_id <$> m_edges g) → NoDup (incident_edges u g).
Proof.
  intros Hid. unfold incident_edges. apply (NoDup_fmap_1 ed_id).
  rewrite <- list_fmap_compose.
  by apply (NoDup_fmap_filter (ed_id ∘ descriptor_of) (touches u)).
Qed.

(** A visited neighbour: the edge is recorded, once, and the tree is left
    alone, unless the edge is the one by which [u] was reached. *)
Lemma examine_visited u st e r :
  tree (tr_view st) !! neighbour u e = Some r →
  tr_reached_by st !! u ≠ Some e →
  e ∉ crossEdges (tr_view st) →
  crossEdges (tr_view (examine u st e)) = crossEdges (tr_view st) ++ [e] ∧
  tree (tr_view (examine u st e)) = tree (tr_view st) ∧
  tr_queue (examine u st e) = tr_queue st ∧
  tr_reached_by (examine u st e) = tr_reached_by st.
Proof.
  intros Hw Hne Hnew. unfold examine. rewrite Hw. by rewrite !decide_False.
Qed.

Lemma examine_recorded u st e r :
  tree (tr_view st) !! neighbour u e = Some r →
  e ∈ crossEdges (tr_view st) →
  examine u st e = st.
Proof.
  intros Hw He. unfold examine. rewrite Hw.
  destruct (decide _); [done|]. by rewrite decide_True.
Qed.

Lemma examine_parent_edge u st e r :
  tree (tr_view st) !! neighbour u e = Some r →
  tr_reached_by st !! u = Some e →
  examine u st e = st.
Proof. intros Hw He. unfold examine. rewrite Hw. by rewrite decide_True. Qed.

Lemma examine_unvisited u st e :
  tree (tr_view st) !! neighbour u e = None →
  crossEdges (tr_view (examine u st e)) = crossEdges (tr_view st) ∧
  tree (tr_view (examine u st e)) = add_child u (neighbour u e) (tree (tr_view st)) ∧
  tr_queue (examine u st e) = tr_queue st ++ [neighbour u e] ∧
  tr_reached_by (examine u st e) = <[neighbour u e := e]> (tr_reached_by st).
Proof. intros Hw. unfold examine. by rewrite Hw. Qed.

(** Step 4 of the traversal, for any state: an edge that leads to a
    visited neighbour and is not the edge to the parent is in [crossEdges]
    afterwards, and tree, queue and tree edges are what they were. *)
Lemma examine_cross_edge u st e r :
  tree (tr_view st) !! neighbour u e = Some r →
  tr_reached_by st !! u ≠ Some e →
  e ∈ crossEdges (tr_view (examine u st e)) ∧
  (∀ e', e' ∈ crossEdges (tr_view st) → e' ∈ crossEdges (tr_view (examine u st e))) ∧
  tree (tr_view (examine u st e)) = tree (tr_view st) ∧
  tr_queue (examine u st e) = tr_queue st ∧
  tr_reached_by (examine u st e) = tr_reached_by st.
Proof.
  intros Hw Hne. destruct (decide (e ∈ crossEdges (tr_view st))) as [Hin|Hnew].
  - by rewrite (examine_recorded u st e r).
  - destruct (examine_visited u st e r Hw Hne Hnew) as (-> & -> & -> & ->).
    split_and!; try done.
    + apply elem_of_app. right. by left.
    + intros e' He'. apply elem_of_app. by left.
Qed.

Lemma dom_add_child u w (m : gmap N VertexRelation) :
  dom (add_child u w m) =@{gset N} {[w]} ∪ dom m.
Proof. unfold add_child. by rewrite dom_insert_L, dom_alter_L. Qed.

Lemma lookup_add_child_parent u w x (m : gmap N VertexRelation) r p :
  x ≠ w → m !! x = Some r → parent r = p →
  ∃ r', add_child u w m !! x = Some r' ∧ parent r' = p.
Proof.
  intros Hne Hx Hp. unfold add_child. rewrite lookup_insert_ne by done.
  destruct (decide (x = u)) as [->|Hxu].
  - rewrite lookup_alter_eq, Hx. simpl. by eexists.
  - rewrite lookup_alter_ne by done. by exists r.
Qed.

Lemma lookup_add_child u w x (m : gmap N VertexRelation) r :
  add_child u w m !! x = Some r →
  (x = w ∧ r = mkRelation u ∅) ∨
  (x ≠ w ∧ x = u ∧
   ∃ r0, m !! u = Some r0 ∧ r = mkRelation (parent r0) (children r0 ∪ {[w]})) ∨
  (x ≠ w ∧ x ≠ u ∧ m !! x = Some r).
Proof.
  unfold add_child. destruct (decide (x = w)) as [->|Hxw].
  - rewrite lookup_insert_eq. intros [= <-]. by left.
  - rewrite lookup_insert_ne by done.
    destruct (decide (x = u)) as [->|Hxu].
    + rewrite lookup_alter_eq. intros Hr. right. left.
      destruct (m !! u) as [r0|]; [|done]. injection Hr as <-.
      split; [done|]. split; [done|]. by exists r0.
    + rewrite lookup_alter_ne by done. intros Hr. right. by right.
Qed.

Lemma tree_edge_insert st st' w e e0 :
  tr_reached_by st !! w = None →
  tr_reached_by st' = <[w := e]> (tr_reached_by st) →
  tree_edge st' e0 ↔ tree_edge st e0 ∨ e0 = e.
Proof.
  intros Hnone Heq. unfold tree_edge. rewrite Heq. split.
  - intros (x & Hx). destruct (decide (x = w)) as [->|Hne].
    + rewrite lookup_insert_eq in Hx. right. congruence.
    + rewrite lookup_insert_ne in Hx by done. left. by exists x.
  - intros [(x & Hx)| ->].
    + exists x. rewrite lookup_insert_ne; [done|]. intros ->. congruence.
    + exists w. by rewrite lookup_insert_eq.
Qed.

(** The shape of the tree depends on the tree and the tree edges only. *)
Lemma tree_shape_same root st st' :
  tree (tr_view st') = tree (tr_view st) →
  tr_reached_by st' = tr_reached_by st →
  tree_shape root st → tree_shape root st'.
Proof. intros Ht Hr [H1 H2 H3 H4]. split; rewrite ?Ht, ?Hr; done. Qed.

(** A new child [w] of [u], reached by [e], keeps the shape. *)
Lemma tree_shape_add_child root st st' u w e :
  tree_shape root st →
  u ∈ dom (tree (tr_view st)) → w ∉ dom (tree (tr_view st)) →
  neighbour w e = u →
  (∀ x e0, tr_reached_by st !! x = Some e0 →
     x ∈ dom (tree (tr_view st)) ∧ neighbour x e0 ∈ dom (tree (tr_view st))) →
  tree (tr_view st') = add_child u w (tree (tr_view st)) →
  tr_reached_by st' = <[w := e]> (tr_reached_by st) →
  tree_shape root st'.
Proof.
  intros [(r0 & Hroot & Hpar) Hre Hall Hch] Hu Hw Hnb Hreach Ht Hr.
  assert (root ≠ w) as Hrw.
  { intros ->. apply Hw. apply elem_of_dom. by eexists. }
  assert (u ≠ w) as Huw by (intros ->; done).
  assert (tr_reached_by st !! w = None) as Hwr.
  { destruct (tr_reached_by st !! w) as [e0|] eqn:Hx; [|done].
    by destruct (Hreach w e0 Hx) as [? _]. }
  split; rewrite ?Ht, ?Hr.
  - by apply (lookup_add_child_parent u w root _ r0).
  - by rewrite lookup_insert_ne.
  - intros x. rewrite dom_add_child. intros Hx Hne.
    destruct (decide (x = w)) as [->|Hxw].
    + rewrite lookup_insert_eq. by eexists.
    + rewrite lookup_insert_ne by done. apply Hall; [set_solver|done].
  - intros x r w' Hx.
    apply lookup_add_child in Hx
      as [[-> ->]|[(Hxw & -> & r1 & Hr1 & ->)|(Hxw & Hxu & Hx)]]; simpl.
    + split; [set_solver|]. intros (e0 & He0 & Hn).
      destruct (decide (w' = w)) as [->|Hne].
      * rewrite lookup_insert_eq in He0. injection He0 as <-. congruence.
      * rewrite lookup_insert_ne in He0 by done.
        destruct (Hreach w' e0 He0) as [_ Hin]. by rewrite Hn in Hin.
    + destruct (decide (w' = w)) as [->|Hne].
      * rewrite lookup_insert_eq. split; [|set_solver]. intros _. by exists e.
      * rewrite lookup_insert_ne by done. rewrite <- (Hch u r1 w' Hr1). set_solver.
    + destruct (decide (w' = w)) as [->|Hne].
      * rewrite lookup_insert_eq. rewrite (Hch x r w Hx), Hwr. split.
        -- by intros (e0 & ? & _).
        -- intros (e0 & [= <-] & Hn). congruence.
      * rewrite lookup_insert_ne by done. apply (Hch x r w' Hx).
Qed.

Lemma scanning_visited g root P u seen st x e :
  scanning g root P u seen st → tr_reached_by st !! x = Some e →
  x ∈ dom (tree (tr_view st)) ∧ neighbour x e ∈ dom (tree (tr_view st)).
Proof.
  intros Hsc Hx. destruct (sc_reached _ _ _ _ _ _ Hsc x e Hx) as (_ & (r & Hr & _) & Hn).
  split; [apply elem_of_dom; by eexists|].
  rewrite (sc_dom _ _ _ _ _ _ Hsc). apply elem_of_list_to_set, elem_of_app.
  destruct Hn as [Hn|[-> _]]; [by left|right; left].
Qed.

Lemma examine_keeps_scanning g root P u seen st e :
  no_dangling_edges g →
  scanning g root P u seen st →
  e ∈ incident_edges u g → e ∉ seen →
  scanning g root P u (seen ++ [e]) (examine u st e).
Proof.
  intros Hdang Hsc He Hfresh.
  pose proof (λ x e0, scanning_visited g root P u seen st x e0 Hsc) as Hvisited.
  destruct Hsc as [Hnd Hdom Hlive Hcover Hseen Honce Hcross Hreach Hshape].
  pose proof He as (se & Hse & Hdesc & Hu)%elem_of_incident.
  set (w := neighbour u e).
  assert (u ∈ dom (tree (tr_view st))) as Hudom.
  { rewrite Hdom. set_solver. }
  assert (u ∉ P) as HuP.
  { apply NoDup_app in Hnd as (_ & Hdisj & _). intros Hin.
    apply (Hdisj u Hin). left. }
  assert (∀ st', st' = st →
            (tree_edge st e ∨ e ∈ crossEdges (tr_view st)) →
            scanning g root P u (seen ++ [e]) st') as Hsame.
  { intros st' -> Hoe. split; try done.
    - intros e0 [Hin| ->%list_elem_of_singleton]%elem_of_app; [by apply Hseen|done].
    - intros x e0 Hx. destruct (Hreach x e0 Hx) as (H1 & H2 & H3).
      split; [done|]. split; [done|]. rewrite elem_of_app. naive_solver. }
  destruct (tree (tr_view st) !! w) as [r|] eqn:Hw.
  - (* the neighbour has been visited *)
    assert (w ∈ dom (tree (tr_view st))) as Hwdom by (apply elem_of_dom; eauto).
    destruct (decide (tr_reached_by st !! u = Some e)) as [Hpe|Hpe].
    { apply Hsame; [by apply (examine_parent_edge u st e r)|]. left. by exists u. }
    destruct (decide (e ∈ crossEdges (tr_view st))) as [Hrec|Hnew].
    { apply Hsame; [by apply (examine_recorded u st e r)|]. by right. }
    destruct (examine_visited u st e r Hw Hpe Hnew) as (Hc & Ht & Hq & Hr).
    assert (∀ e0, tree_edge (examine u st e) e0 ↔ tree_edge st e0) as Hte.
    { intros e0. unfold tree_edge. by rewrite Hr. }
    split; rewrite ?Hc, ?Ht, ?Hq, ?Hr; try done.
    + intros u' e0 Hu' He0. rewrite Hte, elem_of_app.
      destruct (Hcover u' e0 Hu' He0); auto.
    + intros e0 [Hin| ->%list_elem_of_singleton]%elem_of_app.
      * rewrite Hte, elem_of_app. destruct (Hseen e0 Hin); auto.
      * right. rewrite elem_of_app. right. by left.
    + apply NoDup_app. split; [done|]. split; [|apply NoDup_singleton].
      by intros e0 Hin ->%list_elem_of_singleton.
    + intros e0 [Hin| ->%list_elem_of_singleton]%elem_of_app; rewrite Hte.
      { by apply Hcross. }
      split.
      * intros (x & Hx). destruct (Hreach x e Hx) as (Hinc & _ & Hpar).
        apply elem_of_incident in Hinc as (_ & _ & _ & Hxe).
        destruct (decide (x = u)) as [->|Hxu]; [done|].
        destruct (neighbour_other u x e Hu Hxe Hxu) as [Hnx _].
        rewrite Hnx in Hpar. destruct Hpar as [Hpar|[_ Hpar]]; done.
      * destruct (endpoints_of_incident u e Hu) as [[-> | ->] [-> | ->]]; done.
    + intros x e0 Hx. destruct (Hreach x e0 Hx) as (H1 & H2 & H3).
      split; [done|]. split; [done|]. rewrite elem_of_app. naive_solver.
    + by apply (tree_shape_same root st).
  - (* the neighbour is new *)
    destruct (examine_unvisited u st e Hw) as (Hc & Ht & Hq & Hr).
    fold w in Ht, Hq, Hr.
    assert (w ∉ dom (tree (tr_view st))) as Hwdom by (by apply not_elem_of_dom).
    assert (w ≠ u) as Hwu by (intros ->; done).
    assert (tr_reached_by st !! w = None) as Hwr.
    { destruct (tr_reached_by st !! w) as [e0|] eqn:Hx; [|done].
      destruct (Hreach w e0 Hx) as (_ & (r & Hr' & _) & _). congruence. }
    pose proof (tree_edge_insert st (examine u st e) w e) as Hte.
    specialize (λ e0, Hte e0 Hwr Hr).
    assert (ed_source e = w ∨ ed_target e = w) as Hwe.
    { destruct (neighbour_endpoint u e) as [H|H]; fold w in H; auto. }
    destruct (neighbour_other u w e Hu Hwe Hwu) as [Hback _].
    split; rewrite ?Hc, ?Ht, ?Hq, ?Hr.
    + rewrite app_comm_cons, app_assoc. apply NoDup_app.
      split; [done|]. split; [|apply NoDup_singleton].
      intros x Hx ->%list_elem_of_singleton. apply Hwdom. rewrite Hdom.
      by apply elem_of_list_to_set.
    + rewrite dom_add_child, Hdom, app_comm_cons, (app_assoc P).
      rewrite (list_to_set_app_L (P ++ u :: tr_queue st)). set_solver.
    + intros v. rewrite app_comm_cons, app_assoc, elem_of_app.
      intros [Hv| ->%list_elem_of_singleton]; [by apply Hlive|].
      destruct (incident_live u e g Hdang He) as [Hs Htg].
      destruct (neighbour_endpoint u e) as [H|H]; fold w in H; by rewrite H.
    + intros u' e0 Hu' He0. rewrite Hte. destruct (Hcover u' e0 Hu' He0); auto.
    + intros e0 [Hin| ->%list_elem_of_singleton]%elem_of_app; rewrite Hte.
      * destruct (Hseen e0 Hin); auto.
      * auto.
    + done.
    + intros e0 Hin. destruct (Hcross e0 Hin) as (Hnt & Hs & Htg).
      rewrite Hte, dom_add_child. split; [|set_solver].
      intros [Hold| ->]; [done|]. destruct Hwe as [<-|<-]; done.
    + intros x e0. destruct (decide (x = w)) as [->|Hxw].
      * rewrite lookup_insert_eq. intros [= <-].
        split; [by apply incident_neighbour|]. split.
        -- exists (mkRelation u ∅). unfold add_child. rewrite lookup_insert_eq.
           split; [done|]. simpl. by rewrite Hback.
        -- right. rewrite Hback.
           split; [done|]. rewrite elem_of_app. right. by left.
      * rewrite lookup_insert_ne by done. intros Hx.
        destruct (Hreach x e0 Hx) as (H1 & (r & Hr1 & Hr2) & H3).
        split; [done|]. split.
        -- by apply (lookup_add_child_parent u w x _ r).
        -- rewrite elem_of_app. naive_solver.
    + by apply (tree_shape_add_child root st _ u w e).
Qed.

(** What the comment on [crossEdges] in [TreeView.hpp] says of edges that
    lead to a vertex the traversal is done with: examining one changes
    nothing, for it is the edge to the parent or was recorded when it was
    met from its other end. *)
Lemma examine_finished_neighbour g root P u seen st e :
  scanning g root P u seen st →
  e ∈ incident_edges u g → e ∉ seen → neighbour u e ∈ P →
  examine u st e = st.
Proof.
  intros [Hnd Hdom Hlive Hcover Hseen Honce Hcross Hreach Hshape] He Hfresh Hw.
  pose proof He as (se & Hse & Hdesc & Hu)%elem_of_incident.
  assert (u ∉ P) as HuP.
  { apply NoDup_app in Hnd as (_ & Hdisj & _). intros Hin.
    apply (Hdisj u Hin). left. }
  assert (neighbour u e ∈ dom (tree (tr_view st))) as Hwdom.
  { rewrite Hdom. apply elem_of_list_to_set, elem_of_app. by left. }
  apply elem_of_dom in Hwdom as [r Hr].
  destruct (decide (tr_reached_by st !! u = Some e)) as [Hpe|Hpe];
    [by apply (examine_parent_edge u st e r)|].
  destruct (Hcover _ e Hw (incident_neighbour u e g He)) as [(x & Hx)|Hrec];
    [|by apply (examine_recorded u st e r)].
  exfalso. destruct (Hreach x e Hx) as (Hinc & _ & Hpar).
  apply elem_of_incident in Hinc as (_ & _ & _ & Hxe).
  destruct (decide (x = u)) as [->|Hxu]; [done|].
  destruct (neighbour_other u x e Hu Hxe Hxu) as [Hnx _].
  rewrite Hnx in Hpar. destruct Hpar as [Hpar|[_ Hpar]]; done.
Qed.

Lemma process_keeps_scanning g root P u rest :
  no_dangling_edges g →
  ∀ seen st,
    NoDup (seen ++ rest) →
    (∀ e, e ∈ rest → e ∈ incident_edges u g) →
    scanning g root P u seen st →
    scanning g root P u (seen ++ rest) (foldl (examine u) st rest).
Proof.
  intros Hdang. induction rest as [|e rest IH]; intros seen st Hnd Hinc Hsc; simpl.
  - by rewrite app_nil_r.
  - rewrite cons_middle, app_assoc. apply IH.
    + by rewrite <- app_assoc.
    + intros e' He'. apply Hinc. by right.
    + apply examine_keeps_scanning; [done|done|apply Hinc; left|].
      apply NoDup_app in Hnd as (_ & Hdisj & _). intros Hin.
      apply (Hdisj e Hin). left.
Qed.

(** One round: the head of the queue is processed. *)
Lemma round_keeps_settled g root P st u q :
  NoDup (se_id <$> m_edges g) → no_dangling_edges g →
  settled g root P st → tr_queue st = u :: q →
  settled g root (P ++ [u])
    (process g u {| tr_view := tr_view st; tr_queue := q;
                    tr_reached_by := tr_reached_by st |}).
Proof.
  intros Hid Hdang [Hnd Hdom Hlive Hcover Honce Hcross Hreach Hshape] Hq.
  rewrite Hq in *.
  set (st0 := {| tr_view := tr_view st; tr_queue := q;
                 tr_reached_by := tr_reached_by st |}).
  assert (scanning g root P u [] st0) as Hsc.
  { split; try done.
    - intros e Hin. by apply not_elem_of_nil in Hin.
    - intros x e Hx. destruct (Hreach x e Hx) as (H1 & H2 & H3). auto.
    - by apply (tree_shape_same root st). }
  pose proof (process_keeps_scanning g root P u (incident_edges u g) Hdang [] st0)
    as Hscan.
  simpl in Hscan. specialize (Hscan (incident_NoDup u g Hid) (λ e H, H) Hsc).
  fold (process g u st0) in Hscan.
  destruct Hscan as [Hnd' Hdom' Hlive' Hcover' Hseen' Honce' Hcross' Hreach' Hshape'].
  split.
  - by rewrite <- app_assoc.
  - by rewrite <- app_assoc.
  - intros v. rewrite <- app_assoc. apply Hlive'.
  - intros u' e [Hin| ->%list_elem_of_singleton]%elem_of_app He.
    + exact (Hcover' u' e Hin He).
    + exact (Hseen' e He).
  - done.
  - done.
  - intros x e Hx. destruct (Hreach' x e Hx) as (H1 & H2 & H3).
    split; [done|]. split; [done|]. rewrite elem_of_app.
    destruct H3 as [H3|[-> _]]; [by left|right; by left].
  - done.
Qed.

Lemma settled_queue_bound g root P st :
  settled g root P st → length P + length (tr_queue st) ≤ length (m_vertices g).
Proof.
  intros [Hnd _ Hlive _ _ _ _ _].
  rewrite <- length_app, <- (length_fmap sv_desc (m_vertices g)).
  apply submseteq_length, NoDup_submseteq; [done|]. apply Hlive.
Qed.

(** The rounds go on until the queue is empty, and as many rounds as the
    graph has vertices are enough for that. *)
Lemma traverse_settles g root fuel :
  NoDup (se_id <$> m_edges g) → no_dangling_edges g →
  ∀ P st,
    settled g root P st →
    length (m_vertices g) ≤ length P + fuel →
    tr_queue (traverse g fuel st) = [] ∧ ∃ P', settled g root P' (traverse g fuel st).
Proof.
  intros Hid Hdang. induction fuel as [|n IH]; intros P st Hs Hlen; simpl.
  - pose proof (settled_queue_bound g root P st Hs) as Hb.
    split; [|by exists P]. apply length_zero_iff_nil. lia.
  - destruct (tr_queue st) as [|u q] eqn:Hq.
    + split; [done|by exists P].
    + apply (IH (P ++ [u])).
      * by apply round_keeps_settled.
      * rewrite length_app. simpl. lia.
Qed.

Lemma start_settled g root :
  root ∈ vertex_set g → settled g root [] (start root).
Proof.
  intros Hroot. split; simpl.
  - apply NoDup_singleton.
  - rewrite dom_singleton_L. set_solver.
  - intros v ->%list_elem_of_singleton. done.
  - intros u e Hin. by apply not_elem_of_nil in Hin.
  - constructor.
  - intros e Hin. by apply not_elem_of_nil in Hin.
  - intros x e Hx. by rewrite lookup_empty in Hx.
  - split; simpl.
    + exists (mkRelation null_vertex ∅). by rewrite lookup_singleton_eq.
    + apply lookup_empty.
    + intros w. rewrite dom_singleton_L. set_solver.
    + intros x r w. destruct (decide (x = root)) as [->|Hne].
      * rewrite lookup_singleton_eq. intros [= <-]. simpl. split; [set_solver|].
        intros (e & He & _). by rewrite lookup_empty in He.
      * by rewrite lookup_singleton_ne.
Qed.

(** C9, on the traversal of the design document.  An examined edge that
    leads to a visited neighbour and is not the edge by which the current
    vertex was reached is in [crossEdges] afterwards, and the examination
    leaves the tree, the queue and the edges of the tree as they were.
    For a root in the graph the construction returns with an empty queue,
    and in what it returns: every edge at a vertex of the tree is either
    the edge by which the tree reached one of its vertices, and then it is
    not in [crossEdges], or it is in [crossEdges], once, and is no edge of
    the tree; and the tree holds the tree edges and nothing else: the root
    has no parent, every other vertex has the far end of the edge it was
    reached by as its parent, and the children of a vertex are exactly the
    vertices reached from it.  So no edge recorded in [crossEdges] has put
    a parent or a child into the tree, whether it closes on an ancestor, a
    sibling branch or the vertex itself. *)
Theorem cross_edges_recorded g root :
  (∀ u st e r,
     tree (tr_view st) !! neighbour u e = Some r →
     tr_reached_by st !! u ≠ Some e →
     e ∈ crossEdges (tr_view (examine u st e)) ∧
     (∀ e', e' ∈ crossEdges (tr_view st) → e' ∈ crossEdges (tr_view (examine u st e))) ∧
     tree (tr_view (examine u st e)) = tree (tr_view st) ∧
     tr_queue (examine u st e) = tr_queue st ∧
     tr_reached_by (examine u st e) = tr_reached_by st) ∧
  (NoDup (se_id <$> m_edges g) → no_dangling_edges g → root ∈ vertex_set g →
   ∃ st,
     build root g = Returns st ∧
     getTree root g = Returns (tr_view st) ∧
     tr_queue st = [] ∧
     (∀ u e, u ∈ dom (tree (tr_view st)) → e ∈ incident_edges u g →
        (tree_edge st e ∧ e ∉ crossEdges (tr_view st)) ∨
        (¬ tree_edge st e ∧ e ∈ crossEdges (tr_view st))) ∧
     NoDup (crossEdges (tr_view st)) ∧
     (∀ e, e ∈ crossEdges (tr_view st) →
        ¬ tree_edge st e ∧
        ed_source e ∈ dom (tree (tr_view st)) ∧
        ed_target e ∈ dom (tree (tr_view st))) ∧
     (∃ r, tree (tr_view st) !! root = Some r ∧ parent r = null_vertex) ∧
     tr_reached_by st !! root = None ∧
     (∀ w r, tree (tr_view st) !! w = Some r → w ≠ root →
        ∃ e, tr_reached_by st !! w = Some e ∧ e ∈ incident_edges w g ∧
             parent r = neighbour w e ∧ parent r ∈ dom (tree (tr_view st))) ∧
     (∀ u r w, tree (tr_view st) !! u = Some r →
        (w ∈ children r ↔
         ∃ e, tr_reached_by st !! w = Some e ∧ neighbour w e = u)) ∧
     (∀ w e, tr_reached_by st !! w = Some e →
        w ∈ dom (tree (tr_view st)) ∧ w ≠ root ∧ e ∈ incident_edges w g)).
Proof.
  split; [intros u st e r; apply examine_cross_edge|].
  intros Hid Hdang Hroot.
  destruct (traverse_settles g root (length (m_vertices g)) Hid Hdang [] (start root))
    as (Hq & P & Hs); [by apply start_settled|simpl; lia|].
  exists (traverse g (length (m_vertices g)) (start root)).
  unfold getTree, build. rewrite (proj2 (is_live_true root g) Hroot).
  split; [done|]. split; [done|]. split; [done|].
  destruct Hs as [Hnd Hdom Hlive Hcover Honce Hcross Hreach [Hr0 Hre Hall Hch]].
  rewrite Hq, app_nil_r in Hdom.
  split_and!; try done.
  - intros u e Hu He. rewrite Hdom in Hu. apply elem_of_list_to_set in Hu.
    destruct (Hcover u e Hu He) as [Ht|Hc].
    + left. split; [done|]. intros Hc. by apply Hcross in Hc as [? _].
    + right. split; [|done]. by apply Hcross in Hc as [? _].
  - intros w r Hw Hne.
    destruct (Hall w) as [e He]; [apply elem_of_dom; by eexists|done|].
    destruct (Hreach w e He) as (H1 & (r' & Hr' & Hp) & H3).
    rewrite Hw in Hr'. injection Hr' as <-.
    exists e. split; [done|]. split; [done|]. split; [done|].
    rewrite Hp, Hdom. by apply elem_of_list_to_set.
  - intros w e Hw. destruct (Hreach w e Hw) as (H1 & (r & Hr & Hp) & H3).
    split; [apply elem_of_dom; by eexists|]. split; [|done].
    intros ->. congruence.
Qed.

End TraversalFacts.

(** The cycle [a → b → c → a] from root [a]: [b] and [c] become children
    of [a], and the edge [b → c], met from [b] and from [c], is the one
    edge in [crossEdges]; a second derivation gives the same view. *)
Lemma cycle_abc_traversal :
  ∃ st,
    build 1 (_graph cycle_abc) = Returns st ∧
    crossEdges (tr_view st) = [EdgeDesc 2 3 2] ∧
    tr_reached_by st !! 2%N = Some (EdgeDesc 1 2 1) ∧
    tr_reached_by st !! 3%N = Some (EdgeDesc 3 1 3) ∧
    tree (tr_view st) !! 1%N = Some (mkRelation null_vertex {[2%N; 3%N]}) ∧
    tree (tr_view st) !! 2%N = Some (mkRelation 1 ∅) ∧
    tree (tr_view st) !! 3%N = Some (mkRelation 1 ∅).
Proof. eexists. split; [reflexivity|]. repeat split; vm_compute; reflexivity. Qed.

(** A path has no cross edge. *)
Lemma path_abc_traversal :
  ∃ st,
    build 1 (_graph path_abc) = Returns st ∧
    crossEdges (tr_view st) = [] ∧
    tree (tr_view st) !! 1%N = Some (mkRelation null_vertex {[2%N]}) ∧
    tree (tr_view st) !! 2%N = Some (mkRelation 1 {[3%N]}) ∧
    tree (tr_view st) !! 3%N = Some (mkRelation 2 ∅).
Proof. eexists. split; [reflexivity|]. repeat split; vm_compute; reflexivity. Qed.

(** An edge back to the parent that is not the edge the child was reached
    by: of [a → b] and [b → a] the first becomes the tree edge and the
    second is recorded. *)
Lemma two_way_traversal :
  ('(_, t) ← add_edge "a" "b" 10%N two_frames; '(_, t) ← add_edge "b" "a" 20%N t; mret t)
    = Returns two_way ∧
  ∃ st,
    build 1 (_graph two_way) = Returns st ∧
    crossEdges (tr_view st) = [EdgeDesc 2 1 2] ∧
    tr_reached_by st !! 2%N = Some (EdgeDesc 1 2 1) ∧
    tree (tr_view st) !! 1%N = Some (mkRelation null_vertex {[2%N]}) ∧
    tree (tr_view st) !! 2%N = Some (mkRelation 1 ∅).
Proof.
  split; [vm_compute; reflexivity|].
  eexists. split; [reflexivity|]. repeat split; vm_compute; reflexivity.
Qed.

Lemma cross_edges_recorded_witness :
  (EdgeDesc 1 1 9 ∈ crossEdges (tr_view (examine 1 (start 1) (EdgeDesc 1 1 9))) ∧
   (∀ e', e' ∈ crossEdges (tr_view (start 1)) →
          e' ∈ crossEdges (tr_view (examine 1 (start 1) (EdgeDesc 1 1 9)))) ∧
   tree (tr_view (examine 1 (start 1) (EdgeDesc 1 1 9))) = tree (tr_view (start 1)) ∧
   tr_queue (examine 1 (start 1) (EdgeDesc 1 1 9)) = tr_queue (start 1) ∧
   tr_reached_by (examine 1 (start 1) (EdgeDesc 1 1 9)) = tr_reached_by (start 1)) ∧
  ∃ st,
    build 1 (_graph cycle_abc) = Returns st ∧
    crossEdges (tr_view st) = [EdgeDesc 2 3 2] ∧
    tree (tr_view st) !! 1%N = Some (mkRelation null_vertex {[2%N; 3%N]}) ∧
    tree (tr_view st) !! 2%N = Some (mkRelation 1 ∅) ∧
    tree (tr_view st) !! 3%N = Some (mkRelation 1 ∅) ∧
    getTree 1 (_graph cycle_abc) = Returns (tr_view st) ∧
    tr_queue st = [] ∧
    (∀ u e, u ∈ dom (tree (tr_view st)) → e ∈ incident_edges u (_graph cycle_abc) →
       (tree_edge st e ∧ e ∉ crossEdges (tr_view st)) ∨
       (¬ tree_edge st e ∧ e ∈ crossEdges (tr_view st))) ∧
    NoDup (crossEdges (tr_view st)) ∧
    (∀ e, e ∈ crossEdges (tr_view st) →
       ¬ tree_edge st e ∧
       ed_source e ∈ dom (tree (tr_view st)) ∧
       ed_target e ∈ dom (tree (tr_view st))) ∧
    (∃ r, tree (tr_view st) !! 1%N = Some r ∧ parent r = null_vertex) ∧
    tr_reached_by st !! 1%N = None ∧
    (∀ w r, tree (tr_view st) !! w = Some r → w ≠ 1%N →
       ∃ e, tr_reached_by st !! w = Some e ∧ e ∈ incident_edges w (_graph cycle_abc) ∧
            parent r = neighbour w e ∧ parent r ∈ dom (tree (tr_view st))) ∧
    (∀ u r w, tree (tr_view st) !! u = Some r →
       (w ∈ children r ↔
        ∃ e, tr_reached_by st !! w = Some e ∧ neighbour w e = u)) ∧
    (∀ w e, tr_reached_by st !! w = Some e →
       w ∈ dom (tree (tr_view st)) ∧ w ≠ 1%N ∧ e ∈ incident_edges w (_graph cycle_abc)).
Proof.
  destruct (cross_edges_recorded (_graph cycle_abc) 1%N) as [Hstep Hbuild].
  split.
  - apply (Hstep 1%N (start 1) (EdgeDesc 1 1 9) (mkRelation null_vertex ∅)).
    + reflexivity.
    + discriminate.
  - destruct Hbuild as (st & Hst & Hrest).
    + apply graph_wf_cycle_abc.
    + apply graph_wf_cycle_abc.
    + vm_compute. set_solver.
    + exists st. split; [exact Hst|].
      injection Hst as <-.
      split; [vm_compute; reflexivity|]. split; [vm_compute; reflexivity|].
      split; [vm_compute; reflexivity|]. split; [vm_compute; reflexivity|].
      exact Hrest.
Defined.

(** * Further properties of the labeled graph *)

Ltac fields :=
  cbn [m_edges m_vertices m_next_vertex m_next_edge _graph _map] in *.

Section LabelFacts.
Context {Transform : Type} {allocator : Allocator}.
Implicit Types (g : directed_graph Transform) (t : LabeledTransformTree Transform).
Implicit Types (u v w : N) (e : stored_edge Transform) (ed : edge_descriptor).

Lemma shrinks_refl t : shrinks t t.
Proof. done. Qed.

Lemma shrinks_trans t1 t2 t3 : shrinks t1 t2 → shrinks t2 t3 → shrinks t1 t3.
Proof. intros (H1 & H2) (H3 & H4). split; [by auto|congruence]. Qed.

Lemma shrinks_without_edges drop t : shrinks t (without_edges drop t).
Proof. done. Qed.

Lemma shrinks_without_vertex v t : shrinks t (without_vertex v t).
Proof.
  split; [|done]. intros s Hs. unfold without_vertex in Hs. fields.
  by apply elem_of_filter_bool in Hs as [? _].
Qed.

Lemma shrinks_pruned v t : shrinks t (pruned v t).
Proof.
  unfold pruned. destruct (decide _); [apply shrinks_without_vertex|done].
Qed.

Lemma frames_indexed_shrinks t t' : frames_indexed t → shrinks t t' → frames_indexed t'.
Proof. intros Hidx (Hsub & Hmap) s Hs. rewrite Hmap. auto. Qed.

(** The removals only take away: no vertex appears and the index
    stays. *)
Lemma remove_edge_vd_shrinks u v d t t' :
  remove_edge_vd u v d t = Returns t' → shrinks t t'.
Proof.
  unfold remove_edge_vd. destruct (decide (u ∈ vertices t)) as [Hu|Hu].
  - rewrite on_graph_remove_edge by done. simpl.
    destruct d; [|by intros [= <-]].
    intros (t2 & H2 & H3)%bind_returns.
    apply remove_if_isolated_returns in H2 as ->.
    apply remove_if_isolated_returns in H3 as ->.
    eapply shrinks_trans; [|apply shrinks_pruned].
    eapply shrinks_trans; [|apply shrinks_pruned]. done.
  - unfold boost_on_graph, boost_remove_edge.
    by rewrite (proj2 (is_live_false u _) Hu).
Qed.

Lemma remove_edge_ed_shrinks ed d t t' :
  remove_edge_ed ed d t = Returns t' → shrinks t t'.
Proof.
  unfold remove_edge_ed. destruct (decide (ed ∈ edges t)) as [Hed|Hed].
  - rewrite on_graph_remove_edge_desc by done. simpl.
    destruct d; [|by intros [= <-]].
    intros (t2 & H2 & H3)%bind_returns.
    apply remove_if_isolated_returns in H2 as ->.
    apply remove_if_isolated_returns in H3 as ->.
    eapply shrinks_trans; [|apply shrinks_pruned].
    eapply shrinks_trans; [|apply shrinks_pruned]. done.
  - unfold boost_on_graph, boost_remove_edge_desc.
    destruct (is_edge ed (_graph t)) eqn:HE; [|done].
    by apply is_edge_true in HE.
Qed.

Lemma remove_vertex_vd_shrinks v t t' :
  remove_vertex_vd v t = Returns t' → shrinks t t'.
Proof.
  destruct (decide (v ∈ vertices t)) as [Hv|Hv].
  - rewrite remove_vertex_vd_live by done. intros [= <-].
    apply (shrinks_without_vertex v (without_edges (touches v) t)).
  - unfold remove_vertex_vd, boost_on_graph, boost_clear_vertex.
    by rewrite (proj2 (is_live_false v _) Hv).
Qed.

(** What [add_edge] leaves alone: the vertex list, the index and the
    serial number for vertices; and its flag is always true.  A new edge
    gets an identity that is not null and not that of another edge. *)
Lemma add_edge_vd_returns u v tf t ed b t' :
  add_edge_vd u v tf t = Returns ((ed, b), t') →
  b = true ∧ ed_source ed = u ∧ ed_target ed = v ∧
  m_vertices (_graph t') = m_vertices (_graph t) ∧
  _map t' = _map t ∧
  m_next_vertex (_graph t') = m_next_vertex (_graph t) ∧
  u ∈ vertices t ∧
  ((m_edges (_graph t')
      = boost_set_transform ed tf <$> m_edges (_graph t) ∧ ed ∈ edges t) ∨
   (∃ i, (i ∉ se_id <$> m_edges (_graph t)) ∧ i ≠ 0%N ∧
      m_edges (_graph t') = m_edges (_graph t) ++ [StoredEdge i u v tf] ∧
      ed = EdgeDesc u v i ∧
      edge_count u v (_graph t) = 0 ∧ v ∈ vertices t)).
Proof.
  unfold add_edge_vd, boost_edge.
  destruct (is_live u (_graph t)) eqn:Hu; [|done]. apply is_live_true in Hu.
  destruct (List.find (joins u v) (m_edges (_graph t))) as [e0|] eqn:Hfind; simpl.
  - pose proof (find_some_bool _ _ _ Hfind) as [Hin Hj].
    unfold boost_on_graph, boost_put. rewrite (is_edge_elem _ _ Hin). simpl.
    intros [= <- <- <-]. apply joins_descriptor in Hj as [Hs Ht].
    repeat split; try done. left. split; [done|].
    apply elem_of_edges. by exists e0.
  - unfold boost_add_edge.
    destruct (is_live u (_graph t) && is_live v (_graph t)) eqn:Hlive; [|done].
    simpl. intros [= <- <- <-].
    apply andb_true_iff in Hlive as [_ Hv]. apply is_live_true in Hv.
    repeat split; try done. right. eexists.
    split; [apply new_address_fresh|]. split; [apply new_address_not_null|].
    repeat split; try done.
    apply filter_none_length. by apply find_none_bool.
Qed.

Lemma frames_indexed_add_edge_vd u v tf t r t' :
  frames_indexed t → add_edge_vd u v tf t = Returns (r, t') → frames_indexed t'.
Proof.
  intros Hidx Hadd. destruct r as [ed b].
  apply add_edge_vd_returns in Hadd as (_ & _ & _ & Hv & Hm & _).
  intros s. rewrite Hv, Hm. apply Hidx.
Qed.

(** A vertex added under the name of its frame is indexed under it, and
    the entries of the other vertices stay: a name that names a vertex of
    the graph is in the index, so no vertex is added under it. *)
Lemma frames_indexed_labeled_add_vertex l p t :
  name p = l → frames_indexed t → frames_indexed (boost_labeled_add_vertex l p t).2.
Proof.
  intros Hname Hidx. unfold boost_labeled_add_vertex.
  destruct (_map t !! l) as [v0|] eqn:Hl; [done|]. simpl.
  intros s [Hs| ->%list_elem_of_singleton]%elem_of_app; simpl.
  - rewrite lookup_insert_ne; [by apply Hidx|].
    intros ->. rewrite (Hidx s Hs) in Hl. done.
  - rewrite Hname. apply lookup_insert_eq.
Qed.

Lemma built_graph_wf t : built t → graph_wf (_graph t).
Proof.
  induction 1 as [|nu n t v t' _ IH Hop|f t v t' _ IH Hop|a b tf t r t' _ IH Hop
                  |u v tf t r t' _ IH Hop|l t t' _ IH Hop|v t t' _ IH Hop
                  |ed d t t' _ IH Hop|u v d t t' _ IH Hop|a b d t t' _ IH Hop
                  |t _ IH].
  - apply graph_wf_empty.
  - by eapply graph_wf_add_vertex.
  - by eapply graph_wf_add_vertex_frame.
  - by eapply graph_wf_add_edge.
  - by eapply graph_wf_add_edge_vd.
  - by eapply graph_wf_remove_vertex.
  - by eapply graph_wf_remove_vertex_vd.
  - by eapply graph_wf_remove_edge_ed.
  - by eapply graph_wf_remove_edge_vd.
  - by eapply graph_wf_remove_edge.
  - by apply graph_wf_clear.
Qed.

Lemma built_frames_indexed t : built t → frames_indexed t.
Proof.
  induction 1 as [|nu n t v t' _ IH Hop|f t v t' _ IH Hop|a b tf t r t' _ IH Hop
                  |u v tf t r t' _ IH Hop|l t t' _ IH Hop|v t t' _ IH Hop
                  |ed d t t' _ IH Hop|u v d t t' _ IH Hop|a b d t t' _ IH Hop
                  |t _ IH].
  - intros s Hs. by apply not_elem_of_nil in Hs.
  - injection Hop as Heq.
    pose proof (frames_indexed_labeled_add_vertex n (Frame_of_name nu n) t eq_refl IH)
      as Hnew. by rewrite Heq in Hnew.
  - injection Hop as Heq.
    pose proof (frames_indexed_labeled_add_vertex (name f) f t eq_refl IH) as Hnew.
    by rewrite Heq in Hnew.
  - rewrite add_edge_as_vd in Hop. by eapply frames_indexed_add_edge_vd.
  - by eapply frames_indexed_add_edge_vd.
  - rewrite remove_vertex_as_vd in Hop.
    eapply frames_indexed_shrinks; [done|by eapply remove_vertex_vd_shrinks].
  - eapply frames_indexed_shrinks; [done|by eapply remove_vertex_vd_shrinks].
  - eapply frames_indexed_shrinks; [done|by eapply remove_edge_ed_shrinks].
  - eapply frames_indexed_shrinks; [done|by eapply remove_edge_vd_shrinks].
  - eapply frames_indexed_shrinks; [done|by eapply remove_edge_vd_shrinks].
  - intros s Hs. by apply not_elem_of_nil in Hs.
Qed.

Lemma get_frame_stored g (s : stored_vertex) :
  NoDup (vertex_set g) → s ∈ m_vertices g →
  boost_get_frame (sv_desc s) g = Returns (sv_frame s).
Proof.
  unfold boost_get_frame, vertex_set. generalize (m_vertices g). intros l.
  induction l as [|a l IH]; simpl; intros Hnd Hs.
  - by apply not_elem_of_nil in Hs.
  - apply NoDup_cons in Hnd as [Hna Hnd].
    destruct (decide (sv_desc a = sv_desc s)) as [Heq|Hne].
    + rewrite bool_decide_eq_true_2 by done.
      apply elem_of_cons in Hs as [->|Hs]; [done|].
      exfalso. apply Hna. rewrite Heq. apply list_elem_of_fmap. by exists s.
    + rewrite bool_decide_eq_false_2 by done.
      apply elem_of_cons in Hs as [->|Hs]; [done|]. by apply IH.
Qed.


Lemma stored_frame t v :
  NoDup (vertex_set (_graph t)) → v ∈ vertices t →
  ∃ s, s ∈ m_vertices (_graph t) ∧ sv_desc s = v ∧
       getFrame v t = Returns (sv_frame s).
Proof.
  intros Hnd (s & -> & Hs)%list_elem_of_fmap. exists s.
  split; [done|]. split; [done|]. by apply get_frame_stored.
Qed.


Lemma frame_leads_back t v :
  NoDup (vertex_set (_graph t)) → frames_indexed t → v ∈ vertices t →
  ∃ f, getFrame v t = Returns f ∧ vertex (name f) t = v.
Proof.
  intros Hnd Hidx Hv. destruct (stored_frame t v Hnd Hv) as (s & Hs & <- & ->).
  eexists. split; [done|]. unfold vertex, boost_vertex_by_label.
  by rewrite (Hidx s Hs).
Qed.

(** X1: every graph a client can get to, from the empty graph by the
    methods of the class that return, whatever addresses the allocator
    hands out, is well formed: vertex identities are distinct and not
    null, edge identities are distinct and not null, every edge has both
    endpoints in the graph and no ordered pair is joined twice.  Every
    vertex is indexed under the name of its frame, so its frame can be
    read, the name of its frame leads back to it through [vertex], and no
    two vertices of the graph carry frames of the same name. *)
Theorem built_well_formed t :
  built t →
  graph_wf (_graph t) ∧
  frames_indexed t ∧
  (∀ v, v ∈ vertices t → ∃ f, getFrame v t = Returns f ∧ vertex (name f) t = v) ∧
  (∀ v w f f', v ∈ vertices t → w ∈ vertices t →
     getFrame v t = Returns f → getFrame w t = Returns f' →
     name f = name f' → v = w).
Proof.
  intros Hb. pose proof (built_graph_wf t Hb) as Hwf.
  pose proof (built_frames_indexed t Hb) as Hidx.
  pose proof (frame_leads_back t) as Hback.
  specialize (λ v, Hback v (wf_vertices _ Hwf) Hidx).
  split_and!; try done.
  intros v w f f' Hv Hw Hf Hf' Hname.
  destruct (Hback v Hv) as (f1 & H1 & <-). destruct (Hback w Hw) as (f2 & H2 & <-).
  congruence.
Qed.

(** X2: a label outlives its vertex, and the address of a removed vertex
    may come back.  When the index still holds label [l] for an address
    that is no vertex of the graph any more, and the allocator hands that
    address out for a vertex added under a new name [n], both names
    resolve to the new vertex and lookup by name and lookup by identity
    disagree: [l] leads to a frame named [n]. *)
Theorem stale_label_names_new_frame nu l n v t :
  _map t !! l = Some v → v ∉ vertices t → _map t !! n = None →
  new_address (m_next_vertex (_graph t)) (vertices t) = v →
  ∃ t',
    add_vertex nu n t = Returns (v, t') ∧
    l ≠ n ∧ vertex l t' = v ∧ vertex n t' = v ∧
    (v ∈ vertices t') ∧
    getFrame (vertex l t') t' = Returns (Frame_of_name nu n) ∧
    name (Frame_of_name nu n) ≠ l ∧
    ¬ labels_wf t'.
Proof.
  intros Hl Hdead Hn Hnew.
  assert (l ≠ n) as Hln by (intros ->; congruence).
  unfold add_vertex, boost_labeled_add_vertex, boost_add_vertex.
  rewrite Hn. fold (vertices t). rewrite Hnew.
  eexists. split; [done|].
  unfold vertex, boost_vertex_by_label, getFrame, boost_get_frame, vertices, vertex_set.
  fields. rewrite lookup_insert_eq, lookup_insert_ne, Hl by done. simpl.
  split_and!; try done.
  - rewrite fmap_app. apply elem_of_app. right. by left.
  - by rewrite find_frame_app_new.
  - intros [Hinj _]. apply Hln. apply (Hinj l n v); fields.
    + by rewrite lookup_insert_ne.
    + by rewrite lookup_insert_eq.
Qed.

Lemma find_app_some {A} (p : A → bool) (l k : list A) x :
  List.find p l = Some x → List.find p (l ++ k) = Some x.
Proof.
  induction l as [|a l IH]; simpl; [done|]. destruct (p a); [done|apply IH].
Qed.

Lemma find_app_none {A} (p : A → bool) (l k : list A) :
  List.find p l = None → List.find p (l ++ k) = List.find p k.
Proof.
  induction l as [|a l IH]; simpl; [done|]. destruct (p a); [done|apply IH].
Qed.

(** X3: [add_vertex] followed by [vertex] under the same label gives the
    descriptor [add_vertex] returned.  The call changes nothing else:
    every other label resolves as before, every vertex stays with its
    frame, and the edges are the same. *)
Theorem add_vertex_then_lookup nu n t v t' :
  add_vertex nu n t = Returns (v, t') →
  vertex n t' = v ∧
  (∀ m, m ≠ n → vertex m t' = vertex m t) ∧
  (∀ w, w ∈ vertices t → w ∈ vertices t' ∧ getFrame w t' = getFrame w t) ∧
  m_edges (_graph t') = m_edges (_graph t).
Proof.
  unfold add_vertex, boost_labeled_add_vertex, vertex, boost_vertex_by_label.
  destruct (_map t !! n) as [v0|] eqn:Hn; simpl; intros [= <- <-].
  - rewrite Hn. done.
  - simpl. rewrite lookup_insert_eq. split_and!; try done.
    + intros m Hm. by rewrite lookup_insert_ne.
    + intros w Hw. unfold vertices, vertex_set. simpl. split.
      * rewrite fmap_app. apply elem_of_app. by left.
      * unfold getFrame, boost_get_frame. simpl.
        destruct (List.find _ (m_vertices (_graph t))) as [s|] eqn:Hf.
        -- by rewrite (find_app_some _ _ _ _ Hf).
        -- exfalso. rewrite find_none_bool in Hf.
           apply list_elem_of_fmap in Hw as (s & -> & Hs).
           specialize (Hf s Hs). by apply bool_decide_eq_false in Hf.
Qed.


Lemma find_fmap_same {A} (p : A → bool) (f : A → A) (l : list A) :
  (∀ x, p (f x) = p x) → List.find p (f <$> l) = f <$> List.find p l.
Proof.
  intros H. induction l as [|a l IH]; simpl; [done|].
  rewrite H. destruct (p a); [done|apply IH].
Qed.

Lemma find_filter_keep {A} (p q : A → bool) (l : list A) :
  (∀ x, p x = true → q x = true) →
  List.find p (List.filter q l) = List.find p l.
Proof.
  intros H. induction l as [|a l IH]; simpl; [done|].
  destruct (q a) eqn:Hq; simpl.
  - destruct (p a); [done|apply IH].
  - destruct (p a) eqn:Hp; [|apply IH]. apply H in Hp. congruence.
Qed.

Lemma stored_at_set_transform ed' ed tf e :
  stored_at ed' (boost_set_transform ed tf e) = stored_at ed' e.
Proof. unfold stored_at. by rewrite descriptor_set_transform. Qed.

Lemma stored_at_true ed e : stored_at ed e = true ↔ descriptor_of e = ed.
Proof. unfold stored_at. apply bool_decide_eq_true. Qed.

Lemma joins_pair u v u' v' e :
  joins u v e = true → (u', v') ≠ (u, v) → joins u' v' e = false.
Proof.
  intros [Hs Ht]%joins_descriptor Hne.
  destruct (joins u' v' e) eqn:Hj; [|done].
  apply joins_descriptor in Hj as [Hs' Ht']. congruence.
Qed.

(** X5: what [add_edge] by descriptors does when it returns.  Its flag is
    true, whether the edge was created or updated; the edge it returns
    runs from the first to the second vertex and carries the new
    transform; every other edge keeps its transform; only the count of
    the ordered pair may change, from none to one; and vertices and label
    index are untouched. *)
Theorem add_edge_touches_one_edge u v tf t ed b t' :
  add_edge_vd u v tf t = Returns ((ed, b), t') →
  b = true ∧ source ed = u ∧ target ed = v ∧
  getTransform ed t' = Returns tf ∧
  (∀ ed', ed' ≠ ed → getTransform ed' t' = getTransform ed' t) ∧
  edge_count u v (_graph t') = Nat.max 1 (edge_count u v (_graph t)) ∧
  (∀ u' v', (u', v') ≠ (u, v) →
     edge_count u' v' (_graph t') = edge_count u' v' (_graph t)) ∧
  vertices t' = vertices t ∧ _map t' = _map t.
Proof.
  intros Hadd.
  apply add_edge_vd_returns in Hadd
    as (-> & Hs & Ht & Hv & Hm & _ & Hu & Hcase).
  split; [done|]. split; [done|]. split; [done|].
  unfold getTransform, boost_get_transform, edge_count, vertices, vertex_set.
  rewrite Hv, Hm.
  destruct Hcase as [[-> Hed]|(i & Hi & Hi0 & -> & -> & Hcount & Hvl)].
  - apply elem_of_edges in Hed as (e0 & He0 & Hd0).
    split_and!; try done.
    + rewrite find_fmap_same by (intros; apply stored_at_set_transform).
      destruct (List.find (stored_at ed) (m_edges (_graph t))) as [e1|] eqn:Hf.
      * apply find_some_bool in Hf as [_ Hst]. simpl.
        unfold boost_set_transform. by rewrite Hst.
      * rewrite find_none_bool in Hf. specialize (Hf e0 He0).
        by apply bool_decide_eq_false in Hf.
    + intros ed' Hne.
      rewrite find_fmap_same by (intros; apply stored_at_set_transform).
      destruct (List.find (stored_at ed') (m_edges (_graph t))) as [e1|] eqn:Hf;
        [|done].
      apply find_some_bool in Hf as [_ Hst]. simpl.
      unfold boost_set_transform.
      destruct (stored_at ed e1) eqn:Hst'; [|done].
      apply stored_at_true in Hst, Hst'. congruence.
    + rewrite filter_fmap_same by (intros; apply joins_set_transform).
      rewrite length_fmap.
      assert (e0 ∈ List.filter (joins u v) (m_edges (_graph t))) as Hin.
      { apply elem_of_filter_bool. split; [done|].
        apply joins_descriptor. by rewrite Hd0. }
      destruct (List.filter (joins u v) (m_edges (_graph t))); simpl; [|lia].
      by apply not_elem_of_nil in Hin.
    + intros u' v' _.
      rewrite filter_fmap_same by (intros; apply joins_set_transform).
      by rewrite length_fmap.
  - assert (∀ e, e ∈ m_edges (_graph t) → joins u v e = false) as Hnone
      by by apply filter_none_length.
    assert (joins u v (StoredEdge i u v tf) = true) as Hnew.
    { apply joins_descriptor. done. }
    split_and!; try done.
    + rewrite find_app_none; simpl.
      * by rewrite (proj2 (stored_at_true _ _)).
      * apply find_none_bool. intros e He.
        destruct (stored_at _ e) eqn:Hst; [|done].
        apply stored_at_true in Hst. specialize (Hnone e He).
        assert (joins u v e = true); [|congruence].
        apply joins_descriptor. by rewrite Hst.
    + intros ed' Hne.
      destruct (List.find (stored_at ed') (m_edges (_graph t))) as [e1|] eqn:Hf.
      * by rewrite (find_app_some _ _ _ _ Hf).
      * rewrite find_app_none by done. simpl.
        destruct (stored_at ed' _) eqn:Hst; [|done].
        apply stored_at_true in Hst. unfold descriptor_of in Hst. simpl in Hst.
        congruence.
    + rewrite List.filter_app, length_app. simpl. rewrite Hnew.
      unfold edge_count in Hcount. rewrite Hcount. done.
    + intros u' v' Hne. rewrite List.filter_app, length_app. simpl.
      rewrite (joins_pair u v u' v' _ Hnew Hne). simpl. lia.
Qed.

(** X6: a label the index does not hold resolves to the null vertex, and
    in a well-formed graph no operation reports it: removing the vertex,
    adding an edge from or to it, and removing an edge from it dereference
    the null descriptor.  Only the plain removal of an edge to it goes
    through, leaving the graph as it is; the destructive one reaches the
    null descriptor in its target check. *)
Theorem unknown_label_is_not_reported t l :
  graph_wf (_graph t) → _map t !! l = None →
  vertex l t = null_vertex ∧
  remove_vertex l t = Undefined ∧
  (∀ b tf, add_edge l b tf t = Undefined) ∧
  (∀ a tf, add_edge a l tf t = Undefined) ∧
  (∀ b d, remove_edge l b d t = Undefined) ∧
  (∀ a va, names a va t →
     remove_edge a l false t = Returns t ∧ remove_edge a l true t = Undefined).
Proof.
  intros Hwf Hl.
  assert (boost_vertex_by_label l t = null_vertex) as Hnull
    by (unfold boost_vertex_by_label; by rewrite Hl).
  pose proof (null_vertex_dead _ Hwf) as Hdead.
  assert (∀ u e, e ∈ m_edges (_graph t) → joins u null_vertex e = false) as Hnone.
  { intros u e He. destruct (joins u null_vertex e) eqn:Hj; [|done].
    apply joins_descriptor in Hj as [_ Ht]. simpl in Ht.
    destruct (wf_endpoints _ Hwf e He) as [_ Hin].
    rewrite Ht in Hin. by apply is_live_false in Hdead. }
  split_and!.
  - done.
  - unfold remove_vertex, boost_clear_vertex_by_label, boost_on_graph,
      boost_clear_vertex. by rewrite Hnull, Hdead.
  - intros b tf. unfold add_edge, boost_edge_by_label, boost_edge.
    by rewrite Hnull, Hdead.
  - intros a tf. unfold add_edge, boost_edge_by_label, boost_edge.
    rewrite Hnull.
    destruct (is_live (boost_vertex_by_label a t) (_graph t)) eqn:Ha; simpl; [|done].
    rewrite (proj2 (find_none_bool _ _) (Hnone _)). simpl.
    unfold boost_add_edge_by_label, boost_add_edge.
    by rewrite Hnull, Hdead, andb_false_r.
  - intros b d. unfold remove_edge, remove_edge_vd, boost_on_graph, boost_remove_edge.
    by rewrite Hnull, Hdead.
  - intros a va Ha. unfold remove_edge.
    rewrite (vertex_by_label_names a va t Ha), Hnull. destruct Ha as [_ Ha].
    assert (without_edges (joins va null_vertex) t = t) as Hsame
      by (apply without_edges_none; apply Hnone).
    unfold remove_edge_vd. rewrite on_graph_remove_edge, Hsame by done. simpl.
    split; [done|]. rewrite remove_if_isolated_live by done. simpl.
    apply remove_if_isolated_dead. rewrite vertices_pruned.
    intros [Hin _]. by apply is_live_false in Hdead.
Qed.

Lemma edge_count_without_joins u v u' v' t :
  edge_count u' v' (_graph (without_edges (joins u v) t))
  = if decide ((u', v') = (u, v)) then 0 else edge_count u' v' (_graph t).
Proof.
  unfold edge_count, without_edges, boost_with_edges. fields.
  destruct (decide ((u', v') = (u, v))) as [[= -> ->]|Hne].
  - apply filter_none_length. intros e He.
    apply elem_of_filter_bool in He as [_ He]. by apply negb_true_iff in He.
  - f_equal. generalize (m_edges (_graph t)). intros l.
    induction l as [|a l IH]; simpl; [done|].
    destruct (joins u v a) eqn:Hj; simpl.
    + by rewrite (joins_pair u v u' v' a Hj Hne).
    + destruct (joins u' v' a); by rewrite IH.
Qed.

(** X7: the plain removal of the edges from [u] to [v] needs only [u] to
    be a vertex of the graph, and fails on nothing else: with no such
    edge it returns the graph as it is.  Afterwards [edge] finds no edge
    from [u] to [v]; every other ordered pair, the opposite direction
    included, keeps its edges and their transforms; vertices and label
    index are untouched.  With [u] not in the graph the call dereferences
    a dead descriptor. *)
Theorem remove_edge_plain u v t :
  (u ∈ vertices t →
   ∃ t', remove_edge_vd u v false t = Returns t' ∧
     boost_edge u v (_graph t') = Returns (EdgeDesc u v 0, false) ∧
     (∀ u' v', (u', v') ≠ (u, v) →
        edge_count u' v' (_graph t') = edge_count u' v' (_graph t)) ∧
     (∀ ed, (source ed, target ed) ≠ (u, v) →
        getTransform ed t' = getTransform ed t) ∧
     m_vertices (_graph t') = m_vertices (_graph t) ∧ _map t' = _map t ∧
     (edge_count u v (_graph t) = 0 → t' = t)) ∧
  (u ∉ vertices t → ∀ d, remove_edge_vd u v d t = Undefined).
Proof.
  split.
  - intros Hu. exists (without_edges (joins u v) t).
    split; [unfold remove_edge_vd; by rewrite on_graph_remove_edge|].
    split_and!; try done.
    + unfold boost_edge.
      erewrite (proj2 (is_live_true u _)); [|exact Hu].
      rewrite (proj2 (find_none_bool _ _)); [done|].
      intros e He. by apply (edges_without_edges (joins u v) t) in He as [_ ?].
    + intros u' v' Hne. rewrite edge_count_without_joins. by rewrite decide_False.
    + intros ed Hne. unfold getTransform, boost_get_transform, without_edges,
        boost_with_edges. fields.
      rewrite find_filter_keep; [done|].
      intros e Hst. apply stored_at_true in Hst. apply negb_true_iff.
      destruct (joins u v e) eqn:Hj; [|done].
      apply joins_descriptor in Hj as [Hs Ht]. rewrite Hst in Hs, Ht.
      unfold source, target in Hne. congruence.
    + intros Hcount. apply without_edges_none. by apply filter_none_length.
  - intros Hu d. unfold remove_edge_vd, boost_on_graph, boost_remove_edge.
    by rewrite (proj2 (is_live_false u _) Hu).
Qed.

(** X8: adding an edge between two vertices that had none and removing it
    again gives back the graph: the same vertices, the same edges with
    their transforms and the same label index; only the allocation mark
    for edges has moved on. *)
Theorem add_then_remove_edge u v tf t :
  u ∈ vertices t → v ∈ vertices t → edge_count u v (_graph t) = 0 →
  ∃ ed t1 t2,
    add_edge_vd u v tf t = Returns ((ed, true), t1) ∧
    remove_edge_vd u v false t1 = Returns t2 ∧
    m_vertices (_graph t2) = m_vertices (_graph t) ∧
    m_edges (_graph t2) = m_edges (_graph t) ∧
    _map t2 = _map t ∧
    m_next_vertex (_graph t2) = m_next_vertex (_graph t) ∧
    m_next_edge (_graph t2) = N.succ (m_next_edge (_graph t)).
Proof.
  intros Hu Hv Hcount.
  assert (∀ e, e ∈ m_edges (_graph t) → joins u v e = false) as Hnone
    by by apply filter_none_length.
  unfold add_edge_vd, boost_edge.
  rewrite (proj2 (is_live_true u _) Hu).
  rewrite (proj2 (find_none_bool _ _) Hnone). simpl.
  unfold boost_add_edge.
  rewrite (proj2 (is_live_true u _) Hu), (proj2 (is_live_true v _) Hv). simpl.
  eexists _, _, _. split; [done|].
  unfold remove_edge_vd. rewrite on_graph_remove_edge by done. simpl.
  split; [done|]. unfold without_edges, boost_with_edges. fields.
  split_and!; try done.
  rewrite List.filter_app. simpl.
  match goal with
  | |- context [joins u v (StoredEdge ?i u v tf)] =>
      assert (joins u v (StoredEdge i u v tf) = true) as -> by by apply joins_descriptor
  end.
  simpl. rewrite app_nil_r. apply filter_true_id.
  intros e He. by rewrite (Hnone e He).
Qed.

Lemma filter_out_one {A B} `{EqDecision B} (f : A → B) (l : list A) (x : A) :
  NoDup (f <$> l) → x ∈ l →
  length (List.filter (fun y => negb (bool_decide (f y = f x))) l) + 1 = length l.
Proof.
  induction l as [|a l IH]; simpl; intros Hnd Hx.
  - by apply not_elem_of_nil in Hx.
  - apply NoDup_cons in Hnd as [Hna Hnd].
    destruct (decide (f a = f x)) as [Heq|Hne].
    + rewrite bool_decide_eq_true_2 by done. simpl.
      rewrite filter_true_id; [lia|].
      intros y Hy. apply negb_true_iff, bool_decide_eq_false. intros Hyx.
      apply Hna. rewrite Heq, <- Hyx. apply list_elem_of_fmap. by exists y.
    + rewrite bool_decide_eq_false_2 by done. simpl.
      apply elem_of_cons in Hx as [->|Hx]; [done|]. rewrite <- (IH Hnd Hx). lia.
Qed.

Lemma stored_at_by_id (l : list (stored_edge Transform)) e0 :
  NoDup (se_id <$> l) → e0 ∈ l →
  List.filter (fun e => negb (stored_at (descriptor_of e0) e)) l
  = List.filter (fun e => negb (bool_decide (se_id e = se_id e0))) l.
Proof.
  intros Hnd He0. induction l as [|a l IH]; simpl; [done|].
  apply NoDup_cons in Hnd as [Hna Hnd].
  assert (stored_at (descriptor_of e0) a = bool_decide (se_id a = se_id e0)) as ->.
  { unfold stored_at. destruct (decide (se_id a = se_id e0)) as [Heq|Hne].
    - rewrite !bool_decide_eq_true_2; [done|done|].
      apply elem_of_cons in He0 as [->|He0]; [done|].
      exfalso. apply Hna. rewrite Heq. apply list_elem_of_fmap. by exists e0.
    - rewrite !bool_decide_eq_false_2; [done|done|]. intros Hd. apply Hne.
      by injection Hd. }
  apply elem_of_cons in He0 as [->|He0].
  - rewrite bool_decide_eq_true_2 by done. simpl.
    rewrite !filter_true_id; [done| |].
    + intros y Hy. apply negb_true_iff, bool_decide_eq_false. intros Hyx.
      apply Hna. rewrite <- Hyx. apply list_elem_of_fmap. by exists y.
    + intros y Hy. apply negb_true_iff, bool_decide_eq_false. intros Hyx.
      apply Hna. injection Hyx as _ _ <-. apply list_elem_of_fmap. by exists y.
  - destruct (negb _); simpl; by rewrite IH.
Qed.

(** X9: the plain removal by edge descriptor takes out exactly the edge
    the descriptor denotes: one edge fewer, the descriptor no longer in
    the graph, every other edge still there with its transform, vertices
    and index untouched.  A descriptor that denotes no edge of the graph
    is not reported: the call dereferences it. *)
Theorem remove_edge_by_descriptor ed t :
  NoDup (se_id <$> m_edges (_graph t)) →
  (ed ∈ edges t →
   ∃ t', remove_edge_ed ed false t = Returns t' ∧
     num_edges t' + 1 = num_edges t ∧
     (∀ ed', ed' ∈ edges t' ↔ ed' ∈ edges t ∧ ed' ≠ ed) ∧
     (∀ ed', ed' ≠ ed → getTransform ed' t' = getTransform ed' t) ∧
     m_vertices (_graph t') = m_vertices (_graph t) ∧ _map t' = _map t) ∧
  (ed ∉ edges t → ∀ d, remove_edge_ed ed d t = Undefined).
Proof.
  intros Hid. split.
  - intros Hed. exists (without_edges (stored_at ed) t).
    split; [unfold remove_edge_ed; by rewrite on_graph_remove_edge_desc|].
    pose proof Hed as (e0 & He0 & <-)%elem_of_edges.
    split_and!; try done.
    + unfold num_edges, without_edges, boost_with_edges. fields.
      rewrite stored_at_by_id by done. by apply (filter_out_one se_id).
    + intros ed'. rewrite !elem_of_edges. split.
      * intros (e & He & <-). apply edges_without_edges in He as [He Hst].
        split; [by exists e|]. intros Heq.
        apply (proj2 (stored_at_true _ _)) in Heq. congruence.
      * intros [(e & He & <-) Hne]. exists e. split; [|done].
        apply edges_without_edges. split; [done|].
        destruct (stored_at _ e) eqn:Hst; [|done]. by apply stored_at_true in Hst.
    + intros ed' Hne. unfold getTransform, boost_get_transform, without_edges,
        boost_with_edges. fields.
      rewrite find_filter_keep; [done|].
      intros e Hst. apply stored_at_true in Hst. apply negb_true_iff.
      destruct (stored_at (descriptor_of e0) e) eqn:Hst'; [|done].
      apply stored_at_true in Hst'. congruence.
  - intros Hed d. unfold remove_edge_ed, boost_on_graph, boost_remove_edge_desc.
    destruct (is_edge ed (_graph t)) eqn:HE; [|done].
    by apply is_edge_true in HE.
Qed.

Lemma remove_edge_vd_destructive_live u v t :
  u ∈ vertices t → v ∈ vertices t →
  (u = v → ¬ isolated u (without_edges (joins u v) t)) →
  remove_edge_vd u v true t
  = Returns (pruned v (pruned u (without_edges (joins u v) t))).
Proof.
  intros Hu Hv Hloop. destruct (decide (u = v)) as [<-|Hne].
  - specialize (Hloop eq_refl).
    unfold remove_edge_vd. rewrite on_graph_remove_edge by done. simpl.
    rewrite remove_if_isolated_live by done. simpl.
    rewrite (pruned_connected u _ Hloop).
    by rewrite remove_if_isolated_live.
  - by apply remove_edge_vd_distinct.
Qed.

Lemma remove_edge_ed_destructive_live ed t :
  ed ∈ edges t → no_dangling_edges (_graph t) →
  (source ed = target ed → ¬ isolated (source ed) (without_edges (stored_at ed) t)) →
  remove_edge_ed ed true t
  = Returns (pruned (target ed) (pruned (source ed) (without_edges (stored_at ed) t))).
Proof.
  intros Hed Hdang Hloop. destruct (decide (source ed = target ed)) as [Heq|Hne].
  - specialize (Hloop Heq).
    pose proof Hed as (e & He & Hd)%elem_of_edges.
    destruct (Hdang e He) as [Hs _].
    assert (source ed ∈ vertices t) as Hsv
      by (unfold source, vertices; by rewrite <- Hd).
    unfold remove_edge_ed. rewrite on_graph_remove_edge_desc by done. simpl.
    change (ed_source ed) with (source ed). change (ed_target ed) with (target ed).
    rewrite <- Heq. rewrite remove_if_isolated_live by done. simpl.
    rewrite (pruned_connected _ _ Hloop).
    by rewrite remove_if_isolated_live.
  - by apply remove_edge_ed_distinct.
Qed.

(** X10: the destructive removal by vertex descriptors, on two vertices
    of the graph that are different, or equal with another edge left at
    the vertex.  It returns; no edge from [u] to [v] is left and no other
    edge is touched; of the vertices exactly those endpoints go that have
    no edge left, so a vertex with a remaining edge, in either direction,
    is never removed and no third vertex ever is; the label index is
    untouched and no edge loses an endpoint. *)
Theorem remove_edge_destructive u v t :
  u ∈ vertices t → v ∈ vertices t →
  (u = v → ¬ isolated u (without_edges (joins u v) t)) →
  no_dangling_edges (_graph t) →
  ∃ t',
    remove_edge_vd u v true t = Returns t' ∧
    (∀ e, e ∈ m_edges (_graph t') ↔ e ∈ m_edges (_graph t) ∧ joins u v e = false) ∧
    (∀ w, w ∈ vertices t' ↔
          w ∈ vertices t ∧ (w = u ∨ w = v → ¬ isolated w t')) ∧
    no_dangling_edges (_graph t') ∧
    _map t' = _map t.
Proof.
  intros Hu Hv Hloop Hdang.
  set (t1 := without_edges (joins u v) t).
  exists (pruned v (pruned u t1)).
  split; [by apply remove_edge_vd_destructive_live|].
  assert (∀ w, w ∈ vertices (pruned v (pruned u t1)) ↔
               w ∈ vertices t ∧ (w = u ∨ w = v → ¬ isolated w t1)) as Hvs.
  { intros w. rewrite !vertices_pruned, isolated_pruned. unfold t1.
    rewrite vertices_without_edges. naive_solver. }
  split_and!.
  - intros e. rewrite !edges_pruned. apply edges_without_edges.
  - intros w. rewrite Hvs. by rewrite !isolated_pruned.
  - intros e. rewrite !edges_pruned. intros He.
    pose proof He as [He0 _]%edges_without_edges.
    destruct (Hdang e He0) as [Hs Ht].
    change (vertex_set (_graph ?x)) with (vertices x). rewrite !Hvs.
    split; (split; [done|]); intros _ Hiso; rewrite isolated_iff in Hiso;
      specialize (Hiso e He); apply touches_false_iff in Hiso as [? ?]; done.
  - by rewrite !(proj2 (proj2 (marks_pruned _ _))).
Qed.

(** X11: the destructive removal by edge descriptor, on an edge of the
    graph that is no self-loop, or a self-loop with another edge left at
    its vertex.  It returns; exactly that edge goes; of the vertices
    exactly those endpoints of the edge go that have no edge left; the
    label index is untouched and no edge loses an endpoint. *)
Theorem remove_edge_by_descriptor_destructive ed t :
  ed ∈ edges t → no_dangling_edges (_graph t) →
  (source ed = target ed → ¬ isolated (source ed) (without_edges (stored_at ed) t)) →
  ∃ t',
    remove_edge_ed ed true t = Returns t' ∧
    (∀ ed', ed' ∈ edges t' ↔ ed' ∈ edges t ∧ ed' ≠ ed) ∧
    (∀ w, w ∈ vertices t' ↔
          w ∈ vertices t ∧ (w = source ed ∨ w = target ed → ¬ isolated w t')) ∧
    no_dangling_edges (_graph t') ∧
    _map t' = _map t.
Proof.
  intros Hed Hdang Hloop.
  set (t1 := without_edges (stored_at ed) t).
  exists (pruned (target ed) (pruned (source ed) t1)).
  split; [by apply remove_edge_ed_destructive_live|].
  assert (∀ w, w ∈ vertices (pruned (target ed) (pruned (source ed) t1)) ↔
               w ∈ vertices t ∧ (w = source ed ∨ w = target ed → ¬ isolated w t1))
    as Hvs.
  { intros w. rewrite !vertices_pruned, isolated_pruned. unfold t1.
    rewrite vertices_without_edges. naive_solver. }
  split_and!.
  - intros ed'. rewrite !elem_of_edges. rewrite !edges_pruned. split.
    + intros (e & He & <-). apply edges_without_edges in He as [He Hst].
      split; [by exists e|]. intros Heq.
      apply (proj2 (stored_at_true _ _)) in Heq. congruence.
    + intros [(e & He & <-) Hne]. exists e. split; [|done].
      apply edges_without_edges. split; [done|].
      destruct (stored_at _ e) eqn:Hst; [|done]. by apply stored_at_true in Hst.
  - intros w. rewrite Hvs. by rewrite !isolated_pruned.
  - intros e. rewrite !edges_pruned. intros He.
    pose proof He as [He0 _]%edges_without_edges.
    destruct (Hdang e He0) as [Hs Ht].
    change (vertex_set (_graph ?x)) with (vertices x). rewrite !Hvs.
    split; (split; [done|]); intros _ Hiso; rewrite isolated_iff in Hiso;
      specialize (Hiso e He); apply touches_false_iff in Hiso as [? ?]; done.
  - by rewrite !(proj2 (proj2 (marks_pruned _ _))).
Qed.



(** X13: [clear] empties the graph and not the label index.  No vertex
    and no edge is left, yet every label still resolves as before; for a
    label that was indexed the frame cannot be read, [add_vertex] returns
    the old descriptor and leaves the graph empty, and an edge from it
    cannot be added. *)
Theorem clear_keeps_labels t l v :
  _map t !! l = Some v →
  num_vertices (clear t) = 0 ∧ num_edges (clear t) = 0 ∧
  (∀ l', vertex l' (clear t) = vertex l' t) ∧
  getFrame v (clear t) = Undefined ∧
  (∀ nu, add_vertex nu l (clear t) = Returns (v, clear t)) ∧
  (∀ b tf, add_edge l b tf (clear t) = Undefined).
Proof.
  intros Hl. split_and!; try done.
  intros nu. unfold add_vertex, boost_labeled_add_vertex. simpl. by rewrite Hl.
Qed.

End LabelFacts.

(** * Further properties of tree views *)

Section TreeViewExtras.
Context {build : Build}.

(** X14: move construction hands the whole view over.  For a source whose
    publisher, if it has one, is alive, the destination ends up with
    exactly what the source held (the slots of [treeUpdated], [tree],
    [crossEdges] and the publisher), the source is left without slots and
    without publisher, and no other view changes; when the source has no
    publisher, no publisher is called. *)
Theorem move_hands_over (h : heap) (this other : N) (o : TreeView) :
  views h !! this = None → views h !! other = Some o →
  (∀ pub, publisher o = Some pub → is_Some (subscribed h !! pub)) →
  ∃ h' o',
    move_construct this other h = Returns h' ∧
    views h' !! this = Some o ∧
    views h' !! other = Some o' ∧
    treeUpdated o' = [] ∧ publisher o' = None ∧
    (∀ a, a ≠ this → a ≠ other → views h' !! a = views h !! a) ∧
    (publisher o = None → subscribed h' = subscribed h ∧ calls h' = calls h).
Proof.
  intros Ht Ho Halive.
  assert (this ≠ other) as Hne by (intros ->; congruence).
  destruct (publisher o) as [pub|] eqn:Hp.
  - destruct (Halive pub eq_refl) as [s Hs].
    destruct (move_construct_subscribed this other pub o s h Ht Ho Hp Hs)
      as (h' & Hmove & Hvt & Hvo & Hrest & _ & _).
    eexists h', _. split; [done|]. rewrite Hvt, Hvo. split_and!; try done.
    destruct o. simpl in *. by rewrite Hp.
  - unfold move_construct. rewrite Ht, Ho, Hp. unfold set_view. simpl.
    rewrite lookup_insert_eq, lookup_insert_ne, lookup_insert_eq by done. simpl.
    eexists _, _. split; [done|]. simpl.
    rewrite lookup_insert_eq, lookup_insert_ne, lookup_insert_eq by done.
    split_and!; try done.
    + destruct o. simpl in *. by rewrite Hp.
    + intros a Hat Hao. by rewrite !lookup_insert_ne.
Qed.

(** X15: a copy takes the publisher pointer along but is not registered,
    so destroying the copy calls [unsubscribeTreeView] for the copy and
    takes nothing away: every publisher has the registrations it had, the
    original among them, and the views are those from before the copy. *)
Theorem destroyed_copy_leaves_original (h : heap) (this other pub : N) (o : TreeView) :
  registrations_backed h →
  views h !! this = None → views h !! other = Some o →
  publisher o = Some pub → other ∈ registered pub h →
  ∃ h1 h2,
    copy_construct this other h = Returns h1 ∧
    destroy this h1 = Returns h2 ∧
    views h2 = views h ∧
    (∀ q, registered q h2 = registered q h) ∧
    other ∈ registered pub h2 ∧
    calls h2 = calls h ++ [unsubscribe_call pub this].
Proof.
  intros Hback Ht Ho Hp Hreg.
  assert (∃ s, subscribed h !! pub = Some s) as [s Hs].
  { unfold registered in Hreg. destruct (subscribed h !! pub); [by eexists|].
    simpl in Hreg. set_solver. }
  pose proof (registered_lookup pub s h Hs) as Hregs.
  assert (this ∉ s) as Hfresh.
  { rewrite <- Hregs. intros Hin.
    destruct (Hback pub this Hin) as (? & ? & _). congruence. }
  eexists _, _. split; [by apply copy_construct_returns|].
  split; [eapply destroy_with_publisher; [apply lookup_insert_eq|done|done]|].
  simpl. split_and!.
  - rewrite delete_insert_eq. by apply delete_id.
  - intros q. rewrite registered_insert.
    destruct (decide (q = pub)) as [->|Hq]; [|done].
    change (s ∖ {[this]} = registered pub h). rewrite Hregs. set_solver.
  - rewrite registered_insert, decide_True by done.
    rewrite Hregs in Hreg. set_solver.
  - done.
Qed.

(** X16: the move constructor takes a view for subscribed when its
    publisher pointer is set.  A copy of a subscribed view has the pointer
    without being registered, so moving such a copy registers the
    destination on top of the original: the publisher ends up with one
    registration more than before. *)
Theorem moved_copy_is_registered (h : heap) (c d other pub : N) (o : TreeView) :
  registrations_backed h →
  views h !! c = None → views h !! d = None → c ≠ d →
  views h !! other = Some o →
  publisher o = Some pub → other ∈ registered pub h →
  ∃ h1 h2,
    copy_construct c other h = Returns h1 ∧
    move_construct d c h1 = Returns h2 ∧
    registered pub h2 = registered pub h ∪ {[d]} ∧
    (d ∉ registered pub h) ∧
    calls h2 = calls h ++ [unsubscribe_call pub c; subscribe_call pub d].
Proof.
  intros Hback Hc Hd Hcd Ho Hp Hreg.
  assert (∃ s, subscribed h !! pub = Some s) as [s Hs].
  { unfold registered in Hreg. destruct (subscribed h !! pub); [by eexists|].
    simpl in Hreg. set_solver. }
  pose proof (registered_lookup pub s h Hs) as Hregs.
  assert (∀ a, views h !! a = None → a ∉ s) as Hfresh.
  { intros a Ha. rewrite <- Hregs. intros Hin.
    destruct (Hback pub a Hin) as (? & ? & _). congruence. }
  set (cv := {| treeUpdated := []; tree := tree o;
               crossEdges := crossEdges o; publisher := publisher o |}).
  set (h1 := set_view c cv h).
  assert (views h1 !! d = None) as Hd1
    by (unfold h1, set_view; simpl; by rewrite lookup_insert_ne).
  assert (views h1 !! c = Some cv) as Hc1
    by (unfold h1, set_view; simpl; apply lookup_insert_eq).
  destruct (move_construct_subscribed d c pub cv s h1 Hd1 Hc1 Hp Hs)
    as (h2 & Hmove & _ & _ & _ & Hsub & Hcalls).
  exists h1, h2. split; [by apply copy_construct_returns|].
  split; [done|]. split_and!.
  - rewrite (registered_after_insert pub pub _ h1 h2 Hsub), decide_True by done.
    rewrite Hregs. pose proof (Hfresh c Hc). set_solver.
  - rewrite Hregs. by apply Hfresh.
  - done.
Qed.

(** X17: [setPublisher] guards against a second publisher by an assertion
    only.  On a view without publisher it stores the pointer and changes
    nothing else, in either build.  On a view that has a publisher it
    stops at the assertion when assertions are compiled in.  With
    [NDEBUG] it returns: the pointer is overwritten and no publisher is
    told, so the view stays registered with the first publisher; its
    destructor then unsubscribes it from the second one only, and the
    first publisher keeps the address of a view that is gone. *)
Theorem setPublisher_guard (h : heap) (this pub : N) (tv : TreeView) :
  views h !! this = Some tv →
  (publisher tv = None →
   ∃ h', setPublisher pub this h = Returns h' ∧
     views h' !! this = Some (with_publisher (Some pub) tv) ∧
     (∀ a, a ≠ this → views h' !! a = views h !! a) ∧
     subscribed h' = subscribed h ∧ calls h' = calls h) ∧
  (∀ old, publisher tv = Some old → NDEBUG = false →
   setPublisher pub this h = Aborts) ∧
  (∀ old, publisher tv = Some old → NDEBUG = true →
   ∃ h1, setPublisher pub this h = Returns h1 ∧
     views h1 !! this = Some (with_publisher (Some pub) tv) ∧
     (∀ a, a ≠ this → views h1 !! a = views h !! a) ∧
     subscribed h1 = subscribed h ∧ calls h1 = calls h ∧
     (old ≠ pub → this ∈ registered old h → is_Some (subscribed h !! pub) →
      ∃ h2, destroy this h1 = Returns h2 ∧
        calls h2 = calls h ++ [unsubscribe_call pub this] ∧
        views h2 !! this = None ∧
        this ∈ registered old h2 ∧
        ¬ registrations_backed h2)).
Proof.
  intros Hv. split_and!.
  - intros Hp. eexists. split; [by apply setPublisher_unset|].
    unfold set_view. simpl. rewrite lookup_insert_eq. split_and!; try done.
    intros a Ha. by rewrite lookup_insert_ne.
  - intros old Hp Hdebug. unfold setPublisher, assert. rewrite Hv, Hp, Hdebug.
    by rewrite bool_decide_eq_false_2.
  - intros old Hp Hrelease.
    assert (setPublisher pub this h
            = Returns (set_view this (with_publisher (Some pub) tv) h)) as Hset.
    { unfold setPublisher, assert. by rewrite Hv, Hrelease. }
    eexists. split; [exact Hset|].
    unfold set_view. simpl. rewrite lookup_insert_eq. split_and!; try done.
    { intros a Ha. by rewrite lookup_insert_ne. }
    intros Hne Hreg [s Hs]. eexists.
    split; [eapply destroy_with_publisher; [apply lookup_insert_eq|done|done]|].
    simpl. split; [done|]. split; [apply lookup_delete_eq|].
    assert (this ∈ registered old
              {| views := delete this (<[this := with_publisher (Some pub) tv]> (views h));
                 subscribed := <[pub := s ∖ {[this]}]> (subscribed h);
                 calls := calls h ++ [unsubscribe_call pub this] |}) as Hstill.
    { rewrite registered_insert. by rewrite decide_False. }
    split; [done|]. intros Hback.
    destruct (Hback old this Hstill) as (tv' & Htv' & _).
    simpl in Htv'. by rewrite lookup_delete_eq in Htv'.
Qed.

End TreeViewExtras.

(** * Out-edges *)

Section OutEdges.
Context {Transform : Type}.
Implicit Types (t : LabeledTransformTree Transform).

Lemma out_edges_live u t :
  u ∈ vertices t →
  out_edges u t
  = Returns (descriptor_of <$>
               List.filter (fun e => bool_decide (se_source e = u)) (m_edges (_graph t))).
Proof.
  intros Hu. unfold out_edges, boost_out_edges.
  by rewrite (proj2 (is_live_true u _) Hu).
Qed.

Lemma elem_of_out_edges u ed t :
  ed ∈ descriptor_of <$>
         List.filter (fun e => bool_decide (se_source e = u)) (m_edges (_graph t))
  ↔ ed ∈ edges t ∧ source ed = u.
Proof.
  unfold edges, source. rewrite !list_elem_of_fmap. split.
  - intros (e & -> & He). apply elem_of_filter_bool in He as [He Hs].
    apply bool_decide_eq_true in Hs. split; [by exists e|done].
  - intros [(e & -> & He) Hs]. exists e. split; [done|].
    apply elem_of_filter_bool. split; [done|]. by apply bool_decide_eq_true.
Qed.

Lemma targets_distinct u (l : list (stored_edge Transform)) :
  (∀ v, length (List.filter (joins u v) l) ≤ 1) →
  NoDup (se_target <$> List.filter (fun e => bool_decide (se_source e = u)) l).
Proof.
  induction l as [|a l IH]; simpl; intros Hpar; [constructor|].
  assert (∀ v, length (List.filter (joins u v) l) ≤ 1) as Hpar'.
  { intros v. specialize (Hpar v). destruct (joins u v a); simpl in Hpar; lia. }
  destruct (bool_decide (se_source a = u)) eqn:Hs; simpl; [|by apply IH].
  apply bool_decide_eq_true in Hs.
  apply NoDup_cons. split; [|by apply IH].
  intros (e & Ht & He)%list_elem_of_fmap.
  apply elem_of_filter_bool in He as [He Hse]. apply bool_decide_eq_true in Hse.
  specialize (Hpar (se_target a)).
  assert (joins u (se_target a) a = true) as Ha by by apply joins_descriptor.
  rewrite Ha in Hpar. simpl in Hpar.
  assert (e ∈ List.filter (joins u (se_target a)) l) as Hin.
  { apply elem_of_filter_bool. split; [done|]. by apply joins_descriptor. }
  destruct (List.filter (joins u (se_target a)) l); simpl in Hpar; [|lia].
  by apply not_elem_of_nil in Hin.
Qed.

(** X18: [out_edges] in a well-formed graph.  For a vertex of the graph it
    returns the edges of the graph whose source is that vertex, each once
    and as many as its out-degree; they lead to vertices of the graph and
    no two of them lead to the same one.  For a descriptor that is no
    vertex of the graph the call reads a dead node, as [out_degree]
    does. *)
Theorem out_edges_of_vertex u t :
  graph_wf (_graph t) →
  (u ∈ vertices t →
   ∃ l, out_edges u t = Returns l ∧
     (∀ ed, ed ∈ l ↔ ed ∈ edges t ∧ source ed = u) ∧
     boost_out_degree u (_graph t) = Returns (length l) ∧
     (∀ ed, ed ∈ l → target ed ∈ vertices t) ∧
     NoDup (target <$> l) ∧ NoDup l) ∧
  (u ∉ vertices t →
   out_edges u t = Undefined ∧ boost_out_degree u (_graph t) = Undefined).
Proof.
  intros Hwf. split.
  - intros Hu. eexists. split; [by apply out_edges_live|].
    assert (NoDup (target <$> (descriptor_of <$>
              List.filter (fun e => bool_decide (se_source e = u))
                          (m_edges (_graph t))))) as Htargets.
    { rewrite <- list_fmap_compose.
      apply (targets_distinct u (m_edges (_graph t))). apply (wf_parallel _ Hwf). }
    split_and!.
    + intros ed. apply elem_of_out_edges.
    + unfold boost_out_degree.
      rewrite (proj2 (is_live_true u _) Hu). by rewrite length_fmap.
    + intros ed [(e & He & <-)%elem_of_edges _]%elem_of_out_edges.
      by destruct (wf_endpoints _ Hwf e He).
    + done.
    + by apply (NoDup_fmap_1 target).
  - intros Hu. unfold out_edges, boost_out_edges, boost_out_degree.
    by rewrite (proj2 (is_live_false u _) Hu).
Qed.

End OutEdges.

(** * The further properties on the samples *)



Lemma built_path_abc : built path_abc.
Proof.
  pose proof path_abc_built as H. unchain 4 H.
  pose proof (@built_empty N first_free).
  eauto 10 using built_add_vertex, built_add_edge.
Qed.

Lemma stale_a_built :
  ('(v, t) ← add_vertex no_uuid "a" empty_tree; remove_vertex_vd v t)
  = Returns stale_a.
Proof. vm_compute. reflexivity. Qed.

(** The graph in which the address of the removed frame [a] has come back
    for frame [b] is one a client can get to. *)
Lemma reused_address_built :
  ∃ t, add_vertex no_uuid "b" stale_a = Returns (1%N, t) ∧ built t.
Proof.
  eexists. split; [reflexivity|].
  apply (built_add_vertex no_uuid "b" stale_a 1%N); [|reflexivity].
  pose proof stale_a_built as H. unchain 1 H.
  pose proof (@built_empty N first_free).
  eauto using built_add_vertex, built_remove_vertex_vd.
Qed.

Lemma built_well_formed_witness :
  graph_wf (_graph path_abc) ∧
  frames_indexed path_abc ∧
  (∀ v, v ∈ vertices path_abc →
     ∃ f, getFrame v path_abc = Returns f ∧ vertex (name f) path_abc = v) ∧
  (∀ v w f f', v ∈ vertices path_abc → w ∈ vertices path_abc →
     getFrame v path_abc = Returns f → getFrame w path_abc = Returns f' →
     name f = name f' → v = w).
Proof. apply (built_well_formed path_abc). apply built_path_abc. Defined.

Lemma stale_label_names_new_frame_witness :
  ∃ t',
    add_vertex no_uuid "b" stale_a = Returns (1%N, t') ∧
    "a" ≠ "b" ∧ vertex "a" t' = 1%N ∧ vertex "b" t' = 1%N ∧
    (1%N ∈ vertices t') ∧
    getFrame (vertex "a" t') t' = Returns (Frame_of_name no_uuid "b") ∧
    name (Frame_of_name no_uuid "b") ≠ "a" ∧
    ¬ labels_wf t'.
Proof.
  apply (stale_label_names_new_frame no_uuid "a" "b" 1%N stale_a).
  - reflexivity.
  - vm_compute. apply not_elem_of_nil.
  - reflexivity.
  - reflexivity.
Defined.

Lemma add_vertex_then_lookup_witness :
  ∃ t',
    add_vertex no_uuid "c" two_frames = Returns (3%N, t') ∧
    vertex "c" t' = 3%N ∧
    (∀ m, m ≠ "c" → vertex m t' = vertex m two_frames) ∧
    (∀ w, w ∈ vertices two_frames →
       w ∈ vertices t' ∧ getFrame w t' = getFrame w two_frames) ∧
    m_edges (_graph t') = m_edges (_graph two_frames).
Proof.
  eexists. split; [reflexivity|].
  apply (add_vertex_then_lookup no_uuid "c" two_frames 3%N). reflexivity.
Defined.


Lemma add_edge_touches_one_edge_witness :
  ∃ ed t',
    add_edge_vd 1 2 10%N two_frames = Returns ((ed, true), t') ∧
    source ed = 1%N ∧ target ed = 2%N ∧
    getTransform ed t' = Returns 10%N ∧
    (∀ ed', ed' ≠ ed → getTransform ed' t' = getTransform ed' two_frames) ∧
    edge_count 1 2 (_graph t') = Nat.max 1 (edge_count 1 2 (_graph two_frames)) ∧
    (∀ u' v', (u', v') ≠ (1%N, 2%N) →
       edge_count u' v' (_graph t') = edge_count u' v' (_graph two_frames)) ∧
    vertices t' = vertices two_frames ∧ _map t' = _map two_frames.
Proof.
  eexists _, _. split; [reflexivity|].
  apply (add_edge_touches_one_edge 1 2 10%N two_frames _ true). reflexivity.
Defined.

Lemma unknown_label_is_not_reported_witness :
  vertex "z" two_frames = null_vertex ∧
  remove_vertex "z" two_frames = Undefined ∧
  (∀ b tf, add_edge "z" b tf two_frames = Undefined) ∧
  (∀ a tf, add_edge a "z" tf two_frames = Undefined) ∧
  (∀ b d, remove_edge "z" b d two_frames = Undefined) ∧
  (∀ a va, names a va two_frames →
     remove_edge a "z" false two_frames = Returns two_frames ∧
     remove_edge a "z" true two_frames = Undefined).
Proof.
  apply (unknown_label_is_not_reported two_frames "z").
  - apply graph_wf_two_frames.
  - reflexivity.
Defined.

Lemma vertices_path_abc : 1%N ∈ vertices path_abc ∧ 2%N ∈ vertices path_abc.
Proof. split; apply names_path_abc. Qed.

Lemma remove_edge_plain_witness :
  ∃ t', remove_edge_vd 1 2 false path_abc = Returns t' ∧
    boost_edge 1 2 (_graph t') = Returns (EdgeDesc 1 2 0, false) ∧
    (∀ u' v', (u', v') ≠ (1%N, 2%N) →
       edge_count u' v' (_graph t') = edge_count u' v' (_graph path_abc)) ∧
    (∀ ed, (source ed, target ed) ≠ (1%N, 2%N) →
       getTransform ed t' = getTransform ed path_abc) ∧
    m_vertices (_graph t') = m_vertices (_graph path_abc) ∧
    _map t' = _map path_abc ∧
    (edge_count 1 2 (_graph path_abc) = 0 → t' = path_abc).
Proof.
  apply (remove_edge_plain 1 2 path_abc). apply vertices_path_abc.
Defined.

Lemma add_then_remove_edge_witness :
  ∃ ed t1 t2,
    add_edge_vd 1 2 10%N two_frames = Returns ((ed, true), t1) ∧
    remove_edge_vd 1 2 false t1 = Returns t2 ∧
    m_vertices (_graph t2) = m_vertices (_graph two_frames) ∧
    m_edges (_graph t2) = m_edges (_graph two_frames) ∧
    _map t2 = _map two_frames ∧
    m_next_vertex (_graph t2) = m_next_vertex (_graph two_frames) ∧
    m_next_edge (_graph t2) = N.succ (m_next_edge (_graph two_frames)).
Proof.
  apply (add_then_remove_edge 1 2 10%N two_frames).
  - apply names_two_frames.
  - apply names_two_frames.
  - reflexivity.
Defined.

Lemma edge_of_path_abc :
  EdgeDesc 1 2 1 ∈ edges path_abc ∧ EdgeDesc 2 3 2 ∈ edges path_abc.
Proof. split; vm_compute; set_solver. Qed.

Lemma remove_edge_by_descriptor_witness :
  ∃ t', remove_edge_ed (EdgeDesc 1 2 1) false path_abc = Returns t' ∧
    num_edges t' + 1 = num_edges path_abc ∧
    (∀ ed', ed' ∈ edges t' ↔ ed' ∈ edges path_abc ∧ ed' ≠ EdgeDesc 1 2 1) ∧
    (∀ ed', ed' ≠ EdgeDesc 1 2 1 → getTransform ed' t' = getTransform ed' path_abc) ∧
    m_vertices (_graph t') = m_vertices (_graph path_abc) ∧
    _map t' = _map path_abc.
Proof.
  apply (remove_edge_by_descriptor (EdgeDesc 1 2 1) path_abc).
  - apply graph_wf_path_abc.
  - apply edge_of_path_abc.
Defined.

Lemma remove_edge_destructive_witness :
  ∃ t',
    remove_edge_vd 1 2 true path_abc = Returns t' ∧
    (∀ e, e ∈ m_edges (_graph t') ↔
          e ∈ m_edges (_graph path_abc) ∧ joins 1 2 e = false) ∧
    (∀ w, w ∈ vertices t' ↔
          w ∈ vertices path_abc ∧ (w = 1%N ∨ w = 2%N → ¬ isolated w t')) ∧
    no_dangling_edges (_graph t') ∧
    _map t' = _map path_abc.
Proof.
  apply (remove_edge_destructive 1 2 path_abc).
  - apply vertices_path_abc.
  - apply vertices_path_abc.
  - discriminate.
  - apply graph_wf_path_abc.
Defined.

Lemma remove_edge_by_descriptor_destructive_witness :
  ∃ t',
    remove_edge_ed (EdgeDesc 2 3 2) true path_abc = Returns t' ∧
    (∀ ed', ed' ∈ edges t' ↔ ed' ∈ edges path_abc ∧ ed' ≠ EdgeDesc 2 3 2) ∧
    (∀ w, w ∈ vertices t' ↔
          w ∈ vertices path_abc ∧ (w = 2%N ∨ w = 3%N → ¬ isolated w t')) ∧
    no_dangling_edges (_graph t') ∧
    _map t' = _map path_abc.
Proof.
  apply (remove_edge_by_descriptor_destructive (EdgeDesc 2 3 2) path_abc).
  - apply edge_of_path_abc.
  - apply graph_wf_path_abc.
  - discriminate.
Defined.


Lemma clear_keeps_labels_witness :
  num_vertices (clear two_frames) = 0 ∧ num_edges (clear two_frames) = 0 ∧
  (∀ l', vertex l' (clear two_frames) = vertex l' two_frames) ∧
  getFrame 1 (clear two_frames) = Undefined ∧
  (∀ nu, add_vertex nu "a" (clear two_frames) = Returns (1%N, clear two_frames)) ∧
  (∀ b tf, add_edge "a" b tf (clear two_frames) = Undefined).
Proof. apply (clear_keeps_labels two_frames "a" 1%N). reflexivity. Defined.

Lemma move_hands_over_witness :
  ∃ h' o',
    move_construct 11 10 live_heap = Returns h' ∧
    views h' !! 11%N = Some (with_publisher (Some 100%N) sample_view) ∧
    views h' !! 10%N = Some o' ∧
    treeUpdated o' = [] ∧ publisher o' = None ∧
    (∀ a, a ≠ 11%N → a ≠ 10%N → views h' !! a = views live_heap !! a) ∧
    (publisher (with_publisher (Some 100%N) sample_view) = None →
     subscribed h' = subscribed live_heap ∧ calls h' = calls live_heap).
Proof.
  apply (move_hands_over live_heap 11 10 (with_publisher (Some 100%N) sample_view)).
  - reflexivity.
  - reflexivity.
  - intros pub [= <-]. by eexists.
Defined.

Lemma registered_live_heap : 10%N ∈ registered 100 live_heap.
Proof. vm_compute. reflexivity. Qed.

Lemma destroyed_copy_leaves_original_witness :
  ∃ h1 h2,
    copy_construct 11 10 live_heap = Returns h1 ∧
    destroy 11 h1 = Returns h2 ∧
    views h2 = views live_heap ∧
    (∀ q, registered q h2 = registered q live_heap) ∧
    10%N ∈ registered 100 h2 ∧
    calls h2 = calls live_heap ++ [unsubscribe_call 100 11].
Proof.
  apply (destroyed_copy_leaves_original live_heap 11 10 100
           (with_publisher (Some 100%N) sample_view)).
  - apply registrations_backed_live_heap.
  - reflexivity.
  - reflexivity.
  - reflexivity.
  - apply registered_live_heap.
Defined.

Lemma moved_copy_is_registered_witness :
  ∃ h1 h2,
    copy_construct 11 10 live_heap = Returns h1 ∧
    move_construct 12 11 h1 = Returns h2 ∧
    registered 100 h2 = registered 100 live_heap ∪ {[12%N]} ∧
    (12%N ∉ registered 100 live_heap) ∧
    calls h2 = calls live_heap ++ [unsubscribe_call 100 11; subscribe_call 100 12].
Proof.
  apply (moved_copy_is_registered live_heap 11 12 10 100
           (with_publisher (Some 100%N) sample_view)).
  - apply registrations_backed_live_heap.
  - reflexivity.
  - reflexivity.
  - discriminate.
  - reflexivity.
  - reflexivity.
  - apply registered_live_heap.
Defined.

Lemma setPublisher_guard_witness :
  (∃ h', @setPublisher debug_build 100 10 idle_heap = Returns h' ∧
     views h' !! 10%N = Some (with_publisher (Some 100%N) sample_view) ∧
     (∀ a, a ≠ 10%N → views h' !! a = views idle_heap !! a) ∧
     subscribed h' = subscribed idle_heap ∧ calls h' = calls idle_heap) ∧
  @setPublisher debug_build 200 10 rival_heap = Aborts ∧
  (∃ h1, @setPublisher release_build 200 10 rival_heap = Returns h1 ∧
     views h1 !! 10%N = Some (with_publisher (Some 200%N) sample_view) ∧
     (∀ a, a ≠ 10%N → views h1 !! a = views rival_heap !! a) ∧
     subscribed h1 = subscribed rival_heap ∧ calls h1 = calls rival_heap ∧
     ∃ h2, destroy 10 h1 = Returns h2 ∧
       calls h2 = calls rival_heap ++ [unsubscribe_call 200 10] ∧
       views h2 !! 10%N = None ∧
       10%N ∈ registered 100 h2 ∧
       ¬ registrations_backed h2).
Proof.
  split; [|split].
  - apply (@setPublisher_guard debug_build idle_heap 10 100 sample_view);
      reflexivity.
  - apply (@setPublisher_guard debug_build rival_heap 10 200
             (with_publisher (Some 100%N) sample_view) eq_refl) with (old := 100%N);
      reflexivity.
  - destruct (@setPublisher_guard release_build rival_heap 10 200
                (with_publisher (Some 100%N) sample_view) eq_refl) as (_ & _ & H).
    destruct (H 100%N eq_refl eq_refl) as (h1 & H1 & H2 & H3 & H4 & H5 & H6).
    exists h1. split; [exact H1|]. split; [exact H2|]. split; [exact H3|].
    split; [exact H4|]. split; [exact H5|]. apply H6.
    + discriminate.
    + vm_compute. reflexivity.
    + by eexists.
Defined.

Lemma out_edges_of_vertex_witness :
  (∃ l, out_edges 2 path_abc = Returns l ∧
     (∀ ed, ed ∈ l ↔ ed ∈ edges path_abc ∧ source ed = 2%N) ∧
     boost_out_degree 2 (_graph path_abc) = Returns (length l) ∧
     (∀ ed, ed ∈ l → target ed ∈ vertices path_abc) ∧
     NoDup (target <$> l) ∧ NoDup l) ∧
  out_edges 9 path_abc = Undefined ∧
  boost_out_degree 9 (_graph path_abc) = Undefined.
Proof.
  destruct (out_edges_of_vertex 2 path_abc graph_wf_path_abc) as [Hlive _].
  destruct (out_edges_of_vertex 9 path_abc graph_wf_path_abc) as [_ Hdead].
  split.
  - apply Hlive. apply names_path_abc.
  - apply Hdead. vm_compute. set_solver.
Defined.
